(** * react-loop-detector: hook-loop analysis engine

    A shallow embedding of the analyzer modules
    [guard-analyzer.ts], [effect-analyzer.ts], [orchestrator.ts]
    (state and stability extraction), [utils.ts] (confidence, ignore
    comments, error codes) and of the search for dependency cycles of
    the detector, followed by the properties of the specification that
    were checked against them (Part II) and by further properties of the
    code (Part III).

    Conventions of the embedding

    - A Babel AST is the inductive type [node]; only the node kinds the
      analyzers inspect have a constructor of their own, every other kind
      is [OtherNode] with its children in traversal order.
    - JavaScript compares nodes by reference.  A reference to a node is
      modelled as the node together with its position in the tree
      ([nref]): two references are the same object exactly when their
      positions agree.
    - [traverse] of [@babel/traverse] is the list of enter/exit events of
      the depth-first walk over the descendants of the root; visitors are
      folds over that list.
    - A JavaScript [Map] is an insertion-ordered association list
      ([JsMap]), a [Set] of strings an insertion-ordered duplicate-free
      list, since the analyzers iterate over both. *)

From Stdlib Require Import String Ascii List Bool Arith ZArith Lia.
From Stdlib Require Import DecimalString.
Import ListNotations.
Local Open Scope string_scope.
Local Open Scope list_scope.
Set Warnings "-register-all".

(* ================================================================== *)
(** * Part I.  Definitions *)
(* ================================================================== *)

(** ** JavaScript containers *)

Definition strIn (x : string) (l : list string) : bool :=
  existsb (String.eqb x) l.

(** [Set.prototype.add] on an insertion-ordered set of strings. *)
Definition setAdd (s : list string) (x : string) : list string :=
  if strIn x s then s else s ++ [x].

(** [new Set(xs)], also [[...new Set(xs)]] and [Array.from(new Set(xs))]. *)
Definition newSet (xs : list string) : list string :=
  fold_left setAdd xs [].

Module JsMap.
Definition t (V : Type) : Type := list (string * V).

Fixpoint get {V} (m : t V) (k : string) : option V :=
  match m with
  | [] => None
  | (k', v) :: r => if String.eqb k k' then Some v else get r k
  end.

Definition has {V} (m : t V) (k : string) : bool :=
  match get m k with Some _ => true | None => false end.

(** [Map.prototype.set]: an existing key keeps its place in the
    iteration order, a new key goes last. *)
Fixpoint set {V} (m : t V) (k : string) (v : V) : t V :=
  match m with
  | [] => [(k, v)]
  | (k', v') :: r =>
      if String.eqb k k' then (k', v) :: r else (k', v') :: set r k v
  end.

Fixpoint delete {V} (m : t V) (k : string) : t V :=
  match m with
  | [] => []
  | (k', v') :: r =>
      if String.eqb k k' then r else (k', v') :: delete r k
  end.

Definition keys {V} (m : t V) : list string := map fst m.
Definition values {V} (m : t V) : list V := map snd m.
End JsMap.

(** ** The syntax tree *)

Inductive node : Type :=
| Identifier (name : string)
| BooleanLiteral (value : bool)
| NumericLiteral (value : Z)
| StringLiteral (value : string)
| NullLiteral
| UnaryExpression (operator : string) (argument : node)
| BinaryExpression (operator : string) (lhs rhs : node)
| LogicalExpression (operator : string) (lhs rhs : node)
| MemberExpression (object property : node) (computed : bool)
| CallExpression (line : nat) (callee : node) (arguments : list node)
| AssignmentExpression (line : nat) (lhs rhs : node)
| ArrowFunctionExpression (loc : nat * nat) (params : list node) (body : node)
| FunctionExpression (loc : nat * nat) (params : list node) (body : node)
| ObjectExpression (properties : list node)
| ObjectProperty (key value : node) (computed : bool)
| ObjectMethod (key : node) (params : list node) (body : node)
| SpreadElement (argument : node)
| ArrayExpression (elements : list node)
| ArrayPattern (elements : list node)
| ObjectPattern (properties : list node)
| RestElement (argument : node)
| AssignmentPattern (lhs rhs : node)
| ExpressionStatement (expression : node)
| IfStatement (test consequent : node) (alternate : option node)
| BlockStatement (body : list node)
| ReturnStatement (argument : option node)
| VariableDeclaration (declarations : list node)
| VariableDeclarator (line : nat) (id : node) (init : option node)
| FunctionDeclaration (loc : nat * nat) (id : option string)
    (params : list node) (body : node)
| OtherNode (type : string) (children : list node).

(** [loc] of a function node is its (start line, end line) and [line] the
    start line of a node; a missing location is line 0, as in
    [node.loc?.start.line || 0].  The name of a [FunctionDeclaration] is
    kept as a string: its identifier is never a referenced identifier,
    so no visitor acts on it.  Holes of array literals, the name of a
    function expression, the operator of an assignment and type
    annotations are not represented; no analyzer function modelled here
    reads them.  Numeric literals are integers. *)

Definition isIdentifier (n : node) : bool :=
  match n with Identifier _ => true | _ => false end.
Definition isMemberExpression (n : node) : bool :=
  match n with MemberExpression _ _ _ => true | _ => false end.
Definition isCallExpression (n : node) : bool :=
  match n with CallExpression _ _ _ => true | _ => false end.
Definition isArrowFunctionExpression (n : node) : bool :=
  match n with ArrowFunctionExpression _ _ _ => true | _ => false end.
Definition isFunctionExpression (n : node) : bool :=
  match n with FunctionExpression _ _ _ => true | _ => false end.
Definition isObjectExpression (n : node) : bool :=
  match n with ObjectExpression _ => true | _ => false end.
Definition isArrayExpression (n : node) : bool :=
  match n with ArrayExpression _ => true | _ => false end.
Definition isIfStatement (n : node) : bool :=
  match n with IfStatement _ _ _ => true | _ => false end.
(** [t.isArrowFunctionExpression(x) || t.isFunctionExpression(x)] *)
Definition isFunctionLiteral (n : node) : bool :=
  isArrowFunctionExpression n || isFunctionExpression n.

(** [t.isIdentifier(n) && n.name === x] *)
Definition isIdentifierNamed (x : string) (n : node) : bool :=
  match n with Identifier y => String.eqb y x | _ => false end.

Definition callArguments (n : node) : list node :=
  match n with CallExpression _ _ args => args | _ => [] end.
Definition callCallee (n : node) : option node :=
  match n with CallExpression _ c _ => Some c | _ => None end.

(** ** References and traversal *)

(** A position is the list of child indices from the node up to the
    root, nearest first. *)
Definition position : Type := list nat.

Record nref : Type := mkRef { rpath : position; rnode : node }.

Fixpoint position_eqb (p q : position) : bool :=
  match p, q with
  | [], [] => true
  | x :: p', y :: q' => Nat.eqb x y && position_eqb p' q'
  | _, _ => false
  end.

(** [a === b] for two references into one tree. *)
Definition sameNode (a b : nref) : bool := position_eqb (rpath a) (rpath b).

(** [Set<t.Node>.has] *)
Definition nodeSetHas (s : list nref) (r : nref) : bool :=
  existsb (sameNode r) s.

(** A traversal path of Babel: the node, its position, and the chain of
    enclosing nodes, parent first and the traversal root last. *)
Record site : Type := mkSite {
  s_path : position;
  s_anc : list node;
  s_node : node
}.

Inductive event : Type :=
| Enter (s : site)
| Exit (s : site).

(** Depth-first walk in visitor-key order.  Children are numbered in the
    order in which they are visited. *)
Fixpoint visit (path : position) (anc : list node) (n : node) {struct n}
  : list event :=
  let me := mkSite path anc n in
  let sub := fun (i : nat) (c : node) => visit (i :: path) (n :: anc) c in
  let subs :=
    fix subs (i : nat) (l : list node) {struct l} : list event :=
      match l with
      | [] => []
      | c :: r => sub i c ++ subs (S i) r
      end in
  let subo := fun (i : nat) (o : option node) =>
    match o with Some c => sub i c | None => [] end in
  Enter me ::
  match n with
  | Identifier _ | BooleanLiteral _ | NumericLiteral _
  | StringLiteral _ | NullLiteral => []
  | UnaryExpression _ a => sub 0 a
  | BinaryExpression _ l r => sub 0 l ++ sub 1 r
  | LogicalExpression _ l r => sub 0 l ++ sub 1 r
  | MemberExpression o p _ => sub 0 o ++ sub 1 p
  | CallExpression _ c args => sub 0 c ++ subs 1 args
  | AssignmentExpression _ l r => sub 0 l ++ sub 1 r
  | ArrowFunctionExpression _ ps b => subs 0 ps ++ sub (length ps) b
  | FunctionExpression _ ps b => subs 0 ps ++ sub (length ps) b
  | ObjectExpression ps => subs 0 ps
  | ObjectProperty k v _ => sub 0 k ++ sub 1 v
  | ObjectMethod k ps b => sub 0 k ++ subs 1 ps ++ sub (S (length ps)) b
  | SpreadElement a => sub 0 a
  | ArrayExpression es => subs 0 es
  | ArrayPattern es => subs 0 es
  | ObjectPattern ps => subs 0 ps
  | RestElement a => sub 0 a
  | AssignmentPattern l r => sub 0 l ++ sub 1 r
  | ExpressionStatement e => sub 0 e
  | IfStatement t c a => sub 0 t ++ sub 1 c ++ subo 2 a
  | BlockStatement b => subs 0 b
  | ReturnStatement a => subo 0 a
  | VariableDeclaration ds => subs 0 ds
  | VariableDeclarator _ i e => sub 0 i ++ subo 1 e
  | FunctionDeclaration _ _ ps b => subs 0 ps ++ sub (length ps) b
  | OtherNode _ cs => subs 0 cs
  end ++ [Exit me].

(** [traverse(root, visitors)]: the root itself is not visited. *)
Definition traverseFrom (path : position) (root : node) : list event :=
  removelast (tl (visit path [] root)).

Definition traverse (root : node) : list event := traverseFrom [] root.

Definition entered (es : list event) : list site :=
  flat_map (fun e => match e with Enter s => [s] | Exit _ => [] end) es.

(** The paths on which enter-visitors fire, in order. *)
Definition walk (root : node) : list site := entered (traverse root).
Definition walkFrom (path : position) (root : node) : list site :=
  entered (traverseFrom path root).

(** The paths of [traverse(root, ...)] when [root] is a node of a tree
    that was traversed before.  Babel keeps the path objects it makes
    for the children of a node, and a traversal that starts below the
    root of an earlier one finds those objects again, each with the
    [parentPath] it was given then ([setup] keeps the old parent path
    when it is passed none).  [base] is the position of [root] in the
    tree and [above] the nodes above [root], parent first, up to the
    root of the earlier traversal.  For a tree that was not traversed
    before, both are empty, and this is [walk root]. *)
Definition walkWithin (base : position) (above : list node) (root : node)
  : list site :=
  entered (removelast (tl (visit base above root))).

Definition s_ref (s : site) : nref := mkRef (s_path s) (s_node s).

(** [path.parent] *)
Definition s_parent (s : site) : option node := hd_error (s_anc s).

(** References to a chain of nodes, each one the parent of the one
    before it. *)
Fixpoint refsUp (path : position) (nodes : list node) : list nref :=
  match nodes with
  | [] => []
  | n :: r => mkRef path n :: refsUp (tl path) r
  end.

(** The chain of [parentPath]s.  The last node of [s_anc] is the root
    of the traversal that made the paths: it has no path of its own, so
    it is not part of the chain.  For the paths of [walk] that is the
    traversal root itself; for those of [walkWithin] the chain goes on
    above the root of the later traversal. *)
Definition parentPaths (s : site) : list nref :=
  refsUp (tl (s_path s)) (removelast (s_anc s)).

(** [path.findParent(p => set.has(p.node)) !== null] *)
Definition insideAnyOf (set : list nref) (s : site) : bool :=
  existsb (nodeSetHas set) (parentPaths s).

(** [path.isReferencedIdentifier()]: Babel's [isReferenced(node, parent,
    grandparent)] on the node kinds of this embedding.  The child index
    tells which field of the parent holds the node.  A child of the
    traversal root has the root as parent and no grandparent.  Two
    limits of the embedding: an object method has no [computed] flag
    here, so its key never counts as a reference (in Babel a computed
    key does); and under a parent kept as [OtherNode] every position
    counts as a reference. *)
Definition isReferenced (parent : node) (idx : nat) (grandparent : option node)
  : bool :=
  match parent with
  | MemberExpression _ _ computed =>
      if Nat.eqb idx 1 then computed else true
  | VariableDeclarator _ _ _ => Nat.eqb idx 1
  | ArrowFunctionExpression _ ps _ => Nat.eqb idx (length ps)
  | ObjectMethod _ _ _ => false
  | ObjectProperty _ _ computed =>
      if Nat.eqb idx 0 then computed
      else match grandparent with
           | Some (ObjectPattern _) => false
           | _ => true
           end
  | AssignmentExpression _ _ _ => Nat.eqb idx 1
  | AssignmentPattern _ _ => Nat.eqb idx 1
  | RestElement _ => false
  | FunctionDeclaration _ _ _ _ => false
  | FunctionExpression _ _ _ => false
  | ObjectPattern _ => false
  | ArrayPattern _ => false
  | _ => true
  end.

Definition isReferencedIdentifier (s : site) : bool :=
  isIdentifier (s_node s) &&
  match s_anc s with
  | [] => true
  | p :: rest => isReferenced p (hd 0 (s_path s)) (hd_error rest)
  end.

(* ------------------------------------------------------------------ *)
(** ** utils.ts *)

(** [containsNode(tree, target)]: search of the subtree for the target
    object.  The subtree is walked from the position of its root, and the
    target is found when the walk reaches the target's position. *)
Definition containsNode (tree target : nref) : bool :=
  sameNode tree target ||
  existsb (fun s => sameNode (s_ref s) target)
          (walkFrom (rpath tree) (rnode tree)).

Definition isSpreadOf (stateVar : string) (n : node) : bool :=
  match n with
  | SpreadElement a => isIdentifierNamed stateVar a
  | _ => false
  end.

Definition usesObjectSpread (setterArg : option node) (stateVar : string)
  : bool :=
  match setterArg with
  | None => false
  | Some (ObjectExpression props) => existsb (isSpreadOf stateVar) props
  | Some (CallExpression _ (MemberExpression o p _) args) =>
      isIdentifierNamed "Object" o && isIdentifierNamed "assign" p &&
      existsb (isIdentifierNamed stateVar) args
  | Some (ArrayExpression els) => existsb (isSpreadOf stateVar) els
  | Some _ => false
  end.

(** [conditionInvolvesState]: a traversal of the condition that looks for
    a referenced identifier with the state variable's name. *)
Definition conditionInvolvesState (condition : node) (stateVar : string)
  : bool :=
  existsb (fun s => isIdentifierNamed stateVar (s_node s) &&
                    isReferencedIdentifier s)
          (walk condition).

Inductive ConfidenceLevel : Type := high | medium | low.

Definition ConfidenceLevel_eqb (a b : ConfidenceLevel) : bool :=
  match a, b with
  | high, high | medium, medium | low, low => true
  | _, _ => false
  end.

(** The optional fields of the context object; an absent field is
    [None], which is falsy. *)
Record AdjustContext : Type := mkAdjustContext {
  usedTypeInference : option bool;
  crossFileChainDepth : option Z;
  isConditional : option bool;
  isStrictMode : option bool
}.

Definition truthyBool (o : option bool) : bool :=
  match o with Some b => b | None => false end.

(** [x && x > 2] for an optional number *)
Definition deeperThanTwo (o : option Z) : bool :=
  match o with Some d => negb (Z.eqb d 0) && Z.gtb d 2 | None => false end.

Definition _adjustConfidence (baseConfidence : ConfidenceLevel)
  (context : AdjustContext) : ConfidenceLevel :=
  let confidence := baseConfidence in
  (* Rule 1 *)
  let confidence :=
    if truthyBool (usedTypeInference context) &&
       negb (truthyBool (isStrictMode context)) &&
       ConfidenceLevel_eqb confidence high
    then medium else confidence in
  (* Rule 2 *)
  let confidence :=
    if deeperThanTwo (crossFileChainDepth context) &&
       ConfidenceLevel_eqb confidence high
    then medium else confidence in
  (* Rule 3 *)
  let confidence :=
    if truthyBool (isConditional context) &&
       ConfidenceLevel_eqb confidence high
    then medium else confidence in
  confidence.

(** The ordering low < medium < high. *)
Definition rank (c : ConfidenceLevel) : nat :=
  match c with low => 0 | medium => 1 | high => 2 end.

Definition conf_le (a b : ConfidenceLevel) : Prop := rank a <= rank b.

(* ------------------------------------------------------------------ *)
(** ** guard-analyzer.ts *)

Inductive GuardType : Type :=
| toggle_guard | equality_guard | early_return | object_spread_risk
| unknown_guard.

Record GuardedModification : Type := mkGuarded {
  gm_setter : string;
  gm_stateVariable : string;
  gm_guardType : GuardType;
  gm_isSafe : bool;
  gm_warning : option string
}.

(** Result of [analyzeCondition]. *)
Record ConditionVerdict : Type := mkVerdict {
  cv_type : GuardType;
  cv_isSafe : bool;
  cv_warning : option string
}.

Definition orElse {A} (a : option A) (b : option A) : option A :=
  match a with Some _ => a | None => b end.

Definition isNotEqualOperator (op : string) : bool :=
  String.eqb op "!==" || String.eqb op "!=".

(** [n.type === 'MemberExpression' && n.object?.type === 'Identifier' &&
     n.object.name === stateVar] *)
Definition isMemberOfState (stateVar : string) (n : node) : bool :=
  match n with
  | MemberExpression o _ _ => isIdentifierNamed stateVar o
  | _ => false
  end.

Definition spreadWarning (stateVar : string) : string :=
  "Guard checks property of '" ++ stateVar ++
  "' but setter creates new object reference. " ++
  "Even after the property matches, the object reference changes each render, " ++
  "which may cause issues if other effects or memoized values depend on object identity.".

(** Pattern 1: [if (!stateVar)]. *)
Definition toggleNegationPattern (condition : node) (stateVar : string)
  (setterCall : node) (setterName : option string) : option ConditionVerdict :=
  match condition with
  | UnaryExpression op arg =>
      if String.eqb op "!" && isIdentifierNamed stateVar arg then
        match hd_error (callArguments setterCall) with
        | Some setterArg =>
            match setterArg with
            | BooleanLiteral true => Some (mkVerdict toggle_guard true None)
            | _ =>
                if negb (isIdentifierNamed stateVar setterArg)
                then Some (mkVerdict toggle_guard true None)
                else None
            end
        | None =>
            match callCallee setterCall with
            | Some (Identifier calleeName) =>
                match setterName with
                | Some sn =>
                    if negb (String.eqb calleeName sn)
                    then Some (mkVerdict toggle_guard true None)
                    else None
                | None => Some (mkVerdict toggle_guard true None)
                end
            | _ => None
            end
        end
      else None
  | _ => None
  end.

(** Pattern 1b: [if (stateVar)] with a falsy value being set. *)
Definition toggleTruthyPattern (condition : node) (stateVar : string)
  (setterCall : node) : option ConditionVerdict :=
  if isIdentifierNamed stateVar condition then
    match hd_error (callArguments setterCall) with
    | Some (BooleanLiteral false) => Some (mkVerdict toggle_guard true None)
    | Some NullLiteral => Some (mkVerdict toggle_guard true None)
    | Some (Identifier x) =>
        if String.eqb x "undefined"
        then Some (mkVerdict toggle_guard true None) else None
    | _ => None
    end
  else None.

(** Pattern 2: [if (stateVar !== x)] and [if (stateVar.p !== x)]. *)
Definition equalityPattern (condition : node) (stateVar : string)
  (setterCall : node) : option ConditionVerdict :=
  match condition with
  | BinaryExpression operator l r =>
      if isNotEqualOperator operator then
        let hasStateOnLeft := isIdentifierNamed stateVar l in
        let hasStateOnRight := isIdentifierNamed stateVar r in
        if hasStateOnLeft || hasStateOnRight then
          Some (mkVerdict equality_guard true None)
        else
          let leftIsMemberOfState := isMemberOfState stateVar l in
          let rightIsMemberOfState := isMemberOfState stateVar r in
          if leftIsMemberOfState || rightIsMemberOfState then
            let setterArg := hd_error (callArguments setterCall) in
            if usesObjectSpread setterArg stateVar then
              Some (mkVerdict object_spread_risk false
                              (Some (spreadWarning stateVar)))
            else Some (mkVerdict equality_guard true None)
          else None
      else None
  | _ => None
  end.

(** [result?.isSafe] *)
Definition verdictIsSafe (v : option ConditionVerdict) : bool :=
  match v with Some r => cv_isSafe r | None => false end.

(** The condition of an [if] and the operands of [&&] are never [null]
    in a parsed tree, so the first line of the function,
    [if (!condition) return null], has no counterpart here. *)
Fixpoint analyzeCondition (condition : node) (stateVar : string)
  (setterCall : node) (_ifStatement : node) (setterName : option string)
  {struct condition} : option ConditionVerdict :=
  orElse (toggleNegationPattern condition stateVar setterCall setterName)
  (orElse (toggleTruthyPattern condition stateVar setterCall)
  (orElse (equalityPattern condition stateVar setterCall)
  (* Pattern 3: logical AND *)
  match condition with
  | LogicalExpression op l r =>
      if String.eqb op "&&" then
        let leftResult :=
          analyzeCondition l stateVar setterCall _ifStatement setterName in
        let rightResult :=
          analyzeCondition r stateVar setterCall _ifStatement setterName in
        if verdictIsSafe leftResult then leftResult
        else if verdictIsSafe rightResult then rightResult
        else None
      else None
  | _ => None
  end)).

(** [stmt.consequent] is [return;] or a block holding only a return. *)
Definition hasReturn (consequent : node) : bool :=
  match consequent with
  | ReturnStatement _ => true
  | BlockStatement [ReturnStatement _] => true
  | _ => false
  end.

(** Index of the first statement of the block that contains the call. *)
Fixpoint findSetterIndex (block : position) (i : nat) (body : list node)
  (setterCall : nref) : option nat :=
  match body with
  | [] => None
  | stmt :: rest =>
      if containsNode (mkRef (i :: block) stmt) setterCall then Some i
      else findSetterIndex block (S i) rest setterCall
  end.

Definition isEarlyReturnOn (stateVar : string) (stmt : node) : bool :=
  match stmt with
  | IfStatement test consequent _ =>
      hasReturn consequent && conditionInvolvesState test stateVar
  | _ => false
  end.

Definition checkEarlyReturnPattern (blockStatement : nref)
  (setterCall : nref) (stateVar : string) : bool :=
  match rnode blockStatement with
  | BlockStatement body =>
      match findSetterIndex (rpath blockStatement) 0 body setterCall with
      | None => false                       (* setterIndex = -1 *)
      | Some 0 => false
      | Some setterIndex =>
          existsb (isEarlyReturnOn stateVar) (firstn setterIndex body)
      end
  | _ => false
  end.

(** [!stateVar] for [stateVar : string | undefined] *)
Definition truthyString (o : option string) : option string :=
  match o with
  | Some EmptyString => None
  | other => other
  end.

(** One iteration of the loop of [analyzeConditionalGuard]. *)
Definition guardAtAncestor (setterCall : nref) (setterName stateVar : string)
  (ancestor : nref) : option GuardedModification :=
  orElse
    match rnode ancestor with
    | IfStatement condition _ _ =>
        match analyzeCondition condition stateVar (rnode setterCall)
                (rnode ancestor) (Some setterName) with
        | Some guardType =>
            Some (mkGuarded setterName stateVar (cv_type guardType)
                    (cv_isSafe guardType) (cv_warning guardType))
        | None => None
        end
    | _ => None
    end
    match rnode ancestor with
    | BlockStatement _ =>
        if checkEarlyReturnPattern ancestor setterCall stateVar
        then Some (mkGuarded setterName stateVar early_return true None)
        else None
    | _ => None
    end.

Fixpoint firstSome {A B} (f : A -> option B) (l : list A) : option B :=
  match l with
  | [] => None
  | x :: r => orElse (f x) (firstSome f r)
  end.

(** The loop runs from the last element of the stack to the first. *)
Definition analyzeConditionalGuard (setterCall : nref)
  (ancestorStack : list nref) (setterName : string)
  (stateVar : option string) (_allStateVars : list string)
  : option GuardedModification :=
  match truthyString stateVar with
  | None => None
  | Some sv =>
      firstSome (guardAtAncestor setterCall setterName sv)
                (rev ancestorStack)
  end.

Definition isFalsyLiteralNode (n : option node) : bool :=
  match n with
  | Some (BooleanLiteral false) => true
  | Some (NumericLiteral v) => Z.eqb v 0
  | Some (StringLiteral v) => String.eqb v EmptyString
  | Some NullLiteral => true
  | Some (Identifier x) => String.eqb x "undefined"
  | _ => false
  end.

Inductive RenderGuardType : Type :=
| derived_state | render_toggle_guard | render_unknown.

Record RenderPhaseGuardResult : Type := mkRenderResult {
  rg_isSafe : bool;
  rg_guardType : RenderGuardType;
  rg_warning : option string
}.

Definition identName (n : node) : option string :=
  match n with Identifier x => Some x | _ => None end.
Definition stringValue (n : node) : option string :=
  match n with StringLiteral x => Some x | _ => None end.

(** Structural equivalence of two expressions. *)
Fixpoint nodesAreEquivalent (a b : node) {struct a} : bool :=
  match a, b with
  | Identifier x, Identifier y => String.eqb x y
  | MemberExpression oa propA ca, MemberExpression ob propB cb =>
      if negb (nodesAreEquivalent oa ob) then false
      else
        match (if ca then None else identName propA),
              (if ca then stringValue propA else None),
              (if cb then None else identName propB),
              (if cb then stringValue propB else None) with
        | Some x, _, Some y, _ => String.eqb x y   (* a.prop, b.prop *)
        | _, Some x, _, Some y => String.eqb x y   (* a['prop'], b['prop'] *)
        | Some x, _, _, Some y => String.eqb x y   (* a.prop, b['prop'] *)
        | _, Some x, Some y, _ => String.eqb x y   (* a['prop'], b.prop *)
        | _, _, _, _ => nodesAreEquivalent propA propB
        end
  | NumericLiteral x, NumericLiteral y => Z.eqb x y
  | StringLiteral x, StringLiteral y => String.eqb x y
  | BooleanLiteral x, BooleanLiteral y => Bool.eqb x y
  | NullLiteral, NullLiteral => true
  | _, _ => false
  end.

Definition isIdentifierOrMember (n : node) : bool :=
  isIdentifier n || isMemberExpression n.

(** [isStrictResetValue || isFalsyResetValue] *)
Definition isResetValue (setterArg : option node) : bool :=
  match setterArg with
  | Some NullLiteral => true
  | Some (Identifier x) => String.eqb x "undefined"
  | Some (BooleanLiteral false) => true
  | Some (ArrayExpression []) => true
  | Some (ObjectExpression []) => true
  | Some (NumericLiteral v) => Z.eqb v 0
  | Some (StringLiteral v) => String.eqb v EmptyString
  | _ => false
  end.

(** The first half of pattern 1: [if (prop !== state) setState(prop)]. *)
Definition derivedStateMatch (l r : node) (stateVar : string)
  (setterArg : option node) : bool :=
  let hasStateOnLeft := isIdentifierNamed stateVar l in
  let hasStateOnRight := isIdentifierNamed stateVar r in
  if hasStateOnLeft || hasStateOnRight then
    let otherSide := if hasStateOnLeft then r else l in
    match setterArg with
    | Some arg => nodesAreEquivalent arg otherSide
    | None => false
    end
  else false.

(** The second half: a comparison of two identifiers or member
    expressions guarding a reset of some other state. *)
Definition relatedResetMatch (l r : node) (setterArg : option node) : bool :=
  isIdentifierOrMember l && isIdentifierOrMember r && isResetValue setterArg.

Definition inequalityPattern (condition : node) (stateVar : string)
  (setterCall : node) : option RenderPhaseGuardResult :=
  match condition with
  | BinaryExpression operator l r =>
      if isNotEqualOperator operator then
        let setterArg := hd_error (callArguments setterCall) in
        if derivedStateMatch l r stateVar setterArg then
          Some (mkRenderResult true derived_state None)
        else if relatedResetMatch l r setterArg then
          Some (mkRenderResult true derived_state None)
        else None
      else None
  | _ => None
  end.

Definition renderTogglePattern (condition : node) (stateVar : string)
  (setterCall : node) : option RenderPhaseGuardResult :=
  let setterArg := hd_error (callArguments setterCall) in
  orElse
    (* Pattern 2: [if (!stateVar)] *)
    match condition with
    | UnaryExpression op arg =>
        if String.eqb op "!" && isIdentifierNamed stateVar arg then
          match setterArg with
          | Some _ =>
              if negb (isFalsyLiteralNode setterArg)
              then Some (mkRenderResult true render_toggle_guard None)
              else None
          | None => None
          end
        else None
    | _ => None
    end
    (* Pattern 3: [if (stateVar)] *)
    (if isIdentifierNamed stateVar condition && isFalsyLiteralNode setterArg
     then Some (mkRenderResult true render_toggle_guard None)
     else None).

Definition renderIsSafe (v : option RenderPhaseGuardResult) : bool :=
  match v with Some r => rg_isSafe r | None => false end.

Fixpoint analyzeRenderGuardCondition (condition : node) (stateVar : string)
  (setterCall : node) {struct condition} : option RenderPhaseGuardResult :=
  orElse (inequalityPattern condition stateVar setterCall)
  (orElse (renderTogglePattern condition stateVar setterCall)
  (* Pattern 4: logical AND *)
  match condition with
  | LogicalExpression op l r =>
      if String.eqb op "&&" then
        let leftResult := analyzeRenderGuardCondition l stateVar setterCall in
        let rightResult := analyzeRenderGuardCondition r stateVar setterCall in
        if renderIsSafe leftResult then leftResult
        else if renderIsSafe rightResult then rightResult
        else None
      else None
  | _ => None
  end).

(** The test of an ancestor that is an [IfStatement]. *)
Definition ifTest (ancestor : node) : option node :=
  match ancestor with IfStatement t _ _ => Some t | _ => None end.

Definition renderGuardAt (stateVar : string) (setterCall : node)
  (ancestor : node) : option RenderPhaseGuardResult :=
  match ifTest ancestor with
  | Some condition => analyzeRenderGuardCondition condition stateVar setterCall
  | None => None
  end.

(** The loop starts at index 1: index 0 of the stack is the call. *)
Definition analyzeRenderPhaseGuard (setterCall : node)
  (ancestorStack : list node) (_setterName : string) (stateVar : string)
  : option RenderPhaseGuardResult :=
  let enclosing := tl ancestorStack in
  match firstSome (renderGuardAt stateVar setterCall) enclosing with
  | Some result => Some result
  | None =>
      let isGuarded := existsb isIfStatement enclosing in
      if isGuarded then Some (mkRenderResult false render_unknown None)
      else None
  end.

(** *** The condition shapes the variants recognize

    These predicates look at the condition alone.
    [effectRecognizedShape] follows the patterns that [analyzeCondition]
    tries, in the order of its documentation. *)

Fixpoint effectRecognizedShape (stateVar : string) (c : node) : bool :=
  match c with
  | UnaryExpression op a => String.eqb op "!" && isIdentifierNamed stateVar a
  | Identifier x => String.eqb x stateVar
  | BinaryExpression op l r =>
      isNotEqualOperator op &&
      (isIdentifierNamed stateVar l || isIdentifierNamed stateVar r ||
       isMemberOfState stateVar l || isMemberOfState stateVar r)
  | LogicalExpression op l r =>
      String.eqb op "&&" &&
      (effectRecognizedShape stateVar l || effectRecognizedShape stateVar r)
  | _ => false
  end.

(** The list of recognized condition shapes as section 4.2 of the
    specification gives it, for a state variable: the negation of the
    state identifier; the bare state identifier; a [!==] or [!=]
    comparison one operand of which is the state identifier (this is
    also the shape of the derived-state pattern
    [if (external !== state)]); such a comparison on a property of the
    state identifier; a logical AND one side of which is recognized. *)
Fixpoint specRecognizedShape (stateVar : string) (c : node) : bool :=
  match c with
  | UnaryExpression op a => String.eqb op "!" && isIdentifierNamed stateVar a
  | Identifier x => String.eqb x stateVar
  | BinaryExpression op l r =>
      isNotEqualOperator op &&
      (isIdentifierNamed stateVar l || isIdentifierNamed stateVar r ||
       isMemberOfState stateVar l || isMemberOfState stateVar r)
  | LogicalExpression op l r =>
      String.eqb op "&&" &&
      (specRecognizedShape stateVar l || specRecognizedShape stateVar r)
  | _ => false
  end.

(** The shape that the render variant recognizes beyond that list, the
    reset of related state: the condition is, or has as an operand of
    [&&], a [!==] or [!=] comparison of two identifiers or member
    expressions, and the argument of the setter is a reset value. *)
Fixpoint relatedResetShape (setterArg : option node) (c : node) : bool :=
  match c with
  | BinaryExpression op l r =>
      isNotEqualOperator op && relatedResetMatch l r setterArg
  | LogicalExpression op l r =>
      String.eqb op "&&" &&
      (relatedResetShape setterArg l || relatedResetShape setterArg r)
  | _ => false
  end.

(** [c] is the condition itself or one of the operands of a chain of
    [&&] that makes up the condition. *)
Inductive conjunctOf (c : node) : node -> Prop :=
| conj_here : conjunctOf c c
| conj_left : forall l r, conjunctOf c l ->
    conjunctOf c (LogicalExpression "&&" l r)
| conj_right : forall l r, conjunctOf c r ->
    conjunctOf c (LogicalExpression "&&" l r).

(* ------------------------------------------------------------------ *)
(** ** effect-analyzer.ts: state interactions of a hook body *)

Inductive ReferenceContext : Type :=
| event_listener | callback_arg | unknown_context.

Record FunctionReference : Type := mkFunctionReference {
  functionName : string;
  context : ReferenceContext;
  receivingFunction : string
}.

Record RefMutation : Type := mkRefMutation {
  refName : string;
  assignedValue : option string;
  usesStateValue : bool;
  rm_line : nat
}.

Record StateInteraction : Type := mkStateInteraction {
  reads : list string;
  modifications : list string;
  conditionalModifications : list string;
  functionalUpdates : list string;
  deferredModifications : list string;
  guardedModifications : list GuardedModification;
  functionReferences : list FunctionReference;
  refMutations : list RefMutation;
  cleanupModifications : list string
}.

Definition EVENT_LISTENER_METHODS : list string :=
  [ "addEventListener"; "removeEventListener"; "on"; "off"; "once";
    "addListener"; "removeListener"; "subscribe"; "unsubscribe";
    "setTimeout"; "setInterval"; "requestAnimationFrame";
    "then"; "catch"; "finally";
    "map"; "filter"; "forEach"; "reduce"; "find"; "some"; "every" ].

Definition ASYNC_CALLBACK_FUNCTIONS : list string :=
  [ "setTimeout"; "setInterval"; "requestAnimationFrame";
    "requestIdleCallback";
    "then"; "catch"; "finally";
    "onSnapshot"; "onAuthStateChanged"; "onValue"; "onChildAdded";
    "onChildChanged"; "onChildRemoved";
    "subscribe"; "observe";
    "addEventListener" ].

(** The names for which a passed identifier is an event listener. *)
Definition LISTENER_CONTEXT_METHODS : list string :=
  [ "addEventListener"; "removeEventListener"; "on"; "off";
    "addListener"; "removeListener" ].

(** The name of the function that receives the arguments of a call:
    [f(...)] or [obj.f(...)]. *)
Definition receivingFuncName (callee : node) : option string :=
  match callee with
  | Identifier x => Some x
  | MemberExpression _ (Identifier p) _ => Some p
  | _ => None
  end.

(** What the first pass over a hook body collects. *)
Record FirstPass : Type := mkFirstPass {
  fp_functionsPassedAsArgs : list string;
  fp_functionReferences : list FunctionReference;
  fp_asyncCallbackNodes : list nref;
  fp_cleanupFunctionNodes : list nref;
  fp_namedAsyncCallbackRefs : list string;
  fp_localFunctions : JsMap.t nref
}.

Definition emptyFirstPass : FirstPass := mkFirstPass [] [] [] [] [] [].

Definition fpAddCleanup (r : nref) (f : FirstPass) : FirstPass :=
  mkFirstPass (fp_functionsPassedAsArgs f) (fp_functionReferences f)
    (fp_asyncCallbackNodes f)
    (if nodeSetHas (fp_cleanupFunctionNodes f) r
     then fp_cleanupFunctionNodes f else fp_cleanupFunctionNodes f ++ [r])
    (fp_namedAsyncCallbackRefs f) (fp_localFunctions f).

Definition fpSetLocalFunction (name : string) (r : nref) (f : FirstPass)
  : FirstPass :=
  mkFirstPass (fp_functionsPassedAsArgs f) (fp_functionReferences f)
    (fp_asyncCallbackNodes f) (fp_cleanupFunctionNodes f)
    (fp_namedAsyncCallbackRefs f) (JsMap.set (fp_localFunctions f) name r).

Definition fpAddReference (receiver : string) (f : FirstPass) (arg : node)
  : FirstPass :=
  match arg with
  | Identifier x =>
      mkFirstPass (setAdd (fp_functionsPassedAsArgs f) x)
        (fp_functionReferences f ++
           [mkFunctionReference x
              (if strIn receiver LISTENER_CONTEXT_METHODS
               then event_listener else callback_arg)
              receiver])
        (fp_asyncCallbackNodes f) (fp_cleanupFunctionNodes f)
        (fp_namedAsyncCallbackRefs f) (fp_localFunctions f)
  | _ => f
  end.

Definition fpAddAsyncNode (r : nref) (f : FirstPass) : FirstPass :=
  mkFirstPass (fp_functionsPassedAsArgs f) (fp_functionReferences f)
    (if nodeSetHas (fp_asyncCallbackNodes f) r
     then fp_asyncCallbackNodes f else fp_asyncCallbackNodes f ++ [r])
    (fp_cleanupFunctionNodes f)
    (fp_namedAsyncCallbackRefs f) (fp_localFunctions f).

Definition fpAddNamedAsync (x : string) (f : FirstPass) : FirstPass :=
  mkFirstPass (fp_functionsPassedAsArgs f) (fp_functionReferences f)
    (fp_asyncCallbackNodes f) (fp_cleanupFunctionNodes f)
    (setAdd (fp_namedAsyncCallbackRefs f) x) (fp_localFunctions f).

(** The arguments of a call to a deferred receiver: function literals
    are marked, identifiers are kept for resolution after the pass. *)
Fixpoint fpAsyncArguments (call : position) (i : nat) (args : list node)
  (f : FirstPass) : FirstPass :=
  match args with
  | [] => f
  | arg :: rest =>
      let f' :=
        if isFunctionLiteral arg then fpAddAsyncNode (mkRef (i :: call) arg) f
        else match arg with
             | Identifier x => fpAddNamedAsync x f
             | _ => f
             end in
      fpAsyncArguments call (S i) rest f'
  end.

(** The visitors of the first traversal. *)
Definition firstPassVisitor (f : FirstPass) (s : site) : FirstPass :=
  match s_node s with
  | ReturnStatement (Some returnArg) =>
      if isFunctionLiteral returnArg
      then fpAddCleanup (mkRef (0 :: s_path s) returnArg) f
      else f
  | VariableDeclarator _ (Identifier name) (Some init) =>
      if isFunctionLiteral init
      then fpSetLocalFunction name (mkRef (1 :: s_path s) init) f
      else f
  | FunctionDeclaration _ (Some name) _ _ =>
      fpSetLocalFunction name (s_ref s) f
  | CallExpression _ callee args =>
      match receivingFuncName callee with
      | Some EmptyString => f
      | Some receiver =>
          let f1 :=
            if strIn receiver EVENT_LISTENER_METHODS
            then fold_left (fpAddReference receiver) args f
            else f in
          if strIn receiver ASYNC_CALLBACK_FUNCTIONS
          then fpAsyncArguments (s_path s) 1 args f1
          else f1
      | None => f
      end
  | _ => f
  end.

(** Resolution of the named references, after the first traversal. *)
Definition resolveNamedAsync (f : FirstPass) : list nref :=
  fold_left
    (fun nodes name =>
       match JsMap.get (fp_localFunctions f) name with
       | Some funcNode =>
           if nodeSetHas nodes funcNode then nodes else nodes ++ [funcNode]
       | None => nodes
       end)
    (fp_namedAsyncCallbackRefs f) (fp_asyncCallbackNodes f).

Definition siPushRead (x : string) (i : StateInteraction) :=
  mkStateInteraction (reads i ++ [x]) (modifications i)
    (conditionalModifications i) (functionalUpdates i)
    (deferredModifications i) (guardedModifications i)
    (functionReferences i) (refMutations i) (cleanupModifications i).
Definition siPushModification (x : string) (i : StateInteraction) :=
  mkStateInteraction (reads i) (modifications i ++ [x])
    (conditionalModifications i) (functionalUpdates i)
    (deferredModifications i) (guardedModifications i)
    (functionReferences i) (refMutations i) (cleanupModifications i).
Definition siPushConditional (x : string) (i : StateInteraction) :=
  mkStateInteraction (reads i) (modifications i)
    (conditionalModifications i ++ [x]) (functionalUpdates i)
    (deferredModifications i) (guardedModifications i)
    (functionReferences i) (refMutations i) (cleanupModifications i).
Definition siPushFunctionalUpdate (x : string) (i : StateInteraction) :=
  mkStateInteraction (reads i) (modifications i)
    (conditionalModifications i) (functionalUpdates i ++ [x])
    (deferredModifications i) (guardedModifications i)
    (functionReferences i) (refMutations i) (cleanupModifications i).
Definition siPushDeferred (x : string) (i : StateInteraction) :=
  mkStateInteraction (reads i) (modifications i)
    (conditionalModifications i) (functionalUpdates i)
    (deferredModifications i ++ [x]) (guardedModifications i)
    (functionReferences i) (refMutations i) (cleanupModifications i).
Definition siPushGuarded (g : GuardedModification) (i : StateInteraction) :=
  mkStateInteraction (reads i) (modifications i)
    (conditionalModifications i) (functionalUpdates i)
    (deferredModifications i) (guardedModifications i ++ [g])
    (functionReferences i) (refMutations i) (cleanupModifications i).
Definition siPushRefMutation (m : RefMutation) (i : StateInteraction) :=
  mkStateInteraction (reads i) (modifications i)
    (conditionalModifications i) (functionalUpdates i)
    (deferredModifications i) (guardedModifications i)
    (functionReferences i) (refMutations i ++ [m]) (cleanupModifications i).
Definition siPushCleanup (x : string) (i : StateInteraction) :=
  mkStateInteraction (reads i) (modifications i)
    (conditionalModifications i) (functionalUpdates i)
    (deferredModifications i) (guardedModifications i)
    (functionReferences i) (refMutations i) (cleanupModifications i ++ [x]).

(** [getAncestorStack(path)]: the node of the path, then the nodes of
    its chain of parent paths. *)
Definition getAncestorStack (s : site) : list nref :=
  s_ref s :: parentPaths s.

(** [setterToState]: filled by [stateInfo.forEach]. *)
Definition reverseStateMap (stateInfo : JsMap.t string) : JsMap.t string :=
  fold_left (fun m kv => JsMap.set m (snd kv) (fst kv)) stateInfo [].

Section AnalyzeStateInteractions.
Variable stateInfo : JsMap.t string.
Variable refVars : list string.
Variable localFunctionSetters : JsMap.t (list string).
Variable asyncCallbackNodes : list nref.
Variable cleanupFunctionNodes : list nref.

Let setterNames := JsMap.values stateInfo.
Let stateNames := JsMap.keys stateInfo.
Let setterToState := reverseStateMap stateInfo.

Definition isInsideAsyncCallback (s : site) : bool :=
  insideAnyOf asyncCallbackNodes s.

Definition isInsideCleanupFunction (s : site) : bool :=
  insideAnyOf cleanupFunctionNodes s.

Definition nodeReferencesState (n : node) : bool :=
  existsb (fun s => match s_node s with
                    | Identifier x => strIn x stateNames
                    | _ => false
                    end && isReferencedIdentifier s)
          (walk n).

(** A modification in the main effect body: guarded or not. *)
Definition recordGuardAnalysis (s : site) (setter : string)
  (i : StateInteraction) : StateInteraction :=
  match analyzeConditionalGuard (s_ref s) (getAncestorStack s) setter
          (JsMap.get setterToState setter) stateNames with
  | Some guardAnalysis =>
      let i' := siPushGuarded guardAnalysis i in
      if negb (gm_isSafe guardAnalysis)
      then siPushConditional setter i' else i'
  | None => siPushModification setter i
  end.

Definition isFunctionalUpdate (args : list node) : bool :=
  match args with
  | a :: _ => isFunctionLiteral a
  | [] => false
  end.

(** A direct call of a state setter. *)
Definition recordSetterCall (s : site) (calleeName : string)
  (args : list node) (i : StateInteraction) : StateInteraction :=
  let i1 :=
    if isInsideAsyncCallback s then siPushDeferred calleeName i
    else if isInsideCleanupFunction s then siPushCleanup calleeName i
    else recordGuardAnalysis s calleeName i in
  if isFunctionalUpdate args
  then siPushFunctionalUpdate calleeName i1 else i1.

(** A call of a local function that reaches setters. *)
Definition recordTransitiveCall (s : site) (transitiveSetters : list string)
  (i : StateInteraction) : StateInteraction :=
  if isInsideAsyncCallback s then
    fold_left (fun acc setter => siPushDeferred setter acc)
              transitiveSetters i
  else if isInsideCleanupFunction s then
    fold_left (fun acc setter => siPushCleanup setter acc)
              transitiveSetters i
  else
    fold_left (fun acc setter => recordGuardAnalysis s setter acc)
              transitiveSetters i.

Definition visitCallExpression (s : site) (i : StateInteraction)
  : StateInteraction :=
  match s_node s with
  | CallExpression _ (Identifier calleeName) args =>
      if strIn calleeName setterNames then
        recordSetterCall s calleeName args i
      else
        match JsMap.get localFunctionSetters calleeName with
        | Some ((_ :: _) as transitiveSetters) =>
            recordTransitiveCall s transitiveSetters i
        | _ => i
        end
  | _ => i
  end.

Definition visitMemberExpression (s : site) (i : StateInteraction)
  : StateInteraction :=
  match s_node s with
  | MemberExpression (Identifier x) _ _ =>
      if strIn x stateNames then siPushRead x i else i
  | _ => i
  end.

(** [t.isAssignmentExpression(parent) && parent.left === node] *)
Definition isAssignmentTarget (s : site) : bool :=
  match s_anc s with
  | AssignmentExpression _ _ _ :: _ => Nat.eqb (hd 0 (s_path s)) 0
  | _ => false
  end.

Definition visitIdentifier (s : site) (i : StateInteraction)
  : StateInteraction :=
  match s_node s with
  | Identifier x =>
      if negb (strIn x stateNames) then i
      else if negb (isReferencedIdentifier s) then i
      else if isAssignmentTarget s then i
      else siPushRead x i
  | _ => i
  end.

Definition visitAssignmentExpression (s : site) (i : StateInteraction)
  : StateInteraction :=
  match s_node s with
  | AssignmentExpression line
      (MemberExpression (Identifier obj) (Identifier prop) _) rightSide =>
      if String.eqb prop "current" && strIn obj refVars then
        let mutation :=
          match rightSide with
          | Identifier r => mkRefMutation obj (Some r) (strIn r stateNames) line
          | _ => mkRefMutation obj None (nodeReferencesState rightSide) line
          end in
        siPushRefMutation mutation i
      else i
  | _ => i
  end.

(** The visitors of the main traversal.  A node has one kind, so at
    most one of them acts on a path. *)
Definition mainVisitor (i : StateInteraction) (s : site)
  : StateInteraction :=
  visitAssignmentExpression s
    (visitIdentifier s (visitMemberExpression s (visitCallExpression s i))).
End AnalyzeStateInteractions.

Definition emptyInteraction (refs : list FunctionReference)
  : StateInteraction :=
  mkStateInteraction [] [] [] [] [] [] refs [] [].

(** The closing block of [analyzeStateInteractions], under the comment
    [// Remove duplicates]. *)
Definition removeDuplicates (i : StateInteraction) : StateInteraction :=
  mkStateInteraction
    (newSet (reads i))
    (newSet (modifications i))
    (newSet (conditionalModifications i))
    (newSet (functionalUpdates i))
    (newSet (deferredModifications i))
    (guardedModifications i)
    (functionReferences i)
    (refMutations i)
    (cleanupModifications i).

(** Field-wise concatenation of two records: what a visitor adds to the
    record it is given is the record it makes from the empty one. *)
Definition siAppend (a b : StateInteraction) : StateInteraction :=
  mkStateInteraction
    (reads a ++ reads b)
    (modifications a ++ modifications b)
    (conditionalModifications a ++ conditionalModifications b)
    (functionalUpdates a ++ functionalUpdates b)
    (deferredModifications a ++ deferredModifications b)
    (guardedModifications a ++ guardedModifications b)
    (functionReferences a ++ functionReferences b)
    (refMutations a ++ refMutations b)
    (cleanupModifications a ++ cleanupModifications b).

Definition noInteraction : StateInteraction := emptyInteraction [].

(** A step that only appends to the record. *)
Definition appending (step : StateInteraction -> StateInteraction) : Prop :=
  forall i, step i = siAppend i (step noInteraction).

Definition firstPass (hookBody : node) : FirstPass :=
  fold_left firstPassVisitor (walk hookBody) emptyFirstPass.

(** The interactions as they stand when the main traversal ends. *)
Definition mainPass (hookBody : node) (stateInfo : JsMap.t string)
  (refVars : list string) (localFunctionSetters : JsMap.t (list string))
  : StateInteraction :=
  let f := firstPass hookBody in
  fold_left
    (mainVisitor stateInfo refVars localFunctionSetters
       (resolveNamedAsync f) (fp_cleanupFunctionNodes f))
    (walk hookBody)
    (emptyInteraction (fp_functionReferences f)).

Definition analyzeStateInteractions (hookBody : node)
  (stateInfo : JsMap.t string) (refVars : list string)
  (localFunctionSetters : JsMap.t (list string)) : StateInteraction :=
  removeDuplicates (mainPass hookBody stateInfo refVars localFunctionSetters).

(** [analyzeStateInteractions] for a hook body that is part of a tree
    traversed before, as it is when the orchestrator has run
    [extractStateInfo] on the file: the two traversals meet the same
    nodes, on paths whose chains of parent paths go on above the hook
    body (see [walkWithin]).  With [base] and [above] empty this is
    [analyzeStateInteractions]. *)
Definition firstPassWithin (base : position) (above : list node)
  (hookBody : node) : FirstPass :=
  fold_left firstPassVisitor (walkWithin base above hookBody) emptyFirstPass.

Definition mainPassWithin (base : position) (above : list node)
  (hookBody : node) (stateInfo : JsMap.t string)
  (refVars : list string) (localFunctionSetters : JsMap.t (list string))
  : StateInteraction :=
  let f := firstPassWithin base above hookBody in
  fold_left
    (mainVisitor stateInfo refVars localFunctionSetters
       (resolveNamedAsync f) (fp_cleanupFunctionNodes f))
    (walkWithin base above hookBody)
    (emptyInteraction (fp_functionReferences f)).

Definition analyzeStateInteractionsWithin (base : position)
  (above : list node) (hookBody : node)
  (stateInfo : JsMap.t string) (refVars : list string)
  (localFunctionSetters : JsMap.t (list string)) : StateInteraction :=
  removeDuplicates
    (mainPassWithin base above hookBody stateInfo refVars
       localFunctionSetters).

(** The analysis of the node on path [hook] of a file that was
    traversed before. *)
Definition analyzeStateInteractionsAt (hook : site)
  (stateInfo : JsMap.t string) (refVars : list string)
  (localFunctionSetters : JsMap.t (list string)) : StateInteraction :=
  analyzeStateInteractionsWithin (s_path hook) (s_anc hook) (s_node hook)
    stateInfo refVars localFunctionSetters.

(* ------------------------------------------------------------------ *)
(** ** effect-analyzer.ts: the local function-to-setters map *)

(** [name] of the callee of a call whose callee is an identifier. *)
Definition identifierCallee (n : node) : option string :=
  match n with
  | CallExpression _ (Identifier calleeName) _ => Some calleeName
  | _ => None
  end.

(** The identifier-callee calls below [funcNode] whose name is in
    [names], in traversal order.  This is both
    [findSettersCalledInFunction] (with the setter names) and
    [findFunctionsCalledInFunction] (with the known functions) of
    [buildLocalFunctionSetterMap]. *)
Definition namesCalledIn (names : list string) (funcNode : node)
  : list string :=
  flat_map (fun s => match identifierCallee (s_node s) with
                     | Some calleeName =>
                         if strIn calleeName names then [calleeName] else []
                     | None => []
                     end)
           (walk funcNode).

(** First pass: the function definitions of the file. *)
Definition collectFunctionBody (bodies : JsMap.t node) (s : site)
  : JsMap.t node :=
  match s_node s with
  | VariableDeclarator _ (Identifier varName) (Some init) =>
      if isFunctionLiteral init then JsMap.set bodies varName init
      else bodies
  | FunctionDeclaration _ (Some funcName) _ _ =>
      JsMap.set bodies funcName (s_node s)
  | _ => bodies
  end.

Definition functionBodiesOf (ast : node) : JsMap.t node :=
  fold_left collectFunctionBody (walk ast) [].

(** The two loops over [functionBodies]: an entry is made only for a
    non-empty list. *)
Definition callTable (names : list string) (bodies : JsMap.t node)
  : JsMap.t (list string) :=
  fold_left (fun m kv =>
               match namesCalledIn names (snd kv) with
               | [] => m
               | called => JsMap.set m (fst kv) called
               end)
            bodies [].

(** [map.get(k) || []] *)
Definition getOrEmpty (m : JsMap.t (list string)) (k : string) : list string :=
  match JsMap.get m k with Some l => l | None => [] end.

(** The body of the [for] loop of the third pass, for one entry of
    [functionCallingFunctions].  The state is the setter table and the
    [changed] flag. *)
Definition propagateEntry (st : JsMap.t (list string) * bool)
  (entry : string * list string) : JsMap.t (list string) * bool :=
  let '(functionsCallingSetters, changed) := st in
  let '(funcName, calledFunctions) := entry in
  let currentSetters := getOrEmpty functionsCallingSetters funcName in
  let currentSettersSet := newSet currentSetters in
  let originalSize := length currentSettersSet in
  let grown :=
    fold_left
      (fun set calledFunc =>
         fold_left setAdd (getOrEmpty functionsCallingSetters calledFunc) set)
      calledFunctions currentSettersSet in
  if Nat.ltb originalSize (length grown)
  then (JsMap.set functionsCallingSetters funcName grown, true)
  else (functionsCallingSetters, changed).

(** One round of the [while] loop. *)
Definition propagateRound (functionCallingFunctions : JsMap.t (list string))
  (functionsCallingSetters : JsMap.t (list string))
  : JsMap.t (list string) * bool :=
  fold_left propagateEntry functionCallingFunctions
            (functionsCallingSetters, false).

(** [while (changed && iterations < maxIterations)]: [remaining] is
    [maxIterations - iterations]. *)
Fixpoint propagate (remaining : nat)
  (functionCallingFunctions : JsMap.t (list string))
  (functionsCallingSetters : JsMap.t (list string))
  : JsMap.t (list string) :=
  match remaining with
  | 0 => functionsCallingSetters
  | S k =>
      let '(next, changed) :=
        propagateRound functionCallingFunctions functionsCallingSetters in
      if changed then propagate k functionCallingFunctions next else next
  end.

Definition maxIterations : nat := 100.

Definition buildLocalFunctionSetterMap (ast : node)
  (stateInfo : JsMap.t string) : JsMap.t (list string) :=
  let setterNames := newSet (JsMap.values stateInfo) in
  let functionBodies := functionBodiesOf ast in
  let functionsCallingSetters := callTable setterNames functionBodies in
  let knownFunctions := JsMap.keys functionBodies in
  let functionCallingFunctions := callTable knownFunctions functionBodies in
  propagate maxIterations functionCallingFunctions functionsCallingSetters.

(** The local call graph and the direct setter calls, as the function
    computes them. *)
Definition directSetters (ast : node) (stateInfo : JsMap.t string)
  : JsMap.t (list string) :=
  callTable (newSet (JsMap.values stateInfo)) (functionBodiesOf ast).

Definition localCalls (ast : node) : JsMap.t (list string) :=
  callTable (JsMap.keys (functionBodiesOf ast)) (functionBodiesOf ast).

(** [g] is reached from [f] by a chain of [n] local calls. *)
Inductive callChain (calls : JsMap.t (list string))
  : nat -> string -> string -> Prop :=
| chain_nil : forall f, callChain calls 0 f f
| chain_cons : forall n f g h,
    In g (getOrEmpty calls f) ->
    callChain calls n g h ->
    callChain calls (S n) f h.

(* ------------------------------------------------------------------ *)
(** ** effect-analyzer.ts: effects without a dependency array *)

Inductive AnalysisType : Type :=
| confirmed_infinite_loop | potential_issue | safe_pattern.

Inductive IssueCategory : Type :=
| critical | warning | performance | safe.

Record HookAnalysis : Type := mkHookAnalysis {
  ha_type : AnalysisType;
  ha_errorCode : string;
  ha_category : IssueCategory;
  ha_description : string;
  ha_file : string;
  ha_line : nat;
  ha_hookType : string;
  ha_problematicDependency : string;
  ha_stateVariable : option string;
  ha_setterFunction : option string;
  ha_severity : ConfidenceLevel;
  ha_confidence : ConfidenceLevel;
  ha_explanation : string;
  ha_suggestion : option string;
  ha_actualStateModifications : list string;
  ha_stateReads : list string
}.

(** [/^[A-Z]/.test(name)] *)
Definition startsUpperCase (name : string) : bool :=
  match name with
  | String c _ => Nat.leb 65 (nat_of_ascii c) && Nat.leb (nat_of_ascii c) 90
  | EmptyString => false
  end.

(** [findSettersCalledInFunction] of [detectUseEffectWithoutDeps]: the
    setters called below the function, and the setters passed as
    arguments of a call. *)
Definition settersCalledOrPassed (setterNames : list string) (func : node)
  : list string :=
  flat_map
    (fun s =>
       match s_node s with
       | CallExpression _ callee args =>
           match callee with
           | Identifier calleeName =>
               if strIn calleeName setterNames then [calleeName] else []
           | _ => []
           end ++
           flat_map (fun arg => match arg with
                                | Identifier x =>
                                    if strIn x setterNames then [x] else []
                                | _ => []
                                end) args
       | _ => []
       end)
    (walk func).

(** The key of an object member, for keys that are identifiers or
    string literals; an empty name is skipped like a missing one. *)
Definition methodNameOf (key : node) : option string :=
  match key with
  | Identifier x => truthyString (Some x)
  | StringLiteral x => truthyString (Some x)
  | _ => None
  end.

Definition collectObjectMember (setterNames : list string) (varName : string)
  (methods : JsMap.t (list string)) (prop : node) : JsMap.t (list string) :=
  let record := fun methodName func =>
    match settersCalledOrPassed setterNames func with
    | [] => methods
    | settersCalled =>
        JsMap.set methods (varName ++ "." ++ methodName)%string settersCalled
    end in
  match prop with
  | ObjectMethod key _ _ =>
      match methodNameOf key with
      | Some methodName => record methodName prop
      | None => methods
      end
  | ObjectProperty key value _ =>
      match methodNameOf key with
      | Some methodName =>
          if isFunctionLiteral value then record methodName value else methods
      | None => methods
      end
  | _ => methods
  end.

(** First traversal: local functions and object methods that call
    setters. *)
Definition collectSetterCallers (setterNames : list string)
  (st : JsMap.t (list string) * JsMap.t (list string)) (s : site)
  : JsMap.t (list string) * JsMap.t (list string) :=
  let '(functionsCallingSetters, objectMethodsCallingSetters) := st in
  match s_node s with
  | VariableDeclarator _ (Identifier varName) (Some init) =>
      if isFunctionLiteral init then
        match settersCalledOrPassed setterNames init with
        | [] => st
        | settersCalled =>
            (JsMap.set functionsCallingSetters varName settersCalled,
             objectMethodsCallingSetters)
        end
      else
        match init with
        | ObjectExpression props =>
            (functionsCallingSetters,
             fold_left (collectObjectMember setterNames varName) props
                       objectMethodsCallingSetters)
        | _ => st
        end
  | FunctionDeclaration _ (Some funcName) _ _ =>
      if String.eqb funcName EmptyString then st
      else if startsUpperCase funcName then st
      else
        match settersCalledOrPassed setterNames (s_node s) with
        | [] => st
        | settersCalled =>
            (JsMap.set functionsCallingSetters funcName settersCalled,
             objectMethodsCallingSetters)
        end
  | _ => st
  end.

(** What one call inside the effect callback adds to
    [(setterCallsInCallback, functionCallsInCallback)]. *)
Definition collectCallbackCall (setterNames : list string)
  (functionsCallingSetters objectMethodsCallingSetters : JsMap.t (list string))
  (acc : list string * list string) (s : site) : list string * list string :=
  let '(setterCalls, functionCalls) := acc in
  match s_node s with
  | CallExpression _ callee _ =>
      match callee with
      | Identifier calleeName =>
          let setterCalls1 :=
            if strIn calleeName setterNames
            then setterCalls ++ [calleeName] else setterCalls in
          if JsMap.has functionsCallingSetters calleeName
          then (setterCalls1 ++ getOrEmpty functionsCallingSetters calleeName,
                functionCalls ++ [calleeName])
          else (setterCalls1, functionCalls)
      | MemberExpression (Identifier obj) (Identifier prop) _ =>
          let methodKey := (obj ++ "." ++ prop)%string in
          if JsMap.has objectMethodsCallingSetters methodKey
          then (setterCalls ++
                  getOrEmpty objectMethodsCallingSetters methodKey,
                functionCalls ++ [methodKey])
          else acc
      | _ => acc
      end
  | _ => acc
  end.

Definition isEffectHookName (hookName : string) : bool :=
  String.eqb hookName "useEffect" || String.eqb hookName "useLayoutEffect".

Section DetectUseEffectWithoutDeps.
(** [isHookIgnored(fileContent, line)] tests lines of the source text
    against regular expressions; it is kept abstract. *)
Variable isHookIgnored : string -> nat -> bool.

Variable stateInfo : JsMap.t string.
Variable filePath : string.
Variable fileContent : option string.
Variable functionsCallingSetters : JsMap.t (list string).
Variable objectMethodsCallingSetters : JsMap.t (list string).

Let setterNames := newSet (JsMap.values stateInfo).
Let setterToState := reverseStateMap stateInfo.

Definition missingDepsFinding (hookName : string) (line : nat)
  (setterCallsInCallback functionCallsInCallback : list string)
  : list HookAnalysis :=
  match setterCallsInCallback with
  | [] => []
  | firstSetter :: _ =>
      let stateVar :=
        match truthyString (JsMap.get setterToState firstSetter) with
        | Some v => v
        | None => firstSetter
        end in
      let isIndirect :=
        match functionCallsInCallback with [] => false | _ => true end in
      [ mkHookAnalysis
          confirmed_infinite_loop
          "RLD-201"
          critical
          "Missing dependency array with setState"
          filePath
          line
          hookName
          "missing-deps"
          (Some stateVar)
          (Some firstSetter)
          high
          (if isIndirect then medium else high)
          (if isIndirect then
             (hookName ++
             " has no dependency array, so it runs after every render. " ++
             "It calls '" ++ hd EmptyString functionCallsInCallback ++
             "()' which calls '" ++ firstSetter ++
             "()', triggering re-renders.")%string
           else
             (hookName ++
             " has no dependency array, so it runs after every render. " ++
             "It calls '" ++ firstSetter ++
             "()' which triggers a re-render, causing an infinite loop.")%string)
          (Some ("Add a dependency array: useEffect(() => { ... }, []) " ++
                 "for run-once, or [dep1, dep2] for specific dependencies.")%string)
          setterCallsInCallback
          [] ]
  end.

(** The [CallExpression] visitor of the second traversal: what the
    detector reports for the call on this path. *)
Definition reportForCall (s : site) : list HookAnalysis :=
  match s_node s with
  | CallExpression line (Identifier hookName) args =>
      if negb (isEffectHookName hookName) then []
      else
        match args with
        | [callback] =>
            if negb (isFunctionLiteral callback) then []
            else if match truthyString fileContent with
                    | Some content => isHookIgnored content line
                    | None => false
                    end then []
            else
              let '(setterCalls, functionCalls) :=
                fold_left
                  (collectCallbackCall setterNames functionsCallingSetters
                     objectMethodsCallingSetters)
                  (walk callback) ([], []) in
              missingDepsFinding hookName line setterCalls functionCalls
        | _ => []
        end
  | _ => []
  end.
End DetectUseEffectWithoutDeps.

Definition detectUseEffectWithoutDeps (isHookIgnored : string -> nat -> bool)
  (ast : node) (stateInfo : JsMap.t string) (filePath : string)
  (fileContent : option string) : list HookAnalysis :=
  let setterNames := newSet (JsMap.values stateInfo) in
  let '(functionsCallingSetters, objectMethodsCallingSetters) :=
    fold_left (collectSetterCallers setterNames) (walk ast) ([], []) in
  flat_map
    (reportForCall isHookIgnored stateInfo filePath fileContent
       functionsCallingSetters objectMethodsCallingSetters)
    (walk ast).

(* ------------------------------------------------------------------ *)
(** ** orchestrator.ts: stability of call results *)

Definition STABLE_FUNCTION_CALLS : list string :=
  [ "require"; "String"; "Number"; "Boolean"; "parseInt"; "parseFloat" ].

Definition PRIMITIVE_RETURNING_METHODS : list string :=
  [ "join"; "toString"; "toLocaleString"; "valueOf"; "charAt"; "charCodeAt";
    "codePointAt"; "substring"; "substr"; "slice"; "trim"; "trimStart";
    "trimEnd"; "toLowerCase"; "toUpperCase"; "toLocaleLowerCase";
    "toLocaleUpperCase"; "normalize"; "padStart"; "padEnd"; "repeat";
    "replace"; "replaceAll";
    "toFixed"; "toExponential"; "toPrecision";
    "indexOf"; "lastIndexOf"; "length";
    "includes"; "startsWith"; "endsWith"; "every"; "some";
    "get"; "has" ].

Definition PRIMITIVE_RETURNING_STATIC_METHODS : JsMap.t (list string) :=
  [ ("Math",
     [ "abs"; "acos"; "acosh"; "asin"; "asinh"; "atan"; "atan2"; "atanh";
       "cbrt"; "ceil"; "clz32"; "cos"; "cosh"; "exp"; "expm1"; "floor";
       "fround"; "hypot"; "imul"; "log"; "log10"; "log1p"; "log2"; "max";
       "min"; "pow"; "random"; "round"; "sign"; "sin"; "sinh"; "sqrt";
       "tan"; "tanh"; "trunc" ]);
    ("Number",
     [ "isFinite"; "isInteger"; "isNaN"; "isSafeInteger"; "parseFloat";
       "parseInt" ]);
    ("String", [ "fromCharCode"; "fromCodePoint" ]);
    ("Object", [ "is"; "hasOwn" ]);
    ("Array", [ "isArray" ]);
    ("Date", [ "now"; "parse"; "UTC" ]);
    ("JSON", [ "stringify" ]) ].

Definition STABLE_REACT_HOOKS : list string := [ "useRef"; "useId" ].

Definition STATE_HOOKS : list string := [ "useState"; "useReducer" ].

Definition isStateHookCall (n : node) : bool :=
  match callCallee n with
  | Some (Identifier x) => strIn x STATE_HOOKS
  | Some (MemberExpression (Identifier o) (Identifier p) _) =>
      String.eqb o "React" && strIn p STATE_HOOKS
  | _ => false
  end.

Definition isRefHookCall (n : node) : bool :=
  match callCallee n with
  | Some (Identifier x) => String.eqb x "useRef"
  | Some (MemberExpression (Identifier o) (Identifier p) _) =>
      String.eqb o "React" && String.eqb p "useRef"
  | _ => false
  end.

(** [StabilityCheckContext] *)
Record StabilityCheckContext : Type := mkStabilityContext {
  sc_filePath : option string;
  sc_line : option nat
}.

(** [StabilityConfig].  A regular expression is the predicate its
    [test] method computes; an absent list is the empty list. *)
Record StabilityConfig : Type := mkStabilityConfig {
  stableHooks : list string;
  unstableHooks : list string;
  stableHookPatterns : list (string -> bool);
  unstableHookPatterns : list (string -> bool)
}.

Definition isConfiguredStableHook (hookName : string) (config : StabilityConfig)
  : bool :=
  if strIn hookName (stableHooks config) then true
  else if existsb (fun pattern => pattern hookName) (stableHookPatterns config)
  then true
  else false.

Definition isConfiguredUnstableHook (hookName : string)
  (config : StabilityConfig) : bool :=
  if strIn hookName (unstableHooks config) then true
  else if existsb (fun pattern => pattern hookName)
                  (unstableHookPatterns config)
  then true
  else false.

(** The type-checking service: [getFunctionReturnType(file, line, name)]
    reduced to the [isStableReturn] field; [None] is a [null] answer or
    a thrown exception. *)
Definition TypeChecker : Type := string -> nat -> string -> option bool.

(** A question put to the type checker. *)
Definition TypeQuery : Type := (string * nat * string)%type.

Definition checkFunctionReturnStability (typeChecker : option TypeChecker)
  (filePath : string) (line : nat) (functionName : string) : option bool :=
  match typeChecker with
  | None => None
  | Some checker => checker filePath line functionName
  end.

Definition startsWithUse (name : string) : bool := String.prefix "use" name.

(** Steps 5 and later of [isStableFunctionCall]: the [use*] heuristic
    and the method allowlists.  The table of static methods is read
    here as a map of its own keys; the source indexes a plain object,
    so for an object named like a member of [Object.prototype]
    ([toString], [constructor], ...) it finds a function and the call
    of [has] raises, where this function answers by the next test. *)
Definition heuristicStability (callee : node) : bool :=
  match callee with
  | Identifier x => startsWithUse x
  | MemberExpression o (Identifier methodName) _ =>
      if strIn methodName PRIMITIVE_RETURNING_METHODS then true
      else if match o with
              | Identifier objectName =>
                  match JsMap.get PRIMITIVE_RETURNING_STATIC_METHODS
                          objectName with
                  | Some staticMethods => strIn methodName staticMethods
                  | None => false
                  end
              | _ => false
              end then true
      else String.eqb methodName "getState"
  | _ => false
  end.

(** [isStableFunctionCall], with the calls it makes to the type checker
    written out next to its result. *)
Definition isStableFunctionCallM (init : node)
  (context : option StabilityCheckContext)
  (typeChecker : option TypeChecker) (config : option StabilityConfig)
  : bool * list TypeQuery :=
  match callCallee init with
  | None => (false, [])
  | Some callee =>
    (* 1. built-in stable hooks *)
    if match callee with
       | Identifier x => strIn x STABLE_REACT_HOOKS | _ => false end
    then (true, [])
    (* 2. known stable function calls *)
    else if match callee with
            | Identifier x => strIn x STABLE_FUNCTION_CALLS | _ => false end
    then (true, [])
    else
      (* 3. configuration *)
      let configured :=
        match callee, config with
        | Identifier x, Some cfg =>
            if isConfiguredUnstableHook x cfg then Some false
            else if isConfiguredStableHook x cfg then Some true
            else None
        | _, _ => None
        end in
      match configured with
      | Some answer => (answer, [])
      | None =>
        (* 4. type checker *)
        let query :=
          match typeChecker, context with
          | Some _, Some ctx =>
              match truthyString (sc_filePath ctx), sc_line ctx with
              | Some filePath, Some (S l) =>
                  match receivingFuncName callee with
                  | Some EmptyString => None
                  | Some functionName => Some (filePath, S l, functionName)
                  | None => None
                  end
              | _, _ => None
              end
          | _, _ => None
          end in
        match query with
        | Some (filePath, line, functionName) =>
            match checkFunctionReturnStability typeChecker filePath line
                    functionName with
            | Some typeStability =>
                (typeStability, [(filePath, line, functionName)])
            | None =>
                (heuristicStability callee, [(filePath, line, functionName)])
            end
        | None => (heuristicStability callee, [])
        end
      end
  end.

Definition isStableFunctionCall (init : node)
  (context : option StabilityCheckContext)
  (typeChecker : option TypeChecker) (config : option StabilityConfig)
  : bool :=
  fst (isStableFunctionCallM init context typeChecker config).

(* ------------------------------------------------------------------ *)
(** ** orchestrator.ts: unstable variables *)

Inductive UnstableKind : Type :=
| kind_object | kind_array | kind_function | kind_function_call.

Record UnstableVariable : Type := mkUnstable {
  uv_name : string;
  uv_type : UnstableKind;
  uv_line : nat;
  uv_isMemoized : bool;
  uv_isModuleLevel : bool;
  uv_componentName : option string;
  uv_componentStartLine : option nat;
  uv_componentEndLine : option nat
}.

Record ComponentBoundaryInfo : Type := mkBoundary {
  cb_name : string;
  cb_startLine : nat;
  cb_endLine : nat
}.

Definition getUnstableVarType (init : node) : UnstableKind :=
  if isArrayExpression init then kind_array
  else if isObjectExpression init then kind_object
  else if isFunctionLiteral init then kind_function
  else kind_function_call.

(** [t.isLVal] on the node kinds of this embedding. *)
Definition isLVal (n : node) : bool :=
  match n with
  | Identifier _ | MemberExpression _ _ _ | RestElement _
  | AssignmentPattern _ _ | ArrayPattern _ | ObjectPattern _ => true
  | _ => false
  end.

Fixpoint extractIdentifiersFromPattern (pattern : node) {struct pattern}
  : list string :=
  match pattern with
  | Identifier name => [name]
  | ArrayPattern elements =>
      (fix each (l : list node) : list string :=
         match l with
         | [] => []
         | element :: rest =>
             (if isLVal element
              then extractIdentifiersFromPattern element else []) ++
             each rest
         end) elements
  | ObjectPattern properties =>
      (fix each (l : list node) : list string :=
         match l with
         | [] => []
         | prop :: rest =>
             match prop with
             | ObjectProperty _ value _ => extractIdentifiersFromPattern value
             | RestElement argument => extractIdentifiersFromPattern argument
             | _ => []
             end ++ each rest
         end) properties
  | RestElement argument => extractIdentifiersFromPattern argument
  | AssignmentPattern l _ => extractIdentifiersFromPattern l
  | _ => []
  end.

Definition isLowerCaseLetter (c : ascii) : bool :=
  Nat.leb 97 (nat_of_ascii c) && Nat.leb (nat_of_ascii c) 122.

Definition toLowerCaseChar (c : ascii) : ascii :=
  if Nat.leb 65 (nat_of_ascii c) && Nat.leb (nat_of_ascii c) 90
  then ascii_of_nat (nat_of_ascii c + 32) else c.

(** [name.startsWith('set') && name.length > 3 &&
     name[3] === name[3].toUpperCase()], on ASCII names. *)
Definition looksLikeSetter (name : string) : bool :=
  String.prefix "set" name &&
  match String.get 3 name with
  | Some c => negb (isLowerCaseLetter c)
  | None => false
  end.

(** [name.charAt(3).toLowerCase() + name.slice(4)] *)
Definition stateNameOfSetter (name : string) : string :=
  match String.get 3 name with
  | Some c =>
      String (toLowerCaseChar c) (String.substring 4 (String.length name - 4) name)
  | None => EmptyString
  end.

Definition isMemoHookCallee (callee : node) : bool :=
  match callee with
  | Identifier x => String.eqb x "useMemo" || String.eqb x "useCallback"
  | MemberExpression _ (Identifier p) _ =>
      String.eqb p "useMemo" || String.eqb p "useCallback"
  | _ => false
  end.

Record ExtractState : Type := mkExtract {
  unstableVars : JsMap.t UnstableVariable;
  memoizedVars : JsMap.t (list string);
  stateVars : list string;
  extractedRefVars : list string;
  componentStack : list ComponentBoundaryInfo;   (* top of the stack first *)
  moduleLevelVars : list string
}.

Definition emptyExtract : ExtractState := mkExtract [] [] [] [] [] [].

Definition withUnstable (u : JsMap.t UnstableVariable) (st : ExtractState) :=
  mkExtract u (memoizedVars st) (stateVars st) (extractedRefVars st)
    (componentStack st) (moduleLevelVars st).
Definition withMemoized (m : JsMap.t (list string)) (st : ExtractState) :=
  mkExtract (unstableVars st) m (stateVars st) (extractedRefVars st)
    (componentStack st) (moduleLevelVars st).
Definition withStateVars (s : list string) (st : ExtractState) :=
  mkExtract (unstableVars st) (memoizedVars st) s (extractedRefVars st)
    (componentStack st) (moduleLevelVars st).
Definition withRefVars (r : list string) (st : ExtractState) :=
  mkExtract (unstableVars st) (memoizedVars st) (stateVars st) r
    (componentStack st) (moduleLevelVars st).
Definition withStack (c : list ComponentBoundaryInfo) (st : ExtractState) :=
  mkExtract (unstableVars st) (memoizedVars st) (stateVars st)
    (extractedRefVars st) c (moduleLevelVars st).
Definition withModuleLevel (m : list string) (st : ExtractState) :=
  mkExtract (unstableVars st) (memoizedVars st) (stateVars st)
    (extractedRefVars st) (componentStack st) m.

Definition getCurrentComponent (st : ExtractState)
  : option ComponentBoundaryInfo :=
  hd_error (componentStack st).

Definition markMemoizedInCurrentScope (varName : string) (st : ExtractState)
  : ExtractState :=
  let key := match getCurrentComponent st with
             | Some currentComp => cb_name currentComp
             | None => "__module__"
             end in
  withMemoized
    (JsMap.set (memoizedVars st) key
       (setAdd (getOrEmpty (memoizedVars st) key) varName))
    st.

Definition addStateVars (names : list string) (st : ExtractState)
  : ExtractState :=
  withStateVars (fold_left setAdd names (stateVars st)) st.

Section ExtractUnstableVariables.
Variable filePath : option string.
Variable typeChecker : option TypeChecker.
Variable config : option StabilityConfig.

(** [filePath ? { filePath, line } : undefined] *)
Definition contextAt (line : nat) : option StabilityCheckContext :=
  match truthyString filePath with
  | Some f => Some (mkStabilityContext (Some f) (Some line))
  | None => None
  end.

Definition unstableEntry (name : string) (kind : UnstableKind) (line : nat)
  (boundary : ComponentBoundaryInfo) : UnstableVariable :=
  mkUnstable name kind line false false (Some (cb_name boundary))
    (Some (cb_startLine boundary)) (Some (cb_endLine boundary)).

Definition unstableKey (boundary : ComponentBoundaryInfo) (name : string)
  : string :=
  (cb_name boundary ++ ":" ++ name)%string.

(** [addUnstableDestructuredVariables], called with a component
    boundary. *)
Definition addUnstableDestructuredVariables (id : node) (init : option node)
  (line : nat) (unstable : JsMap.t UnstableVariable)
  (componentBoundary : ComponentBoundaryInfo) : JsMap.t UnstableVariable :=
  match init with
  | None => unstable
  | Some init =>
      let isUnstableSource :=
        (isCallExpression init &&
         negb (isStableFunctionCall init (contextAt line) typeChecker config))
        || isArrayExpression init || isObjectExpression init in
      if isUnstableSource then
        let varType := getUnstableVarType init in
        fold_left
          (fun m name =>
             JsMap.set m (unstableKey componentBoundary name)
               (unstableEntry name varType line componentBoundary))
          (extractIdentifiersFromPattern id) unstable
      else unstable
  end.

Definition initIsStableCall (init : option node) (line : nat) : bool :=
  match init with
  | Some i =>
      isCallExpression i &&
      isStableFunctionCall i (contextAt line) typeChecker config
  | None => false
  end.

Definition destructureUnstable (id : node) (init : option node) (line : nat)
  (st : ExtractState) : ExtractState :=
  if initIsStableCall init line then st
  else
    match getCurrentComponent st with
    | Some currentComp =>
        withUnstable
          (addUnstableDestructuredVariables id init line (unstableVars st)
             currentComp)
          st
    | None => st
    end.

(** The callee name of an initializer that is a call of an
    identifier. *)
Definition initCalleeName (init : option node) : option string :=
  match init with
  | Some i => identifierCallee i
  | None => None
  end.

Definition declareArrayPattern (id : node) (elements : list node)
  (init : option node) (line : nat) (st : ExtractState) : ExtractState :=
  if match init with Some i => isStateHookCall i | None => false end then
    addStateVars (extractIdentifiersFromPattern id) st
  else if
    match initCalleeName init with
    | Some calleeName =>
        startsWithUse calleeName && negb (String.eqb calleeName "useState") &&
        match elements with
        | Identifier _ :: Identifier secondElement :: _ =>
            looksLikeSetter secondElement
        | _ => false
        end
    | None => false
    end
  then addStateVars (extractIdentifiersFromPattern id) st
  else destructureUnstable id init line st.

Definition contextPairs (extractedNames : list string) : list string :=
  flat_map
    (fun name =>
       if looksLikeSetter name &&
          strIn (stateNameOfSetter name) extractedNames
       then [stateNameOfSetter name; name] else [])
    extractedNames.

Definition declareObjectPattern (id : node) (init : option node)
  (line : nat) (st : ExtractState) : ExtractState :=
  match initCalleeName init with
  | Some calleeName =>
      if String.eqb calleeName "useContext" then
        addStateVars (contextPairs (extractIdentifiersFromPattern id)) st
      else if startsWithUse calleeName then
        addStateVars (extractIdentifiersFromPattern id) st
      else destructureUnstable id init line st
  | None => destructureUnstable id init line st
  end.

Definition setUnstable (varName : string) (kind : UnstableKind) (line : nat)
  (comp : ComponentBoundaryInfo) (st : ExtractState) : ExtractState :=
  withUnstable
    (JsMap.set (unstableVars st) (unstableKey comp varName)
       (unstableEntry varName kind line comp))
    st.

Definition declareIdentifier (varName : string) (init : option node)
  (line : nat) (st : ExtractState) : ExtractState :=
  if match init with Some i => isStateHookCall i | None => false end then
    withStateVars (setAdd (stateVars st) varName) st
  else if match init with Some i => isRefHookCall i | None => false end then
    withRefVars (setAdd (extractedRefVars st) varName) st
  else if match init with
          | Some (CallExpression _ callee _) => isMemoHookCallee callee
          | _ => false
          end then
    markMemoizedInCurrentScope varName st
  else
    match getCurrentComponent st with
    | None => withModuleLevel (setAdd (moduleLevelVars st) varName) st
    | Some simpleCurrentComp =>
        match init with
        | Some (ObjectExpression _) =>
            setUnstable varName kind_object line simpleCurrentComp st
        | Some (ArrayExpression _) =>
            setUnstable varName kind_array line simpleCurrentComp st
        | Some (ArrowFunctionExpression _ _ _) =>
            setUnstable varName kind_function line simpleCurrentComp st
        | Some (FunctionExpression _ _ _) =>
            setUnstable varName kind_function line simpleCurrentComp st
        | Some (CallExpression _ _ _ as call) =>
            if isStableFunctionCall call (contextAt line) typeChecker config
            then st
            else setUnstable varName kind_function_call line
                   simpleCurrentComp st
        | _ => st
        end
    end.

(** The component a function literal opens, from its parent: a
    declarator of an identifier with a capitalized name. *)
Definition componentOfLiteral (s : site) : option ComponentBoundaryInfo :=
  match s_node s, s_parent s with
  | ArrowFunctionExpression (startLine, endLine) _ _,
    Some (VariableDeclarator _ (Identifier name) _)
  | FunctionExpression (startLine, endLine) _ _,
    Some (VariableDeclarator _ (Identifier name) _) =>
      if startsUpperCase name
      then Some (mkBoundary name startLine endLine) else None
  | _, _ => None
  end.

Definition componentOfDeclaration (s : site) : option ComponentBoundaryInfo :=
  match s_node s with
  | FunctionDeclaration (startLine, endLine) (Some name) _ _ =>
      if startsUpperCase name
      then Some (mkBoundary name startLine endLine) else None
  | _ => None
  end.

Definition opensComponent (s : site) : option ComponentBoundaryInfo :=
  orElse (componentOfDeclaration s) (componentOfLiteral s).

Definition extractEnter (s : site) (st : ExtractState) : ExtractState :=
  match s_node s with
  | VariableDeclarator line id init =>
      match id with
      | ArrayPattern elements => declareArrayPattern id elements init line st
      | ObjectPattern _ => declareObjectPattern id init line st
      | Identifier varName => declareIdentifier varName init line st
      | _ => st
      end
  | _ =>
      match opensComponent s with
      | Some boundary => withStack (boundary :: componentStack st) st
      | None => st
      end
  end.

Definition extractExit (s : site) (st : ExtractState) : ExtractState :=
  match opensComponent s with
  | Some _ => withStack (tl (componentStack st)) st
  | None => st
  end.

Definition extractStep (st : ExtractState) (e : event) : ExtractState :=
  match e with
  | Enter s => extractEnter s st
  | Exit s => extractExit s st
  end.

(** The state when the traversal of the file ends. *)
Definition extractTraversal (ast : node) : ExtractState :=
  fold_left extractStep (traverse ast) emptyExtract.
End ExtractUnstableVariables.

(** [componentName && memoizedVars.get(componentName)?.has(varName)] *)
Definition isMemoizedInComponent (st : ExtractState) (u : UnstableVariable)
  : bool :=
  match truthyString (uv_componentName u) with
  | Some componentName =>
      strIn (uv_name u) (getOrEmpty (memoizedVars st) componentName)
  | None => false
  end.

(** The test of the final loop: the entry is to be deleted. *)
Definition provenStable (st : ExtractState) (u : UnstableVariable) : bool :=
  isMemoizedInComponent st u ||
  strIn (uv_name u) (stateVars st) ||
  strIn (uv_name u) (extractedRefVars st) ||
  strIn (uv_name u) (moduleLevelVars st).

Definition keysToDelete (st : ExtractState) : list string :=
  flat_map (fun kv => if provenStable st (snd kv) then [fst kv] else [])
           (unstableVars st).

Definition extractUnstableVariables (ast : node) (filePath : option string)
  (typeChecker : option TypeChecker) (config : option StabilityConfig)
  : JsMap.t UnstableVariable :=
  let st := extractTraversal filePath typeChecker config ast in
  fold_left (fun m key => JsMap.delete m key) (keysToDelete st)
            (unstableVars st).

(** What holds of the state all along the traversal: the keys of the
    unstable map are distinct, every entry carries the capitalized name
    of the component it was found in, and the stack holds components
    only. *)
Definition extractInvariant (st : ExtractState) : Prop :=
  NoDup (JsMap.keys (unstableVars st)) /\
  (forall k u, In (k, u) (unstableVars st) ->
     exists c, uv_componentName u = Some c /\ startsUpperCase c = true) /\
  Forall (fun b => startsUpperCase (cb_name b) = true) (componentStack st).

(** The value of the counter [iterations] when the [while] loop of the
    third pass ends. *)
Fixpoint iterationsRun (remaining : nat)
  (functionCallingFunctions : JsMap.t (list string))
  (functionsCallingSetters : JsMap.t (list string)) : nat :=
  match remaining with
  | 0 => 0
  | S k =>
      let '(next, changed) :=
        propagateRound functionCallingFunctions functionsCallingSetters in
      if changed then S (iterationsRun k functionCallingFunctions next) else 1
  end.

(* ------------------------------------------------------------------ *)
(** ** Sample programs *)

Module Samples.

Definition stmt (e : node) : node := ExpressionStatement e.
Definition call (line : nat) (f : string) (args : list node) : node :=
  CallExpression line (Identifier f) args.
Definition arrow (body : list node) : node :=
  ArrowFunctionExpression (0, 0) [] (BlockStatement body).
Definition funDecl (name : string) (body : list node) : node :=
  FunctionDeclaration (0, 0) (Some name) [] (BlockStatement body).
Definition constDecl (line : nat) (name : string) (init : node) : node :=
  VariableDeclaration [VariableDeclarator line (Identifier name) (Some init)].


(** An effect body with a deferred, a cleanup and a plain call:
    [setTimeout(() => { setCount(1); }, 100);
     setCount(2);
     return () => { setCount(0); setCount(0); };] *)
Definition countState : JsMap.t string := [("count", "setCount")].
Definition bucketsBody : node :=
  BlockStatement
    [ stmt (call 1 "setTimeout"
              [arrow [stmt (call 1 "setCount" [NumericLiteral 1])];
               NumericLiteral 100]);
      stmt (call 2 "setCount" [NumericLiteral 2]);
      ReturnStatement
        (Some (arrow [stmt (call 3 "setCount" [NumericLiteral 0]);
                      stmt (call 4 "setCount" [NumericLiteral 0])])) ].

(** The traversal path of the deferred call [setCount(1)] of
    [bucketsBody]: the seventh path of the walk. *)
Definition noSite : site := mkSite [] [] NullLiteral.
Definition deferredSite : site := nth 6 (walk bucketsBody) noSite.

(** Render phase: [if (items !== prevItems) { setSelection(null); }]
    in a component whose state is [selection]. *)
Definition resetCall : node := call 7 "setSelection" [NullLiteral].
Definition resetTest : node :=
  BinaryExpression "!==" (Identifier "items") (Identifier "prevItems").
Definition resetStack : list node :=
  [ resetCall;
    stmt resetCall;
    BlockStatement [stmt resetCall];
    IfStatement resetTest (BlockStatement [stmt resetCall]) None ].

(** Render phase: [if (props.row !== prevRow) { setPrevRow(props['row']); }] *)
Definition derivedCall : node :=
  call 7 "setPrevRow"
    [MemberExpression (Identifier "props") (StringLiteral "row") true].
Definition derivedTest : node :=
  BinaryExpression "!=="
    (MemberExpression (Identifier "props") (Identifier "row") false)
    (Identifier "prevRow").
Definition derivedStack : list node :=
  [ derivedCall;
    stmt derivedCall;
    BlockStatement [stmt derivedCall];
    IfStatement derivedTest (BlockStatement [stmt derivedCall]) None ].

(** Render phase: [if (ready()) { setCount(count + 1); }] *)
Definition opaqueCall : node :=
  call 7 "setCount"
    [BinaryExpression "+" (Identifier "count") (NumericLiteral 1)].
Definition opaqueTest : node := call 6 "ready" [].
Definition opaqueStack : list node :=
  [ opaqueCall;
    stmt opaqueCall;
    BlockStatement [stmt opaqueCall];
    IfStatement opaqueTest (BlockStatement [stmt opaqueCall]) None ].

(** A configuration that lists one hook as stable and as unstable. *)
Definition bothWaysConfig : StabilityConfig :=
  mkStabilityConfig ["useStore"] ["useStore"] [] [].
Definition stableOnlyConfig : StabilityConfig :=
  mkStabilityConfig ["useStore"] [] [] [].
Definition unstableOnlyConfig : StabilityConfig :=
  mkStabilityConfig [] ["useStore"] [] [].
Definition useStoreCall : node := call 4 "useStore" [].
Definition sampleContext : option StabilityCheckContext :=
  Some (mkStabilityContext (Some "App.tsx") (Some 4)).
(** A type checker that calls every return type unstable, and one
    that calls every return type stable. *)
Definition pessimist : TypeChecker := fun _ _ _ => Some false.
Definition optimist : TypeChecker := fun _ _ _ => Some true.

(** Mutual recursion next to a long chain of helpers:
    [function A() { B(); g1(); }  function B() { A(); }
     function g1() { g2(); } ... function g<n>() { setX(1); }] *)
Definition helperName (k : nat) : string :=
  ("g" ++ NilEmpty.string_of_uint (Nat.to_uint k))%string.
Definition xState : JsMap.t string := [("x", "setX")].
Definition chainProgram (n : nat) : node :=
  OtherNode "Program"
    ([ funDecl "A" [stmt (call 1 "B" []); stmt (call 1 (helperName 1) [])];
       funDecl "B" [stmt (call 2 "A" [])] ] ++
     map (fun k => funDecl (helperName k)
                     [stmt (call k (helperName (S k)) [])])
         (seq 1 (n - 1)) ++
     [ funDecl (helperName n) [stmt (call n "setX" [NumericLiteral 1])] ]).

(** [function A() { B(); }  function B() { A(); setX(1); }] *)
Definition mutualProgram : node :=
  OtherNode "Program"
    [ funDecl "A" [stmt (call 1 "B" [])];
      funDecl "B" [stmt (call 2 "A" []);
                   stmt (call 2 "setX" [NumericLiteral 1])] ].

(** [function Panel() {
       const options = {};
       const handler = useCallback(() => {}, []);
       const [open, setOpen] = useState(false);
       const open = [];
     }] *)
Definition panelProgram : node :=
  OtherNode "Program"
    [ FunctionDeclaration (1, 6) (Some "Panel") []
        (BlockStatement
           [ constDecl 2 "options" (ObjectExpression []);
             constDecl 3 "handler"
               (call 3 "useCallback" [arrow []; ArrayExpression []]);
             VariableDeclaration
               [VariableDeclarator 4
                  (ArrayPattern [Identifier "open"; Identifier "setOpen"])
                  (Some (call 4 "useState" [BooleanLiteral false]))];
             constDecl 5 "open" (ArrayExpression []) ]) ].

(** [const doWork = () => { setCount(1); };
     useEffect(doWork);
     useEffect(() => { setCount(1); }, [count]);
     useEffect(() => { setCount(2); });] *)
Definition effectsProgram : node :=
  OtherNode "Program"
    [ constDecl 1 "doWork" (arrow [stmt (call 1 "setCount" [NumericLiteral 1])]);
      stmt (call 2 "useEffect" [Identifier "doWork"]);
      stmt (call 3 "useEffect"
              [arrow [stmt (call 3 "setCount" [NumericLiteral 1])];
               ArrayExpression [Identifier "count"]]);
      stmt (call 4 "useEffect"
              [arrow [stmt (call 4 "setCount" [NumericLiteral 2])]]) ].

Definition neverIgnored : string -> nat -> bool := fun _ _ => false.

End Samples.

(* ------------------------------------------------------------------ *)
(** ** Guard verdicts *)

(** The kinds of node that [nodesAreEquivalent] compares: identifiers,
    member expressions and the literals. *)
Definition comparableKind (n : node) : bool :=
  match n with
  | Identifier _ | MemberExpression _ _ _ | NumericLiteral _
  | StringLiteral _ | BooleanLiteral _ | NullLiteral => true
  | _ => false
  end.

(** A safe verdict of [analyzeCondition]. *)
Definition safeVerdict (v : ConditionVerdict) : Prop :=
  cv_isSafe v = true /\ cv_warning v = None /\
  (cv_type v = toggle_guard \/ cv_type v = equality_guard).

(** ** effect-analyzer.ts: what the interaction record holds *)

(** The setters a table of local functions can contribute. *)
Definition reachedThrough (localFunctionSetters : JsMap.t (list string))
  (setter : string) : Prop :=
  exists f setters,
    JsMap.get localFunctionSetters f = Some setters /\ In setter setters.

(** Every name recorded in an interaction record is a name of the
    analysis' inputs. *)
Definition namesFromInputs (stateInfo : JsMap.t string)
  (refVars : list string) (localFunctionSetters : JsMap.t (list string))
  (i : StateInteraction) : Prop :=
  (forall x, In x (reads i) -> In x (JsMap.keys stateInfo)) /\
  (forall x, In x (modifications i) \/ In x (conditionalModifications i) \/
             In x (deferredModifications i) \/
             In x (cleanupModifications i) ->
             In x (JsMap.values stateInfo) \/
             reachedThrough localFunctionSetters x) /\
  (forall x, In x (functionalUpdates i) -> In x (JsMap.values stateInfo)) /\
  (forall g, In g (guardedModifications i) ->
             In (gm_stateVariable g, gm_setter g) stateInfo) /\
  (forall m, In m (refMutations i) -> In (refName m) refVars).

(** [!guardAnalysis.isSafe] *)
Definition unsafeGuard (g : GuardedModification) : bool :=
  negb (gm_isSafe g).

(** The references the first pass records for one path: one for every
    identifier among the arguments of a call to a listed receiver. *)
Definition referencesOfCall (s : site) : list FunctionReference :=
  match s_node s with
  | CallExpression _ callee args =>
      match receivingFuncName callee with
      | Some EmptyString => []
      | Some receiver =>
          if strIn receiver EVENT_LISTENER_METHODS then
            flat_map (fun arg =>
                        match arg with
                        | Identifier x =>
                            [mkFunctionReference x
                               (if strIn receiver LISTENER_CONTEXT_METHODS
                                then event_listener else callback_arg)
                               receiver]
                        | _ => []
                        end) args
          else []
      | None => []
      end
  | _ => []
  end.

(* ------------------------------------------------------------------ *)
(** ** utils.ts: ignore comments *)

(** [s.split(sep)] for a one-character separator: the pieces between
    the separators, at least one. *)
Fixpoint splitOn (sep : ascii) (s : string) : list string :=
  match s with
  | EmptyString => [EmptyString]
  | String c rest =>
      if Ascii.eqb c sep then EmptyString :: splitOn sep rest
      else match splitOn sep rest with
           | piece :: pieces => String c piece :: pieces
           | [] => [String c EmptyString]
           end
  end.

Definition newline : ascii := ascii_of_nat 10.

(** [\s] on code units below 256: tab, line feed, vertical tab, form
    feed, carriage return, space and the no-break space. *)
Definition isWhiteSpace (c : ascii) : bool :=
  let n := nat_of_ascii c in
  (Nat.leb 9 n && Nat.leb n 13) || Nat.eqb n 32 || Nat.eqb n 160.

(** [\w]: letters, digits and the underscore. *)
Definition isWordChar (c : ascii) : bool :=
  let n := nat_of_ascii c in
  (Nat.leb 48 n && Nat.leb n 57) || (Nat.leb 65 n && Nat.leb n 90) ||
  Nat.eqb n 95 || (Nat.leb 97 n && Nat.leb n 122).

(** The rest of [s] after the prefix [p], if [s] starts with [p]. *)
Fixpoint afterPrefix (p s : string) : option string :=
  match p, s with
  | EmptyString, _ => Some s
  | String a p', String b s' =>
      if Ascii.eqb a b then afterPrefix p' s' else None
  | String _ _, EmptyString => None
  end.

(** [\s*], which is greedy. *)
Fixpoint skipWhiteSpace (s : string) : string :=
  match s with
  | String c rest => if isWhiteSpace c then skipWhiteSpace rest else s
  | EmptyString => s
  end.

(** [\b] after a word character: the end of the text or a character
    that is not a word character. *)
Definition wordEndsHere (rest : string) : bool :=
  match rest with
  | EmptyString => true
  | String c _ => negb (isWordChar c)
  end.

(** [/\/\/\s*word\b/] matched at the start of [s]. *)
Definition lineCommentAt (word s : string) : bool :=
  match afterPrefix "//" s with
  | Some r =>
      match afterPrefix word (skipWhiteSpace r) with
      | Some r' => wordEndsHere r'
      | None => false
      end
  | None => false
  end.

(** [/\/\*\s*word\s*\*\//] matched at the start of [s]. *)
Definition blockCommentAt (word s : string) : bool :=
  match afterPrefix "/*" s with
  | Some r =>
      match afterPrefix word (skipWhiteSpace r) with
      | Some r' =>
          match afterPrefix "*/" (skipWhiteSpace r') with
          | Some _ => true
          | None => false
          end
      | None => false
      end
  | None => false
  end.

(** [regex.test(s)]: a match at some position of [s]. *)
Fixpoint matchesSomewhere (matchAt : string -> bool) (s : string) : bool :=
  matchAt s ||
  match s with
  | String _ rest => matchesSomewhere matchAt rest
  | EmptyString => false
  end.

Definition hasIgnoreComment (word line : string) : bool :=
  matchesSomewhere (lineCommentAt word) line ||
  matchesSomewhere (blockCommentAt word) line.

Definition isHookIgnored (fileContent : string) (hookLine : nat) : bool :=
  let lines := splitOn newline fileContent in
  if Nat.ltb 0 hookLine && Nat.leb hookLine (length lines) &&
     hasIgnoreComment "rld-ignore" (nth (hookLine - 1) lines EmptyString)
  then true
  else if Nat.ltb 1 hookLine && Nat.leb hookLine (length lines) &&
          hasIgnoreComment "rld-ignore-next-line"
            (nth (hookLine - 2) lines EmptyString)
  then true
  else false.

(** All the characters of [s] are white space. *)
Fixpoint allWhiteSpace (s : string) : bool :=
  match s with
  | String c rest => isWhiteSpace c && allWhiteSpace rest
  | EmptyString => true
  end.

(** The first character of [s], if any, is not white space. *)
Definition startsBlack (s : string) : bool :=
  match s with
  | String c _ => negb (isWhiteSpace c)
  | EmptyString => true
  end.

(** [w] occurs in [s]. *)
Definition occursIn (w s : string) : Prop :=
  exists pre post, s = (pre ++ w ++ post)%string.

(* ------------------------------------------------------------------ *)
(** ** utils.ts: descriptions of the error codes *)

(** [descriptions] of [getDescriptionForErrorCode]. *)
Definition errorDescriptions : JsMap.t string :=
  [ ("RLD-100", "setState during render phase");
    ("RLD-101", "setState via function call during render");
    ("RLD-200", "Unconditional setState in effect dependency loop");
    ("RLD-201", "Missing dependency array with setState");
    ("RLD-202", "Unconditional setState in useLayoutEffect");
    ("RLD-300", "Cross-file infinite loop");
    ("RLD-301", "Cross-file conditional modification");
    ("RLD-400", "Unstable object in dependency array");
    ("RLD-401", "Unstable array in dependency array");
    ("RLD-402", "Unstable function in dependency array");
    ("RLD-403", "Unstable function call in dependency array");
    ("RLD-404", "Unstable Context.Provider value");
    ("RLD-405", "Unstable prop to memoized component");
    ("RLD-406", "Unstable callback in useCallback deps");
    ("RLD-407", "Unstable getSnapshot in useSyncExternalStore");
    ("RLD-408", "Unstable key prop causes remounting");
    ("RLD-409", "Index used as key");
    ("RLD-410", "Object spread guard may not prevent loop");
    ("RLD-420", "Memoized hook modifies its dependency");
    ("RLD-500", "Missing dependency array");
    ("RLD-501", "Conditional modification needs review");
    ("RLD-600", "Render-phase ref mutation with state value") ].

(** [descriptions[errorCode] || `${hookType} issue`], for the error
    codes of the analyzer (no code is the name of a property that
    objects inherit). *)
Definition getDescriptionForErrorCode (errorCode hookType : string) : string :=
  match truthyString (JsMap.get errorDescriptions errorCode) with
  | Some description => description
  | None => (hookType ++ " issue")%string
  end.

(** Every list of a table holds setter names only. *)
Definition settersOnly (setterNames : list string)
  (m : JsMap.t (list string)) : Prop :=
  forall k l x, JsMap.get m k = Some l -> In x l -> In x setterNames.

(* ------------------------------------------------------------------ *)
(** ** orchestrator.ts: state and ref variables *)

Record StateAndRefInfo : Type := mkStateAndRefInfo {
  stateVariables : JsMap.t string;      (* state var -> setter name *)
  refVariables : list string
}.

(** [elements.length >= 2 && t.isIdentifier(elements[0]) &&
     t.isIdentifier(elements[1])], with the two names. *)
Definition firstTwoIdentifiers (elements : list node)
  : option (string * string) :=
  match elements with
  | Identifier first :: Identifier second :: _ => Some (first, second)
  | _ => None
  end.

(** The names collected by the first loop of the [useContext] case: the
    value of a property when it is an identifier, else its key when
    that is one. *)
Definition contextNames (properties : list node) : list string :=
  flat_map (fun prop =>
              match prop with
              | ObjectProperty key value _ =>
                  match value with
                  | Identifier v => [v]
                  | _ => match key with
                         | Identifier k => [k]
                         | _ => []
                         end
                  end
              | _ => []
              end) properties.

Definition setStateVariable (stateVar setter : string)
  (info : StateAndRefInfo) : StateAndRefInfo :=
  mkStateAndRefInfo (JsMap.set (stateVariables info) stateVar setter)
    (refVariables info).

(** The four [if] statements of the [VariableDeclarator] visitor, in
    their order. *)
Definition collectRef (id : node) (init : option node)
  (info : StateAndRefInfo) : StateAndRefInfo :=
  match id, init with
  | Identifier name, Some (CallExpression _ (Identifier callee) _) =>
      if String.eqb callee "useRef"
      then mkStateAndRefInfo (stateVariables info)
             (setAdd (refVariables info) name)
      else info
  | _, _ => info
  end.

Definition collectStateHook (id : node) (init : option node)
  (info : StateAndRefInfo) : StateAndRefInfo :=
  match id, init with
  | ArrayPattern elements, Some call =>
      if isCallExpression call && isStateHookCall call then
        match firstTwoIdentifiers elements with
        | Some (stateVar, setter) => setStateVariable stateVar setter info
        | None => info
        end
      else info
  | _, _ => info
  end.

Definition collectCustomHook (id : node) (init : option node)
  (info : StateAndRefInfo) : StateAndRefInfo :=
  match id, init with
  | ArrayPattern elements, Some (CallExpression _ (Identifier callee) _) =>
      if startsWithUse callee && negb (String.eqb callee "useState") then
        match firstTwoIdentifiers elements with
        | Some (firstElement, secondElement) =>
            if looksLikeSetter secondElement
            then setStateVariable firstElement secondElement info
            else info
        | None => info
        end
      else info
  | _, _ => info
  end.

Definition collectContext (id : node) (init : option node)
  (info : StateAndRefInfo) : StateAndRefInfo :=
  match id, init with
  | ObjectPattern properties,
    Some (CallExpression _ (Identifier callee) _) =>
      if String.eqb callee "useContext" then
        let extractedNames := contextNames properties in
        fold_left
          (fun acc name =>
             if looksLikeSetter name &&
                strIn (stateNameOfSetter name) extractedNames
             then setStateVariable (stateNameOfSetter name) name acc
             else acc)
          extractedNames info
      else info
  | _, _ => info
  end.

Definition stateInfoVisitor (info : StateAndRefInfo) (s : site)
  : StateAndRefInfo :=
  match s_node s with
  | VariableDeclarator _ id init =>
      collectContext id init
        (collectCustomHook id init
           (collectStateHook id init (collectRef id init info)))
  | _ => info
  end.

Definition extractStateInfo (ast : node) : StateAndRefInfo :=
  fold_left stateInfoVisitor (walk ast) (mkStateAndRefInfo [] []).

(** What a declarator must look like for [extractStateInfo] to record
    the pair [(state, setter)] from it. *)
Definition declaresState (n : node) (state setter : string) : Prop :=
  exists line id init,
    n = VariableDeclarator line id (Some init) /\
    ((exists rest,
        id = ArrayPattern (Identifier state :: Identifier setter :: rest) /\
        (isStateHookCall init = true \/
         exists l callee args,
           init = CallExpression l (Identifier callee) args /\
           startsWithUse callee = true /\ callee <> "useState" /\
           looksLikeSetter setter = true)) \/
     (exists properties l args,
        id = ObjectPattern properties /\
        init = CallExpression l (Identifier "useContext") args /\
        In setter (contextNames properties) /\
        In state (contextNames properties) /\
        looksLikeSetter setter = true /\
        state = stateNameOfSetter setter)).

Definition declaresRef (n : node) (name : string) : Prop :=
  exists line l args,
    n = VariableDeclarator line (Identifier name)
          (Some (CallExpression l (Identifier "useRef") args)).

(* ------------------------------------------------------------------ *)
(** ** utils.ts: the explanation of an adjusted confidence *)

Definition confidenceName (c : ConfidenceLevel) : string :=
  match c with high => "high" | medium => "medium" | low => "low" end.

(** [`${n}`] for an integer [n]. *)
Definition numberToString (n : Z) : string :=
  NilZero.string_of_int (Z.to_int n).

Definition depthOf (o : option Z) : Z :=
  match o with Some d => d | None => 0%Z end.

Definition getConfidenceExplanation (confidence : ConfidenceLevel)
  (context : AdjustContext) : string :=
  let reasons : list string := [] in
  let reasons :=
    if truthyBool (usedTypeInference context) &&
       negb (truthyBool (isStrictMode context))
    then reasons ++
         ["type information is inferred (enable --strict for higher accuracy)"]
    else reasons in
  let reasons :=
    if deeperThanTwo (crossFileChainDepth context)
    then reasons ++
         [("involves a " ++
           numberToString (depthOf (crossFileChainDepth context)) ++
           "-level cross-file dependency chain")%string]
    else reasons in
  let reasons :=
    if truthyBool (isConditional context)
    then reasons ++ ["the setState is inside a conditional block"]
    else reasons in
  if Nat.eqb (length reasons) 0 then EmptyString
  else (" Confidence is " ++ confidenceName confidence ++ " because " ++
        String.concat ", " reasons ++ ".")%string.

(* ------------------------------------------------------------------ *)
(** ** detector: cycles among the dependencies of a hook *)

Record HookInfo : Type := mkHookInfo {
  hook_name : string;
  hook_line : nat;
  hook_dependencies : list string
}.

Fixpoint everyChar (p : ascii -> bool) (s : string) : bool :=
  match s with
  | EmptyString => true
  | String c rest => p c && everyChar p rest
  end.

Fixpoint includesChar (c : ascii) (s : string) : bool :=
  match s with
  | EmptyString => false
  | String c' rest => Ascii.eqb c' c || includesChar c rest
  end.

Definition isUpperOrUnderscore (c : ascii) : bool :=
  (Nat.leb 65 (nat_of_ascii c) && Nat.leb (nat_of_ascii c) 90) ||
  Ascii.eqb c "_".

Definition isDigit (c : ascii) : bool :=
  Nat.leb 48 (nat_of_ascii c) && Nat.leb (nat_of_ascii c) 57.

Definition commonReactHooks : list string :=
  [ "useState"; "useEffect"; "useCallback"; "useMemo"; "useRef";
    "useContext"; "useReducer"; "useLayoutEffect" ].

Definition commonFirebaseFunctions : list string :=
  [ "getDocs"; "doc"; "collection"; "query"; "orderBy"; "limit"; "where";
    "setDoc"; "updateDoc"; "deleteDoc" ].

Definition commonUtilFunctions : list string :=
  [ "console"; "setTimeout"; "clearTimeout"; "Date"; "Object"; "Array";
    "JSON"; "Math"; "Number"; "String"; "Boolean" ].

Definition isPrimitiveOrImported (varName : string) : bool :=
  if strIn varName commonReactHooks ||
     strIn varName commonFirebaseFunctions ||
     strIn varName commonUtilFunctions
  then true
  else if (* /^[A-Z_]{2,}$/ *)
          (Nat.leb 2 (String.length varName) &&
           everyChar isUpperOrUnderscore varName) ||
          (* varName.includes('.') *)
          includesChar "." varName ||
          (* /^(true|false|null|undefined)$/ *)
          strIn varName ["true"; "false"; "null"; "undefined"] ||
          (* /^\d+$/ *)
          (Nat.leb 1 (String.length varName) && everyChar isDigit varName)
  then true
  else if String.prefix "use" varName && strIn varName commonReactHooks
  then true
  else false.

(** [Set.prototype.delete] *)
Definition setDelete (s : list string) (x : string) : list string :=
  filter (fun y => negb (String.eqb y x)) s.

(** [Array.prototype.indexOf], [None] for -1. *)
Fixpoint indexOf (x : string) (l : list string) : option nat :=
  match l with
  | [] => None
  | y :: rest =>
      if String.eqb y x then Some 0
      else match indexOf x rest with
           | Some i => Some (S i)
           | None => None
           end
  end.

(** The search returns the cycle and leaves the set [visited], which it
    shares with its caller, as the second component.  [fuel] bounds the
    depth of the recursion; [None] is a search cut short by it. *)
Fixpoint findRealCircularDependency (fuel : nat) (currentVar : string)
  (variables : JsMap.t (list string)) (visited : list string)
  (path : list string) {struct fuel}
  : option (list string * list string) :=
  match fuel with
  | 0 => None
  | S fuel' =>
      if strIn currentVar visited then
        match indexOf currentVar path with
        | Some cycleStart =>
            Some (skipn cycleStart path ++ [currentVar], visited)
        | None => Some ([], visited)
        end
      else
        match JsMap.get variables currentVar with
        | None => Some ([], visited)
        | Some deps =>
            if Nat.eqb (length deps) 0 then Some ([], visited) else
            (fix each (deps : list string) (visited : list string)
               : option (list string * list string) :=
               match deps with
               | [] => Some ([], setDelete visited currentVar)
               | dep :: rest =>
                   if isPrimitiveOrImported dep then each rest visited
                   else
                     match findRealCircularDependency fuel' dep variables
                             visited (path ++ [dep]) with
                     | None => None
                     | Some (cycle, visited') =>
                         if Nat.ltb 0 (length cycle)
                         then Some (cycle, visited')
                         else each rest visited'
                     end
               end) deps (setAdd visited currentVar)
        end
  end.

(** A depth no search exceeds: every ancestor of a call is a distinct key
    of [variables]. *)
Definition searchDepth (variables : JsMap.t (list string)) : nat :=
  S (length variables).

Definition detectCyclesInHook (hook : HookInfo)
  (variables : JsMap.t (list string)) : option (list (list string)) :=
  fold_left
    (fun cycles dep =>
       match cycles with
       | None => None
       | Some cycles =>
           match findRealCircularDependency (searchDepth variables) dep
                   variables [] [dep] with
           | None => None
           | Some (cycle, _) =>
               if Nat.ltb 2 (length cycle) then Some (cycles ++ [cycle])
               else Some cycles
           end
       end)
    (hook_dependencies hook) (Some []).

Module CycleCases.
(** [a -> b -> c -> b], [d -> d], [e -> Math, e.x] *)
Definition variables : JsMap.t (list string) :=
  [ ("a", ["b"]); ("b", ["useState"; "c"]); ("c", ["MAX"; "b"]);
    ("d", ["d"]); ("e", ["Math"; "e.x"]) ].
Definition hook : HookInfo := mkHookInfo "useEffect" 7 ["a"; "d"; "e"; "b"].
End CycleCases.

(** [y] is a dependency of [x] that the search follows. *)
Definition dependsOn (variables : JsMap.t (list string)) (x y : string)
  : Prop :=
  exists deps,
    JsMap.get variables x = Some deps /\ In y deps /\
    isPrimitiveOrImported y = false.

(** Each element of the list depends on the next one. *)
Fixpoint linked (variables : JsMap.t (list string)) (l : list string)
  : Prop :=
  match l with
  | [] => True
  | x :: rest =>
      match rest with
      | [] => True
      | y :: _ => dependsOn variables x y
      end /\ linked variables rest
  end.

(** [cycle] is what a search from [dep] may return: a chain of
    dependencies from [dep] that comes back to [c], one of its own
    elements, written as the loop from [c] to [c] followed by [c] once
    more. *)
Definition cycleFrom (variables : JsMap.t (list string)) (dep : string)
  (cycle : list string) : Prop :=
  exists ext pre c mid,
    dep :: ext = pre ++ c :: mid ++ [c] /\
    linked variables (dep :: ext) /\
    NoDup (pre ++ c :: mid) /\
    cycle = c :: mid ++ [c; c].

(** A chain of dependencies from [dep] whose last element occurs
    earlier in it. *)
Definition revisits (variables : JsMap.t (list string)) (dep : string)
  : Prop :=
  exists ext,
    linked variables (dep :: ext) /\
    In (last (dep :: ext) dep) (removelast (dep :: ext)).

(** What holds at every call of the search: [path] is [p] followed by
    the current variable, and [visited] holds exactly the elements of
    [p], which are distinct keys of [variables]. *)
Definition searching (variables : JsMap.t (list string))
  (p visited : list string) (cur : string) : Prop :=
  NoDup p /\ (forall x, In x visited <-> In x p) /\ NoDup visited /\
  incl visited (JsMap.keys variables) /\ linked variables (p ++ [cur]).

(** The result of a search that was called with the path [p ++ [cur]]. *)
Definition foundFrom (variables : JsMap.t (list string))
  (p : list string) (cur : string) (cycle : list string) : Prop :=
  exists ext pre c mid,
    p ++ cur :: ext = pre ++ c :: mid ++ [c] /\
    linked variables (p ++ cur :: ext) /\
    NoDup (pre ++ c :: mid) /\
    cycle = c :: mid ++ [c; c].

(* ------------------------------------------------------------------ *)
(** ** Further sample programs *)

Module GuardCases.
Import Samples.
(** [if (user.id !== 5) { setUser({ ...user, id: 5 }); }] *)
Definition riskTest : node :=
  BinaryExpression "!=="
    (MemberExpression (Identifier "user") (Identifier "id") false)
    (NumericLiteral 5).
Definition riskCall : node :=
  call 3 "setUser"
    [ObjectExpression
       [SpreadElement (Identifier "user");
        ObjectProperty (Identifier "id") (NumericLiteral 5) false]].
Definition riskIf : node :=
  IfStatement riskTest (BlockStatement [stmt riskCall]) None.
Definition riskBody : node := BlockStatement [riskIf].
Definition userState : JsMap.t string := [("user", "setUser")].
(** The site of the call [setUser(...)] in [riskBody]. *)
Definition riskSite : site := nth 8 (walk riskBody) noSite.
Definition riskGuard : GuardedModification :=
  mkGuarded "setUser" "user" object_spread_risk false
    (Some (spreadWarning "user")).
End GuardCases.

Module Programs.
Import Samples.



(** An effect body in which a helper returns a closure that is run at
    once:
    [const stops = items.map((item) => {
       return () => { setCount(0); };
     });
     stops.forEach((stop) => stop());] *)
Definition helperClosureBody : node :=
  BlockStatement
    [ constDecl 2 "stops"
        (CallExpression 2
           (MemberExpression (Identifier "items") (Identifier "map") false)
           [ArrowFunctionExpression (2, 4) [Identifier "item"]
              (BlockStatement
                 [ReturnStatement
                    (Some (arrow [stmt (call 3 "setCount"
                                          [NumericLiteral 0])]))])]);
      stmt (CallExpression 5
              (MemberExpression (Identifier "stops") (Identifier "forEach")
                 false)
              [ArrowFunctionExpression (5, 5) [Identifier "stop"]
                 (BlockStatement [stmt (call 5 "stop" [])])]) ].
(** The same body as the callback of an effect in a component:
    [function Counter() {
       const [count, setCount] = useState(0);
       useEffect(() => { ... }, [count]);
     }] *)
Definition helperClosureFile : node :=
  OtherNode "File"
    [OtherNode "Program"
       [FunctionDeclaration (1, 8) (Some "Counter") []
          (BlockStatement
             [ VariableDeclaration
                 [VariableDeclarator 1
                    (ArrayPattern [Identifier "count"; Identifier "setCount"])
                    (Some (call 1 "useState" [NumericLiteral 0]))];
               stmt (CallExpression 2 (Identifier "useEffect")
                       [ArrowFunctionExpression (2, 6) [] helperClosureBody;
                        ArrayExpression [Identifier "count"]]) ])]].
Definition helperClosureSite : site :=
  nth 15 (walk helperClosureFile) noSite.
End Programs.

(* ================================================================== *)
(** * Part II.  Properties *)
(* ================================================================== *)

(** ** Containers *)

Lemma strIn_In (x : string) (l : list string) : strIn x l = true <-> In x l.
Proof.
  unfold strIn. rewrite existsb_exists. split.
  - intros [y [Hy He]]. apply String.eqb_eq in He. now subst.
  - intros H. exists x. split; [assumption | apply String.eqb_refl].
Qed.

Lemma strIn_false (x : string) (l : list string) :
  strIn x l = false <-> ~ In x l.
Proof.
  rewrite <- strIn_In. destruct (strIn x l); split; congruence.
Qed.

Lemma setAdd_In (s : list string) (x y : string) :
  In y (setAdd s x) <-> In y s \/ y = x.
Proof.
  unfold setAdd. destruct (strIn x s) eqn:E.
  - apply strIn_In in E. split; [tauto | intros [H | ->]; assumption].
  - rewrite in_app_iff. simpl. intuition congruence.
Qed.

Lemma setAdd_NoDup (s : list string) (x : string) :
  NoDup s -> NoDup (setAdd s x).
Proof.
  intros H. unfold setAdd. destruct (strIn x s) eqn:E; [assumption |].
  apply strIn_false in E.
  apply NoDup_app; [assumption | repeat constructor; intros [] | ].
  intros a Ha [<- | []]. exact (E Ha).
Qed.

Lemma setAdd_extends (s : list string) (x : string) :
  exists extra, setAdd s x = s ++ extra.
Proof.
  unfold setAdd. destruct (strIn x s).
  - exists []. now rewrite app_nil_r.
  - now exists [x].
Qed.

Lemma fold_setAdd_In (xs base : list string) (y : string) :
  In y (fold_left setAdd xs base) <-> In y base \/ In y xs.
Proof.
  revert base. induction xs as [| x xs IH]; intros base; simpl.
  - tauto.
  - rewrite IH, setAdd_In. intuition congruence.
Qed.

Lemma fold_setAdd_NoDup (xs base : list string) :
  NoDup base -> NoDup (fold_left setAdd xs base).
Proof.
  revert base. induction xs as [| x xs IH]; intros base H; simpl.
  - assumption.
  - apply IH, setAdd_NoDup, H.
Qed.

Lemma fold_setAdd_extends (xs base : list string) :
  exists extra, fold_left setAdd xs base = base ++ extra.
Proof.
  revert base. induction xs as [| x xs IH]; intros base; simpl.
  - exists []. now rewrite app_nil_r.
  - destruct (setAdd_extends base x) as [e1 ->].
    destruct (IH (base ++ e1)) as [e2 ->].
    exists (e1 ++ e2). now rewrite app_assoc.
Qed.

Lemma newSet_In (xs : list string) (y : string) :
  In y (newSet xs) <-> In y xs.
Proof. unfold newSet. rewrite fold_setAdd_In. simpl. tauto. Qed.

Lemma newSet_NoDup (xs : list string) : NoDup (newSet xs).
Proof. apply fold_setAdd_NoDup. constructor. Qed.

Lemma JsMap_get_set {V} (m : JsMap.t V) (k k' : string) (v : V) :
  JsMap.get (JsMap.set m k v) k' =
  if String.eqb k' k then Some v else JsMap.get m k'.
Proof.
  induction m as [| [k0 v0] m IH]; simpl.
  - reflexivity.
  - destruct (String.eqb k k0) eqn:E; simpl.
    + apply String.eqb_eq in E. subst k0.
      destruct (String.eqb k' k); reflexivity.
    + destruct (String.eqb k' k0) eqn:E'.
      * apply String.eqb_eq in E'. subst k0.
        rewrite String.eqb_sym, E. reflexivity.
      * exact IH.
Qed.

Lemma JsMap_get_In {V} (m : JsMap.t V) (k : string) (v : V) :
  JsMap.get m k = Some v -> In (k, v) m.
Proof.
  induction m as [| [k0 v0] m IH]; simpl; [discriminate |].
  destruct (String.eqb k k0) eqn:E.
  - apply String.eqb_eq in E. intros [= ->]. left. now subst.
  - intros H. right. now apply IH.
Qed.

Lemma JsMap_set_keys {V} (m : JsMap.t V) (k : string) (v : V) :
  NoDup (JsMap.keys m) -> NoDup (JsMap.keys (JsMap.set m k v)).
Proof.
  assert (Hin : forall (m : JsMap.t V) x,
             In x (JsMap.keys (JsMap.set m k v)) -> x = k \/ In x (JsMap.keys m)).
  { clear m. induction m as [| [k0 v0] m IH]; simpl; intros x.
    - intros [<- | []]. now left.
    - destruct (String.eqb k k0); simpl.
      + tauto.
      + intros [<- | H]; [tauto |]. destruct (IH _ H); tauto. }
  induction m as [| [k0 v0] m IH]; simpl; intros H.
  - repeat constructor. intros [].
  - inversion H as [| ? ? Hk0 Hm]; subst.
    destruct (String.eqb k k0) eqn:E; simpl.
    + constructor; assumption.
    + constructor; [| now apply IH].
      intros Hc. apply Hin in Hc. destruct Hc as [-> | Hc]; [| tauto].
      now rewrite String.eqb_refl in E.
Qed.

Lemma firstSome_Some {A B} (f : A -> option B) (l : list A) (y : B) :
  firstSome f l = Some y -> exists x, In x l /\ f x = Some y.
Proof.
  induction l as [| x l IH]; simpl; [discriminate |].
  unfold orElse. destruct (f x) eqn:E.
  - intros [= ->]. exists x. tauto.
  - intros H. destruct (IH H) as [x' [Hin Hx]]. exists x'. tauto.
Qed.

Lemma firstSome_None {A B} (f : A -> option B) (l : list A) :
  (forall x, In x l -> f x = None) -> firstSome f l = None.
Proof.
  induction l as [| x l IH]; simpl; intros H; [reflexivity |].
  rewrite (H x (or_introl eq_refl)). simpl. apply IH.
  intros y Hy. apply H. now right.
Qed.

(** ** Confidence adjustment *)

(** C8.  Whatever the base confidence and whatever the context (type
    inference with or without strict mode, any cross-file chain depth,
    conditional or not), [_adjustConfidence] returns a confidence that
    is at most the base confidence in the order low < medium < high. *)
Theorem adjustConfidence_never_increases :
  forall (baseConfidence : ConfidenceLevel) (context : AdjustContext),
    conf_le (_adjustConfidence baseConfidence context) baseConfidence.
Proof.
  intros base [inference depth conditional strict].
  unfold _adjustConfidence, conf_le. simpl.
  destruct base;
    destruct (truthyBool inference), (truthyBool strict),
             (deeperThanTwo depth), (truthyBool conditional);
    simpl; lia.
Qed.

(** ** Guard analysis *)

Lemma analyzeCondition_unrecognized (stateVar : string) (setterCall : node)
  (c ifs : node) (sn : option string) :
  effectRecognizedShape stateVar c = false ->
  analyzeCondition c stateVar setterCall ifs sn = None.
Proof.
  induction c; intros H; cbn in H |- *;
    unfold toggleTruthyPattern, equalityPattern; cbn;
    try reflexivity.
  - (* Identifier *) now rewrite H.
  - (* UnaryExpression *) now rewrite H.
  - (* BinaryExpression *)
    destruct (isNotEqualOperator operator); cbn in H |- *; [| reflexivity].
    apply orb_false_iff in H. destruct H as [H H4].
    apply orb_false_iff in H. destruct H as [H H3].
    apply orb_false_iff in H. destruct H as [H1 H2].
    now rewrite H1, H2, H3, H4.
  - (* LogicalExpression *)
    destruct (String.eqb operator "&&"); cbn in H |- *; [| reflexivity].
    apply orb_false_iff in H. destruct H as [H1 H2].
    now rewrite (IHc1 H1), (IHc2 H2).
Qed.

Lemma recognized_of_verdict (stateVar : string) (setterCall c ifs : node)
  (sn : option string) (v : ConditionVerdict) :
  analyzeCondition c stateVar setterCall ifs sn = Some v ->
  effectRecognizedShape stateVar c = true.
Proof.
  intros H. destruct (effectRecognizedShape stateVar c) eqn:E; [reflexivity |].
  rewrite (analyzeCondition_unrecognized _ _ _ _ _ E) in H.
  discriminate.
Qed.

(** Every verdict of the render-phase condition analysis is a safe
    one. *)
Lemma render_condition_safe (stateVar : string) (setterCall c : node)
  (r : RenderPhaseGuardResult) :
  analyzeRenderGuardCondition c stateVar setterCall = Some r ->
  rg_isSafe r = true.
Proof.
  revert r. induction c; intros r; cbn;
    unfold inequalityPattern, renderTogglePattern; cbn;
    try discriminate.
  - destruct (_ && _); [intros [= <-]; reflexivity | discriminate].
  - destruct (_ && _); [| discriminate].
    destruct (hd_error _); [| discriminate].
    destruct (negb _); [intros [= <-]; reflexivity | discriminate].
  - destruct (isNotEqualOperator operator); cbn; [| discriminate].
    destruct (derivedStateMatch _ _ _ _); [intros [= <-]; reflexivity |].
    destruct (relatedResetMatch _ _ _); [intros [= <-]; reflexivity |].
    discriminate.
  - destruct (String.eqb operator "&&"); [| discriminate].
    destruct (renderIsSafe (analyzeRenderGuardCondition c1 _ _)) eqn:E1.
    + intros H. now apply IHc1.
    + destruct (renderIsSafe (analyzeRenderGuardCondition c2 _ _)) eqn:E2.
      * intros H. now apply IHc2.
      * discriminate.
Qed.

Lemma renderPhaseGuard_cases (setterCall : node) (stack : list node)
  (sn stateVar : string) (r : RenderPhaseGuardResult) :
  analyzeRenderPhaseGuard setterCall stack sn stateVar = Some r ->
  (exists a c, In a (tl stack) /\ ifTest a = Some c /\
               analyzeRenderGuardCondition c stateVar setterCall = Some r) \/
  r = mkRenderResult false render_unknown None.
Proof.
  unfold analyzeRenderPhaseGuard.
  destruct (firstSome _ _) eqn:E.
  - intros [= <-]. left.
    apply firstSome_Some in E. destruct E as [a [Hin Ha]].
    unfold renderGuardAt in Ha. destruct (ifTest a) as [c |] eqn:Et;
      [| discriminate].
    now exists a, c.
  - destruct (existsb _ _); [| discriminate].
    intros [= <-]. now right.
Qed.

Lemma specRecognizedShape_effect (stateVar : string) (c : node) :
  specRecognizedShape stateVar c = effectRecognizedShape stateVar c.
Proof.
  induction c; cbn; reflexivity || (now rewrite IHc1, IHc2).
Qed.

(** Outside the list of the specification and the reset of related
    state, the render variant gives no verdict. *)
Lemma analyzeRenderGuardCondition_unlisted (stateVar : string)
  (setterCall c : node) :
  specRecognizedShape stateVar c = false ->
  relatedResetShape (hd_error (callArguments setterCall)) c = false ->
  analyzeRenderGuardCondition c stateVar setterCall = None.
Proof.
  induction c; intros H R; cbn in H, R |- *;
    unfold inequalityPattern, renderTogglePattern, derivedStateMatch; cbn;
    try reflexivity.
  - (* Identifier *) now rewrite H.
  - (* UnaryExpression *) now rewrite H.
  - (* BinaryExpression *)
    destruct (isNotEqualOperator operator); cbn in H, R |- *; [| reflexivity].
    apply orb_false_iff in H. destruct H as [H H4].
    apply orb_false_iff in H. destruct H as [H H3].
    apply orb_false_iff in H. destruct H as [H1 H2].
    now rewrite H1, H2, R.
  - (* LogicalExpression *)
    destruct (String.eqb operator "&&"); cbn in H, R |- *; [| reflexivity].
    apply orb_false_iff in H. destruct H as [H1 H2].
    apply orb_false_iff in R. destruct R as [R1 R2].
    now rewrite (IHc1 H1 R1), (IHc2 H2 R2).
Qed.

Lemma listed_of_render_verdict (stateVar : string) (setterCall c : node)
  (r : RenderPhaseGuardResult) :
  analyzeRenderGuardCondition c stateVar setterCall = Some r ->
  specRecognizedShape stateVar c = true \/
  relatedResetShape (hd_error (callArguments setterCall)) c = true.
Proof.
  intros H.
  destruct (specRecognizedShape stateVar c) eqn:E; [now left |].
  destruct (relatedResetShape (hd_error (callArguments setterCall)) c) eqn:R;
    [now right |].
  rewrite (analyzeRenderGuardCondition_unlisted _ _ _ E R) in H.
  discriminate.
Qed.

Lemma renderPhaseGuard_unknown (stateVar : string) (setterCall : node)
  (stack : list node) (sn : string) :
  existsb isIfStatement (tl stack) = true ->
  (forall a c, In a (tl stack) -> ifTest a = Some c ->
     analyzeRenderGuardCondition c stateVar setterCall = None) ->
  analyzeRenderPhaseGuard setterCall stack sn stateVar =
  Some (mkRenderResult false render_unknown None).
Proof.
  intros Hif Hnone. unfold analyzeRenderPhaseGuard.
  rewrite firstSome_None.
  - now rewrite Hif.
  - intros a Ha. unfold renderGuardAt.
    destruct (ifTest a) as [c |] eqn:Et; [| reflexivity].
    now apply (Hnone a c).
Qed.

(** C2, as the code has it.  Guard conservatism holds of the list of
    recognized shapes of the specification once the reset of related
    state is added to it for the render variant.  For a state variable
    and a setter call: (1) for a condition whose shape is not in the
    list, the effect variant gives no verdict, hence no safe one; (2)
    for a condition whose shape is neither in the list nor the reset of
    related state, the render variant gives no verdict; (3) a render
    call enclosed by at least one [if] is classified
    [{ isSafe: false, guardType: 'unknown' }], neither [null] nor safe,
    when no enclosing condition matches a pattern, and so (4) when every
    enclosing condition has a shape that is neither in the list nor the
    reset of related state; (5) a safe render classification comes with
    an enclosing [if] whose condition is in the list or is the reset of
    related state; (6) a safe effect classification comes with an
    enclosing [if] whose condition is in the list, or is the
    early-return pattern of an enclosing block. *)
Theorem guard_conservatism :
  forall (stateVar : string) (setterCall : nref),
    let setterArg := hd_error (callArguments (rnode setterCall)) in
    (forall c ifs sn,
        specRecognizedShape stateVar c = false ->
        analyzeCondition c stateVar (rnode setterCall) ifs sn = None) /\
    (forall c,
        specRecognizedShape stateVar c = false ->
        relatedResetShape setterArg c = false ->
        analyzeRenderGuardCondition c stateVar (rnode setterCall) = None) /\
    (forall stack sn,
        existsb isIfStatement (tl stack) = true ->
        (forall a c, In a (tl stack) -> ifTest a = Some c ->
           analyzeRenderGuardCondition c stateVar (rnode setterCall) = None) ->
        analyzeRenderPhaseGuard (rnode setterCall) stack sn stateVar =
        Some (mkRenderResult false render_unknown None)) /\
    (forall stack sn,
        existsb isIfStatement (tl stack) = true ->
        (forall a c, In a (tl stack) -> ifTest a = Some c ->
           specRecognizedShape stateVar c = false /\
           relatedResetShape setterArg c = false) ->
        analyzeRenderPhaseGuard (rnode setterCall) stack sn stateVar =
        Some (mkRenderResult false render_unknown None)) /\
    (forall stack sn r,
        analyzeRenderPhaseGuard (rnode setterCall) stack sn stateVar = Some r ->
        rg_isSafe r = true ->
        exists a c, In a (tl stack) /\ ifTest a = Some c /\
                    (specRecognizedShape stateVar c = true \/
                     relatedResetShape setterArg c = true)) /\
    (forall ancestorStack setterName allStateVars g,
        analyzeConditionalGuard setterCall ancestorStack setterName
          (Some stateVar) allStateVars = Some g ->
        gm_isSafe g = true ->
        (exists a c, In a ancestorStack /\ ifTest (rnode a) = Some c /\
                     specRecognizedShape stateVar c = true) \/
        (gm_guardType g = early_return /\
         exists a, In a ancestorStack /\
                   checkEarlyReturnPattern a setterCall stateVar = true)).
Proof.
  intros stateVar setterCall setterArg.
  split; [|split; [|split; [|split; [|split]]]].
  - intros c ifs sn H. apply analyzeCondition_unrecognized.
    now rewrite <- specRecognizedShape_effect.
  - intros c H R. now apply analyzeRenderGuardCondition_unlisted.
  - intros stack sn Hif Hnone. now apply renderPhaseGuard_unknown.
  - intros stack sn Hif Hshape.
    apply renderPhaseGuard_unknown; [exact Hif |].
    intros a c Hin Ht. destruct (Hshape a c Hin Ht) as [H R].
    now apply analyzeRenderGuardCondition_unlisted.
  - intros stack sn r H Hsafe.
    destruct (renderPhaseGuard_cases _ _ _ _ _ H) as [[a [c [Hin [Ht Hc]]]] | ->].
    + exists a, c. repeat split; try assumption.
      now apply (listed_of_render_verdict _ _ _ _ Hc).
    + discriminate.
  - intros stack setterName allVars g H Hsafe.
    unfold analyzeConditionalGuard in H.
    destruct (truthyString (Some stateVar)) as [sv |] eqn:Esv; [| discriminate].
    assert (sv = stateVar) as ->.
    { cbn in Esv. destruct stateVar; [discriminate | now injection Esv]. }
    apply firstSome_Some in H. destruct H as [a [Hin Ha]].
    apply in_rev in Hin.
    unfold guardAtAncestor, orElse in Ha.
    destruct (rnode a) eqn:Ea; try discriminate.
    + (* IfStatement *)
      destruct (analyzeCondition _ _ _ _ _) as [v |] eqn:Ev; [| discriminate].
      left.
      match type of Ea with
      | rnode a = IfStatement ?t _ _ => exists a, t
      end.
      rewrite Ea. repeat split; try assumption.
      rewrite specRecognizedShape_effect.
      now apply (recognized_of_verdict _ _ _ _ _ _ Ev).
    + (* BlockStatement *)
      destruct (checkEarlyReturnPattern a setterCall stateVar) eqn:Ec;
        [| discriminate].
      injection Ha as <-. right. split; [reflexivity |].
      now exists a.
Qed.

Lemma guard_conservatism_witness :
  analyzeRenderPhaseGuard Samples.opaqueCall Samples.opaqueStack
    "setCount" "count" =
  Some (mkRenderResult false render_unknown None) /\
  analyzeCondition Samples.opaqueTest "count" Samples.opaqueCall
    Samples.opaqueTest None = None /\
  analyzeRenderGuardCondition Samples.opaqueTest "count" Samples.opaqueCall
  = None.
Proof.
  destruct (guard_conservatism "count" (mkRef [] Samples.opaqueCall))
    as [H1 [H2 [_ [H4 _]]]].
  split; [|split].
  - apply (H4 Samples.opaqueStack "setCount"); [reflexivity |].
    intros a c Hin Ht.
    simpl in Hin. destruct Hin as [<- | [<- | [<- | []]]];
      simpl in Ht; try discriminate.
    injection Ht as <-. split; reflexivity.
  - apply H1. reflexivity.
  - apply H2; reflexivity.
Defined.

(** C2, counterexample to the statement of the specification.  In a
    component whose state is [selection], the condition of
    [if (items !== prevItems) { setSelection(null); }] has none of the
    shapes of the list of section 4.2: it is a comparison of two
    identifiers neither of which is the state variable.  The render
    variant returns [isSafe = true] for it all the same, both for the
    condition and for the call with its ancestors. *)
Lemma unlisted_comparison_is_approved :
  specRecognizedShape "selection" Samples.resetTest = false /\
  (exists r,
      analyzeRenderGuardCondition Samples.resetTest "selection"
        Samples.resetCall = Some r /\ rg_isSafe r = true) /\
  (exists r,
      analyzeRenderPhaseGuard Samples.resetCall Samples.resetStack
        "setSelection" "selection" = Some r /\ rg_isSafe r = true).
Proof.
  split; [reflexivity |].
  split; eexists; (split; [vm_compute; reflexivity | reflexivity]).
Qed.

(** *** The derived-state classification *)

Lemma derived_condition_shape (stateVar : string) (setterCall c : node)
  (res : RenderPhaseGuardResult) :
  analyzeRenderGuardCondition c stateVar setterCall = Some res ->
  rg_guardType res = derived_state ->
  exists op l r,
    conjunctOf (BinaryExpression op l r) c /\
    isNotEqualOperator op = true /\
    (derivedStateMatch l r stateVar (hd_error (callArguments setterCall)) = true
     \/ relatedResetMatch l r (hd_error (callArguments setterCall)) = true).
Proof.
  revert res. induction c; intros res; cbn;
    unfold inequalityPattern, renderTogglePattern; cbn;
    try discriminate.
  - (* Identifier *)
    destruct (_ && _); [| discriminate]. intros [= <-]. discriminate.
  - (* UnaryExpression *)
    destruct (_ && _); [| discriminate].
    destruct (hd_error _); [| discriminate].
    destruct (negb _); [| discriminate]. intros [= <-]. discriminate.
  - (* BinaryExpression *)
    destruct (isNotEqualOperator operator) eqn:Eop; cbn; [| discriminate].
    destruct (derivedStateMatch _ _ _ _) eqn:Ed.
    + intros _ _. exists operator, c1, c2.
      split; [constructor | split; [assumption | now left]].
    + destruct (relatedResetMatch _ _ _) eqn:Er; [| discriminate].
      intros _ _. exists operator, c1, c2.
      split; [constructor | split; [assumption | now right]].
  - (* LogicalExpression *)
    destruct (String.eqb operator "&&") eqn:Eop; [| discriminate].
    apply String.eqb_eq in Eop. subst operator.
    destruct (renderIsSafe (analyzeRenderGuardCondition c1 _ _)).
    + intros H Hd. destruct (IHc1 res H Hd) as [op [l [r [Hc Hrest]]]].
      exists op, l, r. split; [now apply conj_left | assumption].
    + destruct (renderIsSafe (analyzeRenderGuardCondition c2 _ _));
        [| discriminate].
      intros H Hd. destruct (IHc2 res H Hd) as [op [l [r [Hc Hrest]]]].
      exists op, l, r. split; [now apply conj_right | assumption].
Qed.

Lemma derivedStateMatch_spec (l r : node) (stateVar : string)
  (setterArg : option node) :
  derivedStateMatch l r stateVar setterArg = true ->
  exists arg, setterArg = Some arg /\
    ((isIdentifierNamed stateVar l = true /\ nodesAreEquivalent arg r = true)
     \/ (isIdentifierNamed stateVar r = true /\
         nodesAreEquivalent arg l = true)).
Proof.
  unfold derivedStateMatch.
  destruct (isIdentifierNamed stateVar l) eqn:El; cbn.
  - destruct setterArg as [arg |]; [| discriminate].
    intros H. exists arg. split; [reflexivity | now left].
  - destruct (isIdentifierNamed stateVar r) eqn:Er; [| discriminate].
    destruct setterArg as [arg |]; [| discriminate].
    intros H. exists arg. split; [reflexivity | now right].
Qed.

(** C3, as the code has it.  When the render-phase variant classifies a
    setter call as ['derived-state'], the classification is a safe one
    and some enclosing [if] (at any level of the ancestor stack) has a
    condition that is, or has as an operand of [&&], a [!==]/[!=]
    comparison for which one of two things holds: one side is the state
    variable and the setter's first argument is structurally equivalent
    to the other side; or both sides are identifiers or member
    expressions and the setter's first argument is a reset value
    ([null], [undefined], [false], [[]], [{}], [0] or the empty string).
    Structural equivalence identifies [o.p] with [o['p']]. *)
Theorem derived_state_only_when :
  forall (setterCall : node) (ancestorStack : list node)
         (setterName stateVar : string) (res : RenderPhaseGuardResult),
    analyzeRenderPhaseGuard setterCall ancestorStack setterName stateVar
      = Some res ->
    rg_guardType res = derived_state ->
    rg_isSafe res = true /\
    (exists a c op l r,
        In a (tl ancestorStack) /\ ifTest a = Some c /\
        conjunctOf (BinaryExpression op l r) c /\
        isNotEqualOperator op = true /\
        ((exists arg,
             hd_error (callArguments setterCall) = Some arg /\
             ((isIdentifierNamed stateVar l = true /\
               nodesAreEquivalent arg r = true) \/
              (isIdentifierNamed stateVar r = true /\
               nodesAreEquivalent arg l = true))) \/
         (isIdentifierOrMember l = true /\ isIdentifierOrMember r = true /\
          isResetValue (hd_error (callArguments setterCall)) = true))) /\
    (forall o o' p,
        nodesAreEquivalent (MemberExpression o (Identifier p) false)
                           (MemberExpression o' (StringLiteral p) true)
        = nodesAreEquivalent o o' /\
        nodesAreEquivalent (MemberExpression o (StringLiteral p) true)
                           (MemberExpression o' (Identifier p) false)
        = nodesAreEquivalent o o').
Proof.
  intros call stack sn stateVar res H Hd.
  destruct (renderPhaseGuard_cases _ _ _ _ _ H)
    as [[a [c [Hin [Ht Hc]]]] | ->]; [| discriminate].
  split; [now apply (render_condition_safe _ _ _ _ Hc) |].
  split.
  - destruct (derived_condition_shape _ _ _ _ Hc Hd)
      as [op [l [r [Hconj [Hop Hm]]]]].
    exists a, c, op, l, r. repeat split; try assumption.
    destruct Hm as [Hm | Hm].
    + left. now apply derivedStateMatch_spec.
    + right. unfold relatedResetMatch in Hm.
      apply andb_true_iff in Hm. destruct Hm as [Hm H3].
      apply andb_true_iff in Hm. destruct Hm as [H1 H2]. tauto.
  - intros o o' p. cbn. rewrite String.eqb_refl.
    split; destruct (nodesAreEquivalent o o'); reflexivity.
Qed.

Lemma derived_state_only_when_witness :
  rg_isSafe (mkRenderResult true derived_state None) = true /\
  exists a c op l r,
    In a (tl Samples.derivedStack) /\ ifTest a = Some c /\
    conjunctOf (BinaryExpression op l r) c /\
    isNotEqualOperator op = true /\
    ((exists arg,
         hd_error (callArguments Samples.derivedCall) = Some arg /\
         ((isIdentifierNamed "prevRow" l = true /\
           nodesAreEquivalent arg r = true) \/
          (isIdentifierNamed "prevRow" r = true /\
           nodesAreEquivalent arg l = true))) \/
     (isIdentifierOrMember l = true /\ isIdentifierOrMember r = true /\
      isResetValue (hd_error (callArguments Samples.derivedCall)) = true)).
Proof.
  destruct (derived_state_only_when Samples.derivedCall Samples.derivedStack
              "setPrevRow" "prevRow" (mkRenderResult true derived_state None)
              eq_refl eq_refl) as [H1 [H2 _]].
  split; assumption.
Defined.

(** C3, counterexample to the statement of the specification.  In a
    component whose
    state is [selection], the render-phase call of
    [if (items !== prevItems) { setSelection(null); }] is classified
    safe ['derived-state'], although no enclosing condition contains a
    comparison in which the state variable takes part. *)
Lemma derived_state_without_state_comparison :
  analyzeRenderPhaseGuard Samples.resetCall Samples.resetStack
    "setSelection" "selection" =
  Some (mkRenderResult true derived_state None) /\
  ~ (exists a c op l r,
        In a (tl Samples.resetStack) /\ ifTest a = Some c /\
        conjunctOf (BinaryExpression op l r) c /\
        (isIdentifierNamed "selection" l = true \/
         isIdentifierNamed "selection" r = true)).
Proof.
  split; [reflexivity |].
  intros [a [c [op [l [r [Hin [Ht [Hc Hs]]]]]]]].
  simpl in Hin. destruct Hin as [<- | [<- | [<- | []]]];
    simpl in Ht; try discriminate.
  injection Ht as <-. unfold Samples.resetTest in Hc.
  inversion Hc; subst. destruct Hs as [Hs | Hs]; discriminate.
Qed.

(** ** State interactions of a hook body *)

Lemma siAppend_empty (i : StateInteraction) : siAppend i noInteraction = i.
Proof.
  destruct i. unfold siAppend, noInteraction, emptyInteraction. cbn.
  now rewrite !app_nil_r.
Qed.

Lemma siAppend_assoc (a b c : StateInteraction) :
  siAppend (siAppend a b) c = siAppend a (siAppend b c).
Proof. unfold siAppend. cbn. now rewrite !app_assoc. Qed.

Lemma appending_id : appending (fun i => i).
Proof. intros i. now rewrite siAppend_empty. Qed.

Lemma appending_compose (g h : StateInteraction -> StateInteraction) :
  appending g -> appending h -> appending (fun i => g (h i)).
Proof.
  intros Hg Hh i.
  rewrite (Hg (h i)), (Hh i), (Hg (h noInteraction)).
  apply siAppend_assoc.
Qed.

Lemma appending_if (b : bool) (g h : StateInteraction -> StateInteraction) :
  appending g -> appending h -> appending (fun i => if b then g i else h i).
Proof. intros Hg Hh. destruct b; assumption. Qed.

Lemma appending_fold {A} (step : A -> StateInteraction -> StateInteraction)
  (l : list A) :
  (forall x, appending (step x)) ->
  appending (fun i => fold_left (fun acc x => step x acc) l i).
Proof.
  intros Hstep. induction l as [| x l IH]; cbn.
  - apply appending_id.
  - exact (appending_compose _ _ IH (Hstep x)).
Qed.

Ltac split_match :=
  match goal with
  | |- context [match ?x with _ => _ end] => destruct x
  end.

Ltac case_if :=
  match goal with
  | |- context [if ?b then _ else _] => destruct b
  end.

Ltac case_if_eqn E :=
  match goal with
  | |- context [if ?b then _ else _] => destruct b eqn:E
  end.

Ltac push_appends :=
  intros i; destruct i; unfold siAppend; cbn; now rewrite ?app_nil_r.

Lemma appending_read x : appending (siPushRead x).
Proof. push_appends. Qed.
Lemma appending_modification x : appending (siPushModification x).
Proof. push_appends. Qed.
Lemma appending_conditional x : appending (siPushConditional x).
Proof. push_appends. Qed.
Lemma appending_functional x : appending (siPushFunctionalUpdate x).
Proof. push_appends. Qed.
Lemma appending_deferred x : appending (siPushDeferred x).
Proof. push_appends. Qed.
Lemma appending_guarded g : appending (siPushGuarded g).
Proof. push_appends. Qed.
Lemma appending_refMutation m : appending (siPushRefMutation m).
Proof. push_appends. Qed.
Lemma appending_cleanup x : appending (siPushCleanup x).
Proof. push_appends. Qed.

Section VisitorFacts.
Variable stateInfo : JsMap.t string.
Variable refVars : list string.
Variable localFunctionSetters : JsMap.t (list string).
Variable asyncNodes cleanupNodes : list nref.

Lemma appending_guardAnalysis (s : site) (setter : string) :
  appending (recordGuardAnalysis stateInfo s setter).
Proof.
  unfold recordGuardAnalysis.
  destruct (analyzeConditionalGuard _ _ _ _ _) as [g |].
  - destruct (negb (gm_isSafe g)).
    + exact (appending_compose _ _ (appending_conditional setter)
               (appending_guarded g)).
    + apply appending_guarded.
  - apply appending_modification.
Qed.

Lemma appending_setterCall (s : site) (calleeName : string)
  (args : list node) :
  appending (recordSetterCall stateInfo asyncNodes cleanupNodes s
               calleeName args).
Proof.
  unfold recordSetterCall.
  assert (H : appending (fun i =>
            if isInsideAsyncCallback asyncNodes s
            then siPushDeferred calleeName i
            else if isInsideCleanupFunction cleanupNodes s
                 then siPushCleanup calleeName i
                 else recordGuardAnalysis stateInfo s calleeName i)).
  { apply appending_if; [apply appending_deferred |].
    apply appending_if; [apply appending_cleanup |].
    apply appending_guardAnalysis. }
  destruct (isFunctionalUpdate args).
  - exact (appending_compose _ _ (appending_functional calleeName) H).
  - exact H.
Qed.

Lemma appending_transitiveCall (s : site) (setters : list string) :
  appending (recordTransitiveCall stateInfo asyncNodes cleanupNodes s
               setters).
Proof.
  unfold recordTransitiveCall.
  apply appending_if;
    [apply (appending_fold (fun x => siPushDeferred x)), appending_deferred |].
  apply appending_if;
    [apply (appending_fold (fun x => siPushCleanup x)), appending_cleanup |].
  apply (appending_fold (fun x => recordGuardAnalysis stateInfo s x)).
  intros x. apply appending_guardAnalysis.
Qed.

Lemma appending_visitCall (s : site) :
  appending (visitCallExpression stateInfo localFunctionSetters
               asyncNodes cleanupNodes s).
Proof.
  unfold visitCallExpression.
  repeat first [ apply appending_id
               | apply appending_setterCall
               | apply appending_transitiveCall
               | split_match ].
Qed.

Lemma appending_visitMember (s : site) :
  appending (visitMemberExpression stateInfo s).
Proof.
  unfold visitMemberExpression.
  repeat first [ apply appending_id | apply appending_read | split_match ].
Qed.

Lemma appending_visitIdentifier (s : site) :
  appending (visitIdentifier stateInfo s).
Proof.
  unfold visitIdentifier.
  repeat first [ apply appending_id | apply appending_read | split_match ].
Qed.

Lemma appending_visitAssignment (s : site) :
  appending (visitAssignmentExpression stateInfo refVars s).
Proof.
  unfold visitAssignmentExpression.
  repeat first [ apply appending_id | apply appending_refMutation
               | split_match ].
Qed.

Lemma appending_mainVisitor (s : site) :
  appending (fun i => mainVisitor stateInfo refVars localFunctionSetters
                        asyncNodes cleanupNodes i s).
Proof.
  unfold mainVisitor.
  apply (appending_compose _ _ (appending_visitAssignment s)).
  apply (appending_compose _ _ (appending_visitIdentifier s)).
  apply (appending_compose _ _ (appending_visitMember s)).
  apply appending_visitCall.
Qed.

(** The record at the end of a traversal is the given record followed
    by what each path adds, in traversal order. *)
Lemma fold_mainVisitor (l : list site) (i : StateInteraction) :
  fold_left (mainVisitor stateInfo refVars localFunctionSetters
               asyncNodes cleanupNodes) l i =
  fold_left (fun acc s =>
               siAppend acc
                 (mainVisitor stateInfo refVars localFunctionSetters
                    asyncNodes cleanupNodes noInteraction s)) l i.
Proof.
  revert i. induction l as [| s l IH]; intros i; cbn; [reflexivity |].
  rewrite (appending_mainVisitor s i). apply IH.
Qed.

Lemma fold_siAppend_field {A} (proj : StateInteraction -> list A)
  (Hproj : forall a b, proj (siAppend a b) = proj a ++ proj b)
  (contribution : site -> StateInteraction) (l : list site)
  (i : StateInteraction) :
  proj (fold_left (fun acc s => siAppend acc (contribution s)) l i) =
  proj i ++ flat_map (fun s => proj (contribution s)) l.
Proof.
  revert i. induction l as [| s l IH]; intros i; cbn.
  - now rewrite app_nil_r.
  - rewrite IH, Hproj. now rewrite app_assoc.
Qed.

(** A call of a setter: the other visitors do not act on the path. *)
Lemma visitMember_at_call (s : site) (line : nat) (callee : node)
  (args : list node) (i : StateInteraction) :
  s_node s = CallExpression line callee args ->
  visitMemberExpression stateInfo s i = i.
Proof. intros Hn. unfold visitMemberExpression. now rewrite Hn. Qed.

Lemma visitIdentifier_at_call (s : site) (line : nat) (callee : node)
  (args : list node) (i : StateInteraction) :
  s_node s = CallExpression line callee args ->
  visitIdentifier stateInfo s i = i.
Proof. intros Hn. unfold visitIdentifier. now rewrite Hn. Qed.

Lemma visitAssignment_at_call (s : site) (line : nat) (callee : node)
  (args : list node) (i : StateInteraction) :
  s_node s = CallExpression line callee args ->
  visitAssignmentExpression stateInfo refVars s i = i.
Proof. intros Hn. unfold visitAssignmentExpression. now rewrite Hn. Qed.

Lemma mainVisitor_at_setter_call (s : site) (line : nat)
  (calleeName : string) (args : list node) (i : StateInteraction) :
  s_node s = CallExpression line (Identifier calleeName) args ->
  strIn calleeName (JsMap.values stateInfo) = true ->
  mainVisitor stateInfo refVars localFunctionSetters asyncNodes
    cleanupNodes i s =
  recordSetterCall stateInfo asyncNodes cleanupNodes s calleeName args i.
Proof.
  intros Hn Hs. unfold mainVisitor.
  rewrite (visitAssignment_at_call s line _ args _ Hn).
  rewrite (visitIdentifier_at_call s line _ args _ Hn).
  rewrite (visitMember_at_call s line _ args _ Hn).
  unfold visitCallExpression. now rewrite Hn, Hs.
Qed.
End VisitorFacts.

(** *** What the first pass collects *)

Lemma fold_left_invariant {A B} (f : A -> B -> A) (P : A -> Prop)
  (l : list B) (a : A) :
  P a -> (forall a x, In x l -> P a -> P (f a x)) -> P (fold_left f l a).
Proof.
  revert a. induction l as [| x l IH]; intros a Ha Hstep; cbn.
  - assumption.
  - apply IH.
    + apply Hstep; [now left | assumption].
    + intros a' y Hy. apply Hstep. now right.
Qed.

Lemma fold_addReference_keeps (receiver : string) (args : list node)
  (f : FirstPass) :
  let f' := fold_left (fpAddReference receiver) args f in
  fp_asyncCallbackNodes f' = fp_asyncCallbackNodes f /\
  fp_cleanupFunctionNodes f' = fp_cleanupFunctionNodes f /\
  fp_namedAsyncCallbackRefs f' = fp_namedAsyncCallbackRefs f /\
  fp_localFunctions f' = fp_localFunctions f.
Proof.
  cbv zeta. revert f. induction args as [| arg args IH]; intros f; cbn.
  - repeat split.
  - destruct (IH (fpAddReference receiver f arg)) as [H1 [H2 [H3 H4]]].
    rewrite H1, H2, H3, H4. destruct arg; repeat split.
Qed.

Lemma asyncArguments_keeps (call : position) (args : list node) (i : nat)
  (f : FirstPass) :
  fp_cleanupFunctionNodes (fpAsyncArguments call i args f)
    = fp_cleanupFunctionNodes f /\
  fp_localFunctions (fpAsyncArguments call i args f) = fp_localFunctions f.
Proof.
  revert i f. induction args as [| arg args IH]; intros i f; cbn.
  - split; reflexivity.
  - destruct (IH (S i)
                (if isFunctionLiteral arg
                 then fpAddAsyncNode (mkRef (i :: call) arg) f
                 else match arg with
                      | Identifier x => fpAddNamedAsync x f
                      | _ => f
                      end)) as [H1 H2].
    rewrite H1, H2.
    destruct (isFunctionLiteral arg); [split; reflexivity |].
    destruct arg; split; reflexivity.
Qed.

(** The nodes and names a call to a deferred receiver adds: its
    function-literal arguments, and the names of its identifier
    arguments. *)
Lemma asyncArguments_adds (call : position) (args : list node) (i : nat)
  (f : FirstPass) :
  (forall r, In r (fp_asyncCallbackNodes (fpAsyncArguments call i args f)) ->
     In r (fp_asyncCallbackNodes f) \/
     exists k arg, nth_error args k = Some arg /\
                   isFunctionLiteral arg = true /\
                   r = mkRef (i + k :: call) arg) /\
  (forall x, In x (fp_namedAsyncCallbackRefs (fpAsyncArguments call i args f)) ->
     In x (fp_namedAsyncCallbackRefs f) \/ In (Identifier x) args).
Proof.
  revert i f. induction args as [| arg args IH]; intros i f; cbn.
  - split; intros; now left.
  - set (f' := if isFunctionLiteral arg
               then fpAddAsyncNode (mkRef (i :: call) arg) f
               else match arg with
                    | Identifier x => fpAddNamedAsync x f
                    | _ => f
                    end).
    destruct (IH (S i) f') as [Hnodes Hnames].
    assert (Hf'nodes : forall r, In r (fp_asyncCallbackNodes f') ->
              In r (fp_asyncCallbackNodes f) \/
              (isFunctionLiteral arg = true /\ r = mkRef (i :: call) arg)).
    { intros r. unfold f'. destruct (isFunctionLiteral arg) eqn:E.
      - unfold fpAddAsyncNode. cbn. case_if; [now left |].
        rewrite in_app_iff. intros [H | [<- | []]]; [now left | now right].
      - destruct arg; cbn; now left. }
    assert (Hf'names : forall x, In x (fp_namedAsyncCallbackRefs f') ->
              In x (fp_namedAsyncCallbackRefs f) \/ Identifier x = arg).
    { intros x. unfold f'. destruct (isFunctionLiteral arg).
      - cbn. now left.
      - destruct arg; cbn; try (now left).
        rewrite setAdd_In. intros [H | ->]; [now left | now right]. }
    split.
    + intros r Hr. destruct (Hnodes r Hr) as [H | [k [a [Hk [Ha ->]]]]].
      * destruct (Hf'nodes r H) as [H' | [Hlit ->]]; [now left |].
        right. exists 0, arg. rewrite Nat.add_0_r. repeat split. assumption.
      * right. exists (S k), a. repeat split; try assumption.
        f_equal. f_equal. lia.
    + intros x Hx. destruct (Hnames x Hx) as [H | H].
      * destruct (Hf'names x H) as [H' | <-]; [now left | right; now left].
      * right. now right.
Qed.

Section FirstPassFacts.
Variable hookBody : node.

(** A closure counted as cleanup is the function-literal argument of a
    return statement met in the traversal of the body. *)
Let returnedFunction (r : nref) : Prop :=
  exists s returnArg,
    In s (walk hookBody) /\
    s_node s = ReturnStatement (Some returnArg) /\
    isFunctionLiteral returnArg = true /\
    r = mkRef (0 :: s_path s) returnArg.

(** A callback passed inline to a deferred receiver. *)
Let inlineDeferredCallback (r : nref) : Prop :=
  exists s line callee args receiver k arg,
    In s (walk hookBody) /\
    s_node s = CallExpression line callee args /\
    receivingFuncName callee = Some receiver /\
    strIn receiver ASYNC_CALLBACK_FUNCTIONS = true /\
    nth_error args k = Some arg /\
    isFunctionLiteral arg = true /\
    r = mkRef (S k :: s_path s) arg.

(** A name passed as an identifier to a deferred receiver. *)
Let namePassedToDeferred (x : string) : Prop :=
  exists s line callee args receiver,
    In s (walk hookBody) /\
    s_node s = CallExpression line callee args /\
    receivingFuncName callee = Some receiver /\
    strIn receiver ASYNC_CALLBACK_FUNCTIONS = true /\
    In (Identifier x) args.

(** The definition of a local function of that name. *)
Let localDefinition (x : string) (r : nref) : Prop :=
  exists s,
    In s (walk hookBody) /\
    ((exists line init,
         s_node s = VariableDeclarator line (Identifier x) (Some init) /\
         isFunctionLiteral init = true /\
         r = mkRef (1 :: s_path s) init) \/
     (exists loc params body,
         s_node s = FunctionDeclaration loc (Some x) params body /\
         r = s_ref s)).

Let collected (f : FirstPass) : Prop :=
  (forall r, In r (fp_cleanupFunctionNodes f) -> returnedFunction r) /\
  (forall r, In r (fp_asyncCallbackNodes f) -> inlineDeferredCallback r) /\
  (forall x, In x (fp_namedAsyncCallbackRefs f) -> namePassedToDeferred x) /\
  (forall x r, JsMap.get (fp_localFunctions f) x = Some r ->
               localDefinition x r).

Lemma collected_step (f : FirstPass) (s : site) :
  In s (walk hookBody) -> collected f -> collected (firstPassVisitor f s).
Proof.
  intros Hs [Hc [Ha [Hn Hl]]]. unfold firstPassVisitor.
  destruct (s_node s) eqn:En; try (repeat split; assumption).
  - (* CallExpression *)
    match type of En with
    | _ = CallExpression ?a ?b ?c =>
        rename a into line0; rename b into callee0; rename c into args0
    end.
    destruct (receivingFuncName callee0) as [receiver |] eqn:Er;
      [| repeat split; assumption].
    destruct receiver as [| c receiver']; [repeat split; assumption |].
    set (receiver := String c receiver') in *.
    set (f1 := if strIn receiver EVENT_LISTENER_METHODS
               then fold_left (fpAddReference receiver) args0 f else f).
    assert (H1 : fp_asyncCallbackNodes f1 = fp_asyncCallbackNodes f /\
                 fp_cleanupFunctionNodes f1 = fp_cleanupFunctionNodes f /\
                 fp_namedAsyncCallbackRefs f1 = fp_namedAsyncCallbackRefs f /\
                 fp_localFunctions f1 = fp_localFunctions f).
    { unfold f1. case_if; [apply fold_addReference_keeps | repeat split]. }
    destruct H1 as [H1a [H1c [H1n H1l]]].
    destruct (strIn receiver ASYNC_CALLBACK_FUNCTIONS) eqn:Easync.
    + destruct (asyncArguments_keeps (s_path s) args0 1 f1) as [K1 K2].
      destruct (asyncArguments_adds (s_path s) args0 1 f1) as [A1 A2].
      unfold collected. rewrite K1, K2, H1c, H1l.
      split; [assumption |]. split; [| split; [| assumption]].
      * intros r Hr. destruct (A1 r Hr) as [H | [k [arg [Hk [Hlit ->]]]]].
        -- apply Ha. now rewrite <- H1a.
        -- exists s, line0, callee0, args0, receiver, k, arg.
           repeat split; assumption.
      * intros x Hx. destruct (A2 x Hx) as [H | H].
        -- apply Hn. now rewrite <- H1n.
        -- exists s, line0, callee0, args0, receiver.
           repeat split; assumption.
    + unfold collected. rewrite H1a, H1c, H1n, H1l. repeat split; assumption.
  - (* ReturnStatement *)
    match type of En with
    | _ = ReturnStatement ?a => destruct a as [returnArg |]
    end; [| repeat split; assumption].
    destruct (isFunctionLiteral returnArg) eqn:Elit;
      [| repeat split; assumption].
    unfold collected, fpAddCleanup. cbn.
    split; [| repeat split; assumption].
    intros r. case_if; [apply Hc |].
    rewrite in_app_iff. intros [H | [<- | []]]; [now apply Hc |].
    exists s, returnArg. repeat split; assumption.
  - (* VariableDeclarator *)
    match type of En with
    | _ = VariableDeclarator ?a ?b ?c =>
        rename a into line0; rename c into init0;
        destruct b as [name0 | | | | | | | | | | | | | | | | | | | | | | | |
                       | | | | | ]
    end; try (repeat split; assumption).
    destruct init0 as [init |]; [| repeat split; assumption].
    destruct (isFunctionLiteral init) eqn:Elit; [| repeat split; assumption].
    unfold collected, fpSetLocalFunction. cbn.
    split; [assumption |]. split; [assumption |]. split; [assumption |].
    intros x r. rewrite JsMap_get_set.
    destruct (String.eqb x name0) eqn:Ex; [| apply Hl].
    apply String.eqb_eq in Ex. subst x. intros [= <-].
    exists s. split; [assumption |]. left. exists line0, init.
    repeat split; assumption.
  - (* FunctionDeclaration *)
    match type of En with
    | _ = FunctionDeclaration ?a ?b ?c ?d =>
        rename a into loc0; rename c into params0; rename d into body0;
        destruct b as [name0 |]
    end; [| repeat split; assumption].
    unfold collected, fpSetLocalFunction. cbn.
    split; [assumption |]. split; [assumption |]. split; [assumption |].
    intros x r. rewrite JsMap_get_set.
    destruct (String.eqb x name0) eqn:Ex; [| apply Hl].
    apply String.eqb_eq in Ex. subst x. intros [= <-].
    exists s. split; [assumption |]. right. exists loc0, params0, body0.
    split; [assumption | reflexivity].
Qed.

Lemma firstPass_collected : collected (firstPass hookBody).
Proof.
  unfold firstPass. apply fold_left_invariant.
  - unfold collected. cbn. repeat split; intros; try contradiction.
    discriminate.
  - intros f s. apply collected_step.
Qed.

(** The deferred callbacks after the resolution of the named
    references. *)
Lemma resolved_async_nodes (r : nref) :
  In r (resolveNamedAsync (firstPass hookBody)) ->
  inlineDeferredCallback r \/
  exists x, namePassedToDeferred x /\ localDefinition x r.
Proof.
  destruct firstPass_collected as [_ [Ha [Hn Hl]]].
  unfold resolveNamedAsync.
  set (f := firstPass hookBody) in *.
  assert (Hgen : forall names nodes,
             (forall x, In x names -> namePassedToDeferred x) ->
             In r (fold_left
                     (fun nodes name =>
                        match JsMap.get (fp_localFunctions f) name with
                        | Some funcNode =>
                            if nodeSetHas nodes funcNode then nodes
                            else nodes ++ [funcNode]
                        | None => nodes
                        end) names nodes) ->
             In r nodes \/
             exists x, namePassedToDeferred x /\ localDefinition x r).
  { induction names as [| name names IH]; intros nodes Hnames; cbn.
    - now left.
    - intros H. apply IH in H; [| intros x Hx; apply Hnames; now right].
      destruct H as [H | H]; [| now right].
      destruct (JsMap.get (fp_localFunctions f) name) as [funcNode |] eqn:Eg;
        [| now left].
      destruct (nodeSetHas nodes funcNode); [now left |].
      apply in_app_iff in H. destruct H as [H | [<- | []]]; [now left |].
      right. exists name. split; [apply Hnames; now left | now apply Hl]. }
  intros H. destruct (Hgen _ _ Hn H) as [H' | H']; [| now right].
  left. now apply Ha.
Qed.

Lemma cleanup_nodes (r : nref) :
  In r (fp_cleanupFunctionNodes (firstPass hookBody)) -> returnedFunction r.
Proof. destruct firstPass_collected as [Hc _]. apply Hc. Qed.
End FirstPassFacts.

(** *** Nothing escapes the first pass *)

Lemma position_eqb_refl (p : position) : position_eqb p p = true.
Proof.
  induction p as [| x p IH]; cbn; [reflexivity |].
  now rewrite Nat.eqb_refl, IH.
Qed.

Lemma nodeSetHas_app (l e : list nref) (r : nref) :
  nodeSetHas l r = true -> nodeSetHas (l ++ e) r = true.
Proof.
  unfold nodeSetHas. rewrite existsb_app. intros ->. reflexivity.
Qed.

Lemma nodeSetHas_added (l : list nref) (r : nref) :
  nodeSetHas (if nodeSetHas l r then l else l ++ [r]) r = true.
Proof.
  destruct (nodeSetHas l r) eqn:E; [assumption |].
  unfold nodeSetHas. rewrite existsb_app. cbn.
  unfold sameNode. rewrite position_eqb_refl. now rewrite orb_true_r.
Qed.

Lemma nodeSetHas_kept (l : list nref) (r r' : nref) :
  nodeSetHas l r = true ->
  nodeSetHas (if nodeSetHas l r' then l else l ++ [r']) r = true.
Proof.
  intros H. destruct (nodeSetHas l r'); [assumption |].
  now apply nodeSetHas_app.
Qed.

Lemma fold_left_preserves {A B} (f : A -> B -> A) (Q : A -> Prop)
  (l : list B) (a : A) :
  (forall a y, Q a -> Q (f a y)) -> Q a -> Q (fold_left f l a).
Proof.
  intros Hstep. revert a. induction l as [| y l IH]; intros a Ha; cbn.
  - assumption.
  - apply IH, Hstep, Ha.
Qed.

Lemma fold_left_reaches {A B} (f : A -> B -> A) (Q : A -> Prop)
  (l : list B) (x : B) (a : A) :
  In x l ->
  (forall a, Q (f a x)) ->
  (forall a y, Q a -> Q (f a y)) ->
  Q (fold_left f l a).
Proof.
  intros Hin Hx Hstep. revert a.
  induction l as [| y l IH]; intros a; [destruct Hin |].
  cbn. destruct Hin as [-> | Hin].
  - apply fold_left_preserves; [assumption | apply Hx].
  - now apply IH.
Qed.

(** The arguments of a call to a deferred receiver are all taken in,
    and nothing taken in before is lost. *)
Lemma asyncArguments_grows (call : position) (args : list node) (i : nat)
  (f : FirstPass) :
  (forall r, nodeSetHas (fp_asyncCallbackNodes f) r = true ->
     nodeSetHas (fp_asyncCallbackNodes (fpAsyncArguments call i args f)) r
     = true) /\
  (forall x, In x (fp_namedAsyncCallbackRefs f) ->
     In x (fp_namedAsyncCallbackRefs (fpAsyncArguments call i args f))) /\
  (forall k arg, nth_error args k = Some arg ->
     isFunctionLiteral arg = true ->
     nodeSetHas (fp_asyncCallbackNodes (fpAsyncArguments call i args f))
       (mkRef (i + k :: call) arg) = true) /\
  (forall x, In (Identifier x) args ->
     In x (fp_namedAsyncCallbackRefs (fpAsyncArguments call i args f))).
Proof.
  revert i f. induction args as [| arg args IH]; intros i f; cbn.
  - repeat split; try (intros; assumption).
    + intros [| k] a H; discriminate.
    + intros x [].
  - set (f' := if isFunctionLiteral arg
               then fpAddAsyncNode (mkRef (i :: call) arg) f
               else match arg with
                    | Identifier x => fpAddNamedAsync x f
                    | _ => f
                    end).
    destruct (IH (S i) f') as [Hnodes [Hnames [Hargs Hids]]].
    assert (Hf'nodes : forall r, nodeSetHas (fp_asyncCallbackNodes f) r = true ->
                                 nodeSetHas (fp_asyncCallbackNodes f') r = true).
    { intros r Hr. unfold f'. destruct (isFunctionLiteral arg).
      - cbn. now apply nodeSetHas_kept.
      - destruct arg; assumption. }
    assert (Hf'names : forall x, In x (fp_namedAsyncCallbackRefs f) ->
                                 In x (fp_namedAsyncCallbackRefs f')).
    { intros x Hx. unfold f'. destruct (isFunctionLiteral arg); [assumption |].
      destruct arg; try assumption. cbn. apply setAdd_In. now left. }
    split; [intros r Hr; now apply Hnodes, Hf'nodes |].
    split; [intros x Hx; now apply Hnames, Hf'names |].
    split.
    + intros [| k] a Hk Hlit.
      * injection Hk as ->. rewrite Nat.add_0_r. apply Hnodes.
        unfold f'. rewrite Hlit. cbn. apply nodeSetHas_added.
      * replace (i + S k) with (S i + k) by lia. now apply Hargs.
    + intros x [-> | Hx]; [| now apply Hids].
      apply Hnames. unfold f'. cbn. apply setAdd_In. now right.
Qed.

Lemma firstPassVisitor_grows (f : FirstPass) (s : site) :
  (forall r, nodeSetHas (fp_asyncCallbackNodes f) r = true ->
     nodeSetHas (fp_asyncCallbackNodes (firstPassVisitor f s)) r = true) /\
  (forall r, nodeSetHas (fp_cleanupFunctionNodes f) r = true ->
     nodeSetHas (fp_cleanupFunctionNodes (firstPassVisitor f s)) r = true) /\
  (forall x, In x (fp_namedAsyncCallbackRefs f) ->
     In x (fp_namedAsyncCallbackRefs (firstPassVisitor f s))).
Proof.
  unfold firstPassVisitor.
  destruct (s_node s) eqn:En; try (repeat split; intros; assumption).
  - (* CallExpression *)
    match type of En with
    | _ = CallExpression ?a ?b ?c =>
        rename a into line0; rename b into callee0; rename c into args0
    end.
    destruct (receivingFuncName callee0) as [receiver |];
      [| repeat split; intros; assumption].
    destruct receiver as [| c receiver'];
      [repeat split; intros; assumption |].
    set (receiver := String c receiver') in *.
    set (f1 := if strIn receiver EVENT_LISTENER_METHODS
               then fold_left (fpAddReference receiver) args0 f else f).
    assert (H1 : fp_asyncCallbackNodes f1 = fp_asyncCallbackNodes f /\
                 fp_cleanupFunctionNodes f1 = fp_cleanupFunctionNodes f /\
                 fp_namedAsyncCallbackRefs f1 = fp_namedAsyncCallbackRefs f /\
                 fp_localFunctions f1 = fp_localFunctions f).
    { unfold f1. case_if; [apply fold_addReference_keeps | repeat split]. }
    destruct H1 as [H1a [H1c [H1n _]]].
    destruct (strIn receiver ASYNC_CALLBACK_FUNCTIONS).
    + destruct (asyncArguments_keeps (s_path s) args0 1 f1) as [K1 _].
      destruct (asyncArguments_grows (s_path s) args0 1 f1)
        as [G1 [G2 _]].
      rewrite K1, H1c. rewrite H1a in G1. rewrite H1n in G2.
      repeat split; try assumption; intros; assumption.
    + rewrite H1a, H1c, H1n. repeat split; intros; assumption.
  - (* ReturnStatement *)
    match type of En with
    | _ = ReturnStatement ?a => destruct a as [returnArg |]
    end; [| repeat split; intros; assumption].
    destruct (isFunctionLiteral returnArg);
      [| repeat split; intros; assumption].
    unfold fpAddCleanup. cbn.
    repeat split; try (intros; assumption).
    intros r Hr. now apply nodeSetHas_kept.
  - (* VariableDeclarator *)
    repeat match goal with
           | |- context [match ?x with _ => _ end] => is_var x; destruct x
           end; try (repeat split; intros; assumption);
      case_if; repeat split; intros; assumption.
  - (* FunctionDeclaration *)
    repeat match goal with
           | |- context [match ?x with _ => _ end] => is_var x; destruct x
           end; repeat split; intros; assumption.
Qed.

Section FirstPassComplete.
Variable hookBody : node.

(** A function literal passed inline to a deferred receiver is among the
    deferred callbacks. *)
Lemma inline_callback_collected (s : site) (line : nat) (callee : node)
  (args : list node) (receiver : string) (k : nat) (arg : node) :
  In s (walk hookBody) ->
  s_node s = CallExpression line callee args ->
  receivingFuncName callee = Some receiver ->
  strIn receiver ASYNC_CALLBACK_FUNCTIONS = true ->
  nth_error args k = Some arg ->
  isFunctionLiteral arg = true ->
  nodeSetHas (fp_asyncCallbackNodes (firstPass hookBody))
    (mkRef (S k :: s_path s) arg) = true.
Proof.
  intros Hs Hn Hr Ha Hk Hlit. unfold firstPass.
  apply (fold_left_reaches firstPassVisitor
           (fun f => nodeSetHas (fp_asyncCallbackNodes f)
                       (mkRef (S k :: s_path s) arg) = true)
           (walk hookBody) s emptyFirstPass Hs).
  - intros f. unfold firstPassVisitor. rewrite Hn, Hr.
    destruct receiver as [| c receiver']; [discriminate |].
    rewrite Ha.
    apply (proj1 (proj2 (proj2 (asyncArguments_grows (s_path s) args 1 _)))
             k arg Hk Hlit).
  - intros f y. apply (proj1 (firstPassVisitor_grows f y)).
Qed.

(** A name passed to a deferred receiver is among the named
    references. *)
Lemma passed_name_collected (s : site) (line : nat) (callee : node)
  (args : list node) (receiver x : string) :
  In s (walk hookBody) ->
  s_node s = CallExpression line callee args ->
  receivingFuncName callee = Some receiver ->
  strIn receiver ASYNC_CALLBACK_FUNCTIONS = true ->
  In (Identifier x) args ->
  In x (fp_namedAsyncCallbackRefs (firstPass hookBody)).
Proof.
  intros Hs Hn Hr Ha Hx. unfold firstPass.
  apply (fold_left_reaches firstPassVisitor
           (fun f => In x (fp_namedAsyncCallbackRefs f))
           (walk hookBody) s emptyFirstPass Hs).
  - intros f. unfold firstPassVisitor. rewrite Hn, Hr.
    destruct receiver as [| c receiver']; [discriminate |].
    rewrite Ha.
    apply (proj2 (proj2 (proj2 (asyncArguments_grows (s_path s) args 1 _)))
             x Hx).
  - intros f y. apply (proj2 (proj2 (firstPassVisitor_grows f y))).
Qed.

(** The function literal of a return statement is among the cleanup
    closures. *)
Lemma returned_function_collected (s : site) (returnArg : node) :
  In s (walk hookBody) ->
  s_node s = ReturnStatement (Some returnArg) ->
  isFunctionLiteral returnArg = true ->
  nodeSetHas (fp_cleanupFunctionNodes (firstPass hookBody))
    (mkRef (0 :: s_path s) returnArg) = true.
Proof.
  intros Hs Hn Hlit. unfold firstPass.
  apply (fold_left_reaches firstPassVisitor
           (fun f => nodeSetHas (fp_cleanupFunctionNodes f)
                       (mkRef (0 :: s_path s) returnArg) = true)
           (walk hookBody) s emptyFirstPass Hs).
  - intros f. unfold firstPassVisitor. rewrite Hn, Hlit.
    unfold fpAddCleanup. cbn. apply nodeSetHas_added.
  - intros f y. apply (proj1 (proj2 (firstPassVisitor_grows f y))).
Qed.

(** The resolution keeps the inline callbacks and adds the definition
    registered for each named reference. *)
Lemma resolution_complete (r : nref) :
  nodeSetHas (fp_asyncCallbackNodes (firstPass hookBody)) r = true \/
  (exists x, In x (fp_namedAsyncCallbackRefs (firstPass hookBody)) /\
             JsMap.get (fp_localFunctions (firstPass hookBody)) x = Some r) ->
  nodeSetHas (resolveNamedAsync (firstPass hookBody)) r = true.
Proof.
  unfold resolveNamedAsync. set (f := firstPass hookBody).
  set (step := fun nodes name =>
                 match JsMap.get (fp_localFunctions f) name with
                 | Some funcNode =>
                     if nodeSetHas nodes funcNode then nodes
                     else nodes ++ [funcNode]
                 | None => nodes
                 end).
  assert (Hkeep : forall nodes name,
             nodeSetHas nodes r = true -> nodeSetHas (step nodes name) r = true).
  { intros nodes name H. unfold step.
    destruct (JsMap.get (fp_localFunctions f) name); [| assumption].
    now apply nodeSetHas_kept. }
  intros [H | [x [Hx Hget]]].
  - now apply (fold_left_preserves step
                 (fun nodes => nodeSetHas nodes r = true)).
  - apply (fold_left_reaches step (fun nodes => nodeSetHas nodes r = true)
             _ x _ Hx); [| exact Hkeep].
    intros nodes. unfold step. rewrite Hget. apply nodeSetHas_added.
Qed.
End FirstPassComplete.

(** The function literal of a return statement that the first
    traversal meets is among the cleanup functions, wherever the hook
    body sits and however deep the return statement is nested. *)
Lemma returned_function_is_cleanup (base : position) (above : list node)
  (hookBody : node) (s : site) (returnArg : node) :
  In s (walkWithin base above hookBody) ->
  s_node s = ReturnStatement (Some returnArg) ->
  isFunctionLiteral returnArg = true ->
  nodeSetHas (fp_cleanupFunctionNodes (firstPassWithin base above hookBody))
    (mkRef (0 :: s_path s) returnArg) = true.
Proof.
  intros Hs Hn Hlit. unfold firstPassWithin.
  apply (fold_left_reaches firstPassVisitor
           (fun f => nodeSetHas (fp_cleanupFunctionNodes f)
                       (mkRef (0 :: s_path s) returnArg) = true)
           (walkWithin base above hookBody) s emptyFirstPass Hs).
  - intros f. unfold firstPassVisitor. rewrite Hn, Hlit.
    unfold fpAddCleanup. cbn. apply nodeSetHas_added.
  - intros f y. apply (proj1 (proj2 (firstPassVisitor_grows f y))).
Qed.

(** C1, the failing input.  For the effect body
    [const stops = items.map((item) => {
       return () => { setCount(0); };
     });
     stops.forEach((stop) => stop());]
    the direct call [setCount(0)] is recorded in [cleanupModifications]
    and in no other bucket, although the effect body returns no closure
    and no callback is passed to a deferred receiver: the first
    traversal takes the function returned by the callback of
    [items.map] for a cleanup function.  This is so for the body on its
    own and for the body in its file, as the callback body of
    [useEffect(() => { ... }, [count])] in a component that declares
    [count] with [useState], analysed with the state that
    [extractStateInfo] and [buildLocalFunctionSetterMap] find in the
    file.  The input stands for a class: wherever the hook body sits, a
    direct call of a setter below the function literal of any return
    statement that the traversal meets, and outside the deferred
    callbacks, is appended to [cleanupModifications] and to none of
    [modifications], [conditionalModifications], [guardedModifications]
    and [deferredModifications]. *)
Theorem helper_closure_recorded_as_cleanup :
  let body := Programs.helperClosureBody in
  let alone := analyzeStateInteractions body Samples.countState [] [] in
  let file := Programs.helperClosureFile in
  let stateInfo := stateVariables (extractStateInfo file) in
  let placed :=
    analyzeStateInteractionsAt Programs.helperClosureSite stateInfo
      (refVariables (extractStateInfo file))
      (buildLocalFunctionSetterMap file stateInfo) in
  (* the body: no return statement of its own, no deferred callback, and
     the one function taken for a cleanup function is the one returned
     inside the callback of [items.map] *)
  (match body with
   | BlockStatement statements =>
       existsb (fun statement =>
                  match statement with
                  | ReturnStatement _ => true
                  | _ => false
                  end) statements
   | _ => true
   end = false) /\
  resolveNamedAsync (firstPass body) = [] /\
  fp_cleanupFunctionNodes (firstPass body) =
    [mkRef [0; 0; 1; 1; 1; 0; 0]
       (Samples.arrow
          [Samples.stmt (Samples.call 3 "setCount" [NumericLiteral 0])])] /\
  (* the record, for the body on its own *)
  (cleanupModifications alone = ["setCount"] /\
   modifications alone = [] /\
   conditionalModifications alone = [] /\
   guardedModifications alone = [] /\
   deferredModifications alone = []) /\
  (* the record, for the body in its file *)
  (s_node Programs.helperClosureSite = body /\
   stateInfo = [("count", "setCount")] /\
   cleanupModifications placed = ["setCount"] /\
   modifications placed = [] /\
   conditionalModifications placed = [] /\
   guardedModifications placed = [] /\
   deferredModifications placed = []) /\
  (* the class of such inputs *)
  (forall (base : position) (above : list node) (hookBody : node)
          (stateInfo : JsMap.t string) (refVars : list string)
          (localFunctionSetters : JsMap.t (list string))
          (r : site) (returnArg : node)
          (t : site) (line : nat) (setter : string) (args : list node)
          (i : StateInteraction),
      let f := firstPassWithin base above hookBody in
      let i' :=
        mainVisitor stateInfo refVars localFunctionSetters
          (resolveNamedAsync f) (fp_cleanupFunctionNodes f) i t in
      In r (walkWithin base above hookBody) ->
      s_node r = ReturnStatement (Some returnArg) ->
      isFunctionLiteral returnArg = true ->
      s_node t = CallExpression line (Identifier setter) args ->
      strIn setter (JsMap.values stateInfo) = true ->
      In (mkRef (0 :: s_path r) returnArg) (parentPaths t) ->
      isInsideAsyncCallback (resolveNamedAsync f) t = false ->
      cleanupModifications i' = cleanupModifications i ++ [setter] /\
      modifications i' = modifications i /\
      conditionalModifications i' = conditionalModifications i /\
      guardedModifications i' = guardedModifications i /\
      deferredModifications i' = deferredModifications i).
Proof.
  cbv zeta.
  split; [vm_compute; reflexivity |].
  split; [vm_compute; reflexivity |].
  split; [vm_compute; reflexivity |].
  split; [repeat split; vm_compute; reflexivity |].
  split; [repeat split; vm_compute; reflexivity |].
  intros base above hookBody stateInfo refVars lfs r returnArg t line setter
    args i Hr Hreturn Hlit Hcall Hsetter Hinside Hasync.
  rewrite (mainVisitor_at_setter_call stateInfo refVars lfs _ _ t line
             setter args i Hcall Hsetter).
  unfold recordSetterCall. rewrite Hasync.
  assert (Hcleanup :
            isInsideCleanupFunction
              (fp_cleanupFunctionNodes (firstPassWithin base above hookBody))
              t = true).
  { unfold isInsideCleanupFunction, insideAnyOf.
    apply existsb_exists. exists (mkRef (0 :: s_path r) returnArg).
    split; [exact Hinside |].
    now apply returned_function_is_cleanup. }
  rewrite Hcleanup.
  destruct (isFunctionalUpdate args); cbn; repeat split; reflexivity.
Qed.










(** The fields that the closing block of [analyzeStateInteractions]
    passes through [new Set] have no duplicates. *)
Lemma deduplicated_fields (hookBody : node) (stateInfo : JsMap.t string)
  (refVars : list string) (localFunctionSetters : JsMap.t (list string)) :
  let result :=
    analyzeStateInteractions hookBody stateInfo refVars localFunctionSetters in
  NoDup (reads result) /\ NoDup (modifications result) /\
  NoDup (conditionalModifications result) /\
  NoDup (functionalUpdates result) /\
  NoDup (deferredModifications result).
Proof.
  cbv zeta. unfold analyzeStateInteractions, removeDuplicates. cbn.
  repeat split; apply newSet_NoDup.
Qed.

(** C9, the failing input.  For the effect body
    [setTimeout(() => { setCount(1); }, 100); setCount(2);
     return () => { setCount(0); setCount(0); };]
    the field [cleanupModifications] of the result holds ["setCount"]
    twice: the closing block does not pass it through [new Set]. *)
Theorem cleanupModifications_keeps_duplicates :
  cleanupModifications
    (analyzeStateInteractions Samples.bucketsBody Samples.countState [] [])
    = ["setCount"; "setCount"] /\
  ~ NoDup (cleanupModifications
             (analyzeStateInteractions Samples.bucketsBody
                Samples.countState [] [])).
Proof.
  assert (H : cleanupModifications
                (analyzeStateInteractions Samples.bucketsBody
                   Samples.countState [] [])
              = ["setCount"; "setCount"]) by (vm_compute; reflexivity).
  split; [exact H |].
  rewrite H. intros Hn. inversion Hn as [| x l Hx Hl]; subst.
  apply Hx. now left.
Qed.

(** ** The local function-to-setters map *)

Lemma getOrEmpty_set (m : JsMap.t (list string)) (k k' : string)
  (v : list string) :
  getOrEmpty (JsMap.set m k v) k' =
  if String.eqb k' k then v else getOrEmpty m k'.
Proof.
  unfold getOrEmpty. rewrite JsMap_get_set.
  destruct (String.eqb k' k); reflexivity.
Qed.

Lemma getOrEmpty_In_entry (m : JsMap.t (list string)) (f g : string) :
  In g (getOrEmpty m f) -> exists cs, In (f, cs) m /\ In g cs.
Proof.
  unfold getOrEmpty. destruct (JsMap.get m f) as [cs |] eqn:E; [| intros []].
  intros H. exists cs. split; [now apply JsMap_get_In | assumption].
Qed.

Section Propagation.
Variable table : JsMap.t (list string).

(** The set built for one entry: the current setters and those of
    every called function. *)
Let grow (base : list string) (calledFunctions : list string) :=
  fold_left
    (fun set calledFunc =>
       fold_left setAdd (getOrEmpty table calledFunc) set)
    calledFunctions base.

Lemma grow_In (calledFunctions base : list string) (s : string) :
  In s (grow base calledFunctions) <->
  In s base \/ exists g, In g calledFunctions /\ In s (getOrEmpty table g).
Proof.
  unfold grow. revert base.
  induction calledFunctions as [| c cs IH]; intros base; cbn.
  - split; [tauto | intros [H | [g [[] _]]]; assumption].
  - rewrite IH, fold_setAdd_In. split.
    + intros [[H | H] | [g [Hg Hs]]].
      * now left.
      * right. exists c. tauto.
      * right. exists g. tauto.
    + intros [H | [g [[<- | Hg] Hs]]].
      * tauto.
      * tauto.
      * right. exists g. tauto.
Qed.

Lemma grow_extends (calledFunctions base : list string) :
  exists extra, grow base calledFunctions = base ++ extra.
Proof.
  unfold grow. revert base.
  induction calledFunctions as [| c cs IH]; intros base; cbn.
  - exists []. now rewrite app_nil_r.
  - destruct (fold_setAdd_extends (getOrEmpty table c) base) as [e1 ->].
    destruct (IH (base ++ e1)) as [e2 ->].
    exists (e1 ++ e2). now rewrite app_assoc.
Qed.

Lemma grow_same_length (calledFunctions base : list string) :
  Nat.ltb (length base) (length (grow base calledFunctions)) = false ->
  grow base calledFunctions = base.
Proof.
  destruct (grow_extends calledFunctions base) as [extra ->].
  rewrite length_app. intros H. apply Nat.ltb_ge in H.
  destruct extra; [now rewrite app_nil_r | cbn in H; lia].
Qed.
End Propagation.

Lemma propagateEntry_mono (st : JsMap.t (list string) * bool)
  (entry : string * list string) (f s : string) :
  In s (getOrEmpty (fst st) f) ->
  In s (getOrEmpty (fst (propagateEntry st entry)) f).
Proof.
  destruct st as [m changed], entry as [funcName cs]. cbn.
  intros H. case_if; cbn; [| assumption].
  rewrite getOrEmpty_set. destruct (String.eqb f funcName) eqn:E;
    [| assumption].
  apply String.eqb_eq in E. subst f.
  apply grow_In. left. now apply newSet_In.
Qed.

Lemma propagateEntry_edge (m : JsMap.t (list string)) (changed : bool)
  (f g s : string) (cs : list string) :
  In g cs -> In s (getOrEmpty m g) ->
  In s (getOrEmpty (fst (propagateEntry (m, changed) (f, cs))) f).
Proof.
  intros Hg Hs. cbn.
  assert (Hgrown : In s (fold_left
                           (fun set calledFunc =>
                              fold_left setAdd (getOrEmpty m calledFunc) set)
                           cs (newSet (getOrEmpty m f)))).
  { apply grow_In. right. now exists g. }
  case_if_eqn E; cbn.
  - rewrite getOrEmpty_set, String.eqb_refl. exact Hgrown.
  - apply grow_same_length in E. rewrite E in Hgrown.
    exact (proj1 (newSet_In _ _) Hgrown).
Qed.

Lemma propagateEntry_flag (m : JsMap.t (list string))
  (entry : string * list string) :
  snd (propagateEntry (m, true) entry) = true.
Proof. destruct entry. cbn. now case_if. Qed.

Lemma propagateEntry_unchanged (m : JsMap.t (list string))
  (entry : string * list string) :
  snd (propagateEntry (m, false) entry) = false ->
  propagateEntry (m, false) entry = (m, false).
Proof. destruct entry. cbn. now case_if. Qed.

Lemma fold_propagate_mono (calls : JsMap.t (list string))
  (st : JsMap.t (list string) * bool) (f s : string) :
  In s (getOrEmpty (fst st) f) ->
  In s (getOrEmpty (fst (fold_left propagateEntry calls st)) f).
Proof.
  revert st. induction calls as [| e calls IH]; intros st H; cbn [fold_left].
  - assumption.
  - apply IH. now apply propagateEntry_mono.
Qed.

Lemma fold_propagate_flag (calls : JsMap.t (list string))
  (m : JsMap.t (list string)) :
  snd (fold_left propagateEntry calls (m, true)) = true.
Proof.
  revert m. induction calls as [| e calls IH]; intros m; cbn [fold_left]; [reflexivity |].
  destruct (propagateEntry (m, true) e) as [m' c] eqn:E.
  assert (c = true) as -> by (now rewrite <- (propagateEntry_flag m e), E).
  apply IH.
Qed.

Lemma propagateRound_mono (calls m : JsMap.t (list string)) (f s : string) :
  In s (getOrEmpty m f) ->
  In s (getOrEmpty (fst (propagateRound calls m)) f).
Proof. intros H. now apply fold_propagate_mono. Qed.

(** One round carries the setters of a called function to the caller. *)
Lemma propagateRound_edge (calls m : JsMap.t (list string))
  (f g s : string) :
  In g (getOrEmpty calls f) -> In s (getOrEmpty m g) ->
  In s (getOrEmpty (fst (propagateRound calls m)) f).
Proof.
  intros Hedge Hs. apply getOrEmpty_In_entry in Hedge.
  destruct Hedge as [cs [Hentry Hg]].
  unfold propagateRound. generalize false as changed. revert m Hs.
  induction calls as [| e calls IH]; intros m Hs changed; [destruct Hentry |].
  cbn [fold_left]. destruct Hentry as [-> | Hentry].
  - apply fold_propagate_mono. now apply (propagateEntry_edge m changed f g s cs).
  - destruct (propagateEntry (m, changed) e) as [m' c] eqn:E.
    apply (IH Hentry).
    change m' with (fst (m', c)). rewrite <- E.
    now apply propagateEntry_mono.
Qed.

(** A round that does not raise [changed] leaves the table as it is. *)
Lemma propagateRound_unchanged (calls m : JsMap.t (list string)) :
  snd (propagateRound calls m) = false ->
  fst (propagateRound calls m) = m.
Proof.
  unfold propagateRound. revert m.
  induction calls as [| e calls IH]; intros m; cbn [fold_left]; [reflexivity |].
  destruct (propagateEntry (m, false) e) as [m' c] eqn:E.
  destruct c.
  - rewrite fold_propagate_flag. discriminate.
  - assert (H : snd (propagateEntry (m, false) e) = false) by now rewrite E.
    apply propagateEntry_unchanged in H. rewrite H in E.
    injection E as <-. apply IH.
Qed.

Section Closure.
Variable calls : JsMap.t (list string).
Variable target setter : string.

(** After enough rounds every function within [r] calls of the target
    has the setter. *)
Let within (r : nat) (m : JsMap.t (list string)) : Prop :=
  forall j f, j <= r -> callChain calls j f target ->
              In setter (getOrEmpty m f).

Lemma within_round (r : nat) (m : JsMap.t (list string)) :
  within r m -> within (S r) (fst (propagateRound calls m)).
Proof.
  intros H j f Hj Hchain. inversion Hchain as [| n f' g h Hedge Hrest];
    subst.
  - apply propagateRound_mono. apply (H 0 target); [lia | constructor].
  - apply (propagateRound_edge calls m f g setter Hedge).
    apply (H n g); [lia | assumption].
Qed.

Lemma within_fixed (m : JsMap.t (list string)) :
  fst (propagateRound calls m) = m -> within 0 m -> forall r, within r m.
Proof.
  intros Hfix H0 r. induction r as [| r IH]; [assumption |].
  rewrite <- Hfix. now apply within_round.
Qed.

Lemma within_weaken (r r' : nat) (m : JsMap.t (list string)) :
  r' <= r -> within r m -> within r' m.
Proof. intros Hle H j f Hj. apply H. lia. Qed.

Lemma within_propagate (n r : nat) (m : JsMap.t (list string)) :
  within r m -> within (r + n) (propagate n calls m).
Proof.
  revert r m. induction n as [| n IH]; intros r m H; cbn.
  - now rewrite Nat.add_0_r.
  - destruct (propagateRound calls m) as [next changed] eqn:E.
    assert (Hnext : within (S r) next).
    { change next with (fst (next, changed)). rewrite <- E.
      now apply within_round. }
    destruct changed.
    + replace (r + S n) with (S r + n) by lia. now apply IH.
    + assert (Hfix : fst (propagateRound calls m) = m).
      { apply propagateRound_unchanged. now rewrite E. }
      rewrite E in Hfix. cbn in Hfix. subst next.
      apply within_fixed.
      * now rewrite E.
      * apply (within_weaken (S r)); [lia | assumption].
Qed.

Lemma propagate_reaches (n j : nat) (m : JsMap.t (list string)) (f : string) :
  j <= n -> callChain calls j f target ->
  In setter (getOrEmpty m target) ->
  In setter (getOrEmpty (propagate n calls m) f).
Proof.
  intros Hj Hchain H0.
  apply (within_propagate n 0 m) with (j := j); [| lia | assumption].
  intros j' f' Hj' Hc. assert (j' = 0) as -> by lia.
  inversion Hc; subst. assumption.
Qed.
End Closure.

Lemma iterationsRun_bounded (n : nat) (calls m : JsMap.t (list string)) :
  iterationsRun n calls m <= n.
Proof.
  revert m. induction n as [| n IH]; intros m; cbn; [lia |].
  destruct (propagateRound calls m) as [next changed].
  destruct changed; [specialize (IH next) |]; lia.
Qed.

(** C4, as the code has it.  [buildLocalFunctionSetterMap] is defined on
    every syntax tree, and the loop of its third pass runs at most
    [maxIterations] (100) times.  In its result a function has every
    setter that is called directly by a function it reaches through a
    chain of at most [maxIterations] local calls.  In particular, when
    [A] calls [B], [B] calls [A], and each of them reaches a direct
    caller of the setter within that many calls, the map gives the
    setter to both. *)
Theorem local_setter_map_bounded_closure :
  forall (ast : node) (stateInfo : JsMap.t string),
    let calls := localCalls ast in
    let direct := directSetters ast stateInfo in
    let result := buildLocalFunctionSetterMap ast stateInfo in
    iterationsRun maxIterations calls direct <= maxIterations /\
    (forall (f g setter : string) (n : nat),
        n <= maxIterations ->
        callChain calls n f g ->
        In setter (getOrEmpty direct g) ->
        In setter (getOrEmpty result f)) /\
    (forall (A B gA gB setter : string) (nA nB : nat),
        In B (getOrEmpty calls A) ->
        In A (getOrEmpty calls B) ->
        nA <= maxIterations -> callChain calls nA A gA ->
        In setter (getOrEmpty direct gA) ->
        nB <= maxIterations -> callChain calls nB B gB ->
        In setter (getOrEmpty direct gB) ->
        In setter (getOrEmpty result A) /\ In setter (getOrEmpty result B)).
Proof.
  intros ast stateInfo calls direct result.
  assert (Hreach : forall (f g setter : string) (n : nat),
             n <= maxIterations -> callChain calls n f g ->
             In setter (getOrEmpty direct g) ->
             In setter (getOrEmpty result f)).
  { intros f g setter n Hn Hchain Hdirect.
    unfold result, buildLocalFunctionSetterMap.
    now apply (propagate_reaches calls g setter maxIterations n). }
  split; [apply iterationsRun_bounded |].
  split; [exact Hreach |].
  intros A B gA gB setter nA nB _ _ HnA HcA HdA HnB HcB HdB. split.
  - now apply (Hreach A gA setter nA).
  - now apply (Hreach B gB setter nB).
Qed.

Lemma local_setter_map_witness :
  let calls := localCalls Samples.mutualProgram in
  let direct := directSetters Samples.mutualProgram Samples.xState in
  (In "B" (getOrEmpty calls "A") /\ In "A" (getOrEmpty calls "B") /\
   callChain calls 1 "A" "B" /\ callChain calls 0 "B" "B" /\
   In "setX" (getOrEmpty direct "B")) /\
  In "setX" (getOrEmpty (buildLocalFunctionSetterMap Samples.mutualProgram
                           Samples.xState) "A") /\
  In "setX" (getOrEmpty (buildLocalFunctionSetterMap Samples.mutualProgram
                           Samples.xState) "B").
Proof.
  intros calls direct.
  assert (HAB : In "B" (getOrEmpty calls "A")) by (vm_compute; tauto).
  assert (HBA : In "A" (getOrEmpty calls "B")) by (vm_compute; tauto).
  assert (Hd : In "setX" (getOrEmpty direct "B")) by (vm_compute; tauto).
  assert (H0 : callChain calls 0 "B" "B") by constructor.
  assert (H1 : callChain calls 1 "A" "B")
    by (apply (chain_cons calls 0 "A" "B" "B" HAB H0)).
  split; [repeat split; assumption |].
  apply (proj2 (proj2 (local_setter_map_bounded_closure Samples.mutualProgram
                         Samples.xState))
           "A" "B" "B" "B" "setX" 1 0 HAB HBA);
    try assumption; unfold maxIterations; lia.
Defined.

Lemma helper_chain (calls : JsMap.t (list string)) (n k : nat) :
  (forall j, k <= j < k + n ->
             In (Samples.helperName (S j))
                (getOrEmpty calls (Samples.helperName j))) ->
  callChain calls n (Samples.helperName k) (Samples.helperName (k + n)).
Proof.
  revert k. induction n as [| n IH]; intros k H.
  - rewrite Nat.add_0_r. constructor.
  - apply (chain_cons calls n _ (Samples.helperName (S k))).
    + apply H. lia.
    + replace (k + S n) with (S k + n) by lia. apply IH.
      intros j Hj. apply H. lia.
Qed.

(** C4, counterexample to the statement of the specification.  In the
    program
    [function A() { B(); g1(); }  function B() { A(); }
     function g1() { g2(); } ... function g100() { g101(); }
     function g101() { setX(1); }]
    [A] calls [B], [B] calls [A], and both reach the setter ([A] through
    101 local calls, [B] through 102), yet the loop stops at its
    hundredth round and the map has the setter neither for [A] nor for
    [B]. *)
Lemma long_chain_escapes_the_map :
  let ast := Samples.chainProgram 101 in
  let calls := localCalls ast in
  In "B" (getOrEmpty calls "A") /\
  In "A" (getOrEmpty calls "B") /\
  callChain calls 101 "A" (Samples.helperName 101) /\
  callChain calls 102 "B" (Samples.helperName 101) /\
  In "setX" (getOrEmpty (directSetters ast Samples.xState)
               (Samples.helperName 101)) /\
  ~ In "setX" (getOrEmpty (buildLocalFunctionSetterMap ast Samples.xState) "A")
  /\
  ~ In "setX" (getOrEmpty (buildLocalFunctionSetterMap ast Samples.xState) "B").
Proof.
  intros ast calls.
  assert (HAB : In "B" (getOrEmpty calls "A")) by (apply (proj1 (strIn_In _ _)); vm_compute; reflexivity).
  assert (HBA : In "A" (getOrEmpty calls "B")) by (apply (proj1 (strIn_In _ _)); vm_compute; reflexivity).
  assert (HA1 : In (Samples.helperName 1) (getOrEmpty calls "A"))
    by (apply (proj1 (strIn_In _ _)); vm_compute; reflexivity).
  assert (Hedges : forallb
            (fun j => strIn (Samples.helperName (S j))
                        (getOrEmpty calls (Samples.helperName j)))
            (seq 1 100) = true) by (vm_compute; reflexivity).
  assert (Hd : In "setX" (getOrEmpty (directSetters ast Samples.xState)
                            (Samples.helperName 101)))
    by (apply (proj1 (strIn_In _ _)); vm_compute; reflexivity).
  assert (HnA : ~ In "setX" (getOrEmpty (buildLocalFunctionSetterMap ast
                                           Samples.xState) "A"))
    by (vm_compute; intros []).
  assert (HnB : ~ In "setX" (getOrEmpty (buildLocalFunctionSetterMap ast
                                           Samples.xState) "B"))
    by (vm_compute; intros []).
  clearbody calls. clearbody ast.
  assert (Hchain : callChain calls 100 (Samples.helperName 1)
                     (Samples.helperName 101)).
  { apply (helper_chain calls 100 1). intros j Hj.
    pose proof (proj1 (forallb_forall _ _) Hedges j) as Hall.
    cbv beta in Hall.
    apply (proj1 (strIn_In _ _)). apply Hall. apply in_seq. lia. }
  assert (HcA : callChain calls 101 "A" (Samples.helperName 101))
    by (exact (chain_cons calls 100 "A" _ _ HA1 Hchain)).
  assert (HcB : callChain calls 102 "B" (Samples.helperName 101))
    by (exact (chain_cons calls 101 "B" "A" _ HBA HcA)).
  split; [exact HAB |]. split; [exact HBA |]. split; [exact HcA |].
  split; [exact HcB |]. split; [exact Hd |]. split; [exact HnA | exact HnB].
Qed.

(** ** Stability of call results *)

(** C7, as the code has it.  For a call of an identifier that is
    neither a built-in stable hook nor a known stable function, under a
    configuration: a name configured unstable yields [false], also when
    it is configured stable as well; a name configured stable and not
    configured unstable yields [true]; in both cases the type checker is
    not asked, whatever it would answer.  The type checker is asked only
    when the configuration resolves the name neither way. *)
Theorem configuration_precedes_type_checker :
  forall (line : nat) (name : string) (args : list node)
         (context : option StabilityCheckContext)
         (typeChecker : option TypeChecker) (config : StabilityConfig),
    strIn name STABLE_REACT_HOOKS = false ->
    strIn name STABLE_FUNCTION_CALLS = false ->
    let init := CallExpression line (Identifier name) args in
    (isConfiguredUnstableHook name config = true ->
     isStableFunctionCallM init context typeChecker (Some config)
     = (false, [])) /\
    (isConfiguredUnstableHook name config = false ->
     isConfiguredStableHook name config = true ->
     isStableFunctionCallM init context typeChecker (Some config)
     = (true, [])) /\
    (snd (isStableFunctionCallM init context typeChecker (Some config)) <> [] ->
     isConfiguredUnstableHook name config = false /\
     isConfiguredStableHook name config = false).
Proof.
  intros line name args context typeChecker config Hhook Hcall init.
  unfold init, isStableFunctionCallM. cbn [callCallee].
  rewrite Hhook, Hcall.
  destruct (isConfiguredUnstableHook name config);
    destruct (isConfiguredStableHook name config);
    repeat split; intros; try discriminate; try reflexivity;
    try (exfalso; cbn in *; congruence).
Qed.

Lemma configuration_precedes_type_checker_witness :
  (strIn "useStore" STABLE_REACT_HOOKS = false /\
   strIn "useStore" STABLE_FUNCTION_CALLS = false /\
   isConfiguredUnstableHook "useStore" Samples.stableOnlyConfig = false /\
   isConfiguredStableHook "useStore" Samples.stableOnlyConfig = true) /\
  isStableFunctionCallM Samples.useStoreCall Samples.sampleContext
    (Some Samples.pessimist) (Some Samples.stableOnlyConfig) = (true, []) /\
  isStableFunctionCallM Samples.useStoreCall Samples.sampleContext
    (Some Samples.optimist) (Some Samples.unstableOnlyConfig) = (false, []).
Proof.
  split; [repeat split |]. split.
  - exact (proj1 (proj2 (configuration_precedes_type_checker 4 "useStore" []
                           Samples.sampleContext (Some Samples.pessimist)
                           Samples.stableOnlyConfig eq_refl eq_refl))
             eq_refl eq_refl).
  - exact (proj1 (configuration_precedes_type_checker 4 "useStore" []
                    Samples.sampleContext (Some Samples.optimist)
                    Samples.unstableOnlyConfig eq_refl eq_refl)
             eq_refl).
Defined.

(** C7, counterexample to the statement of the specification.
    [useStore] is
    configured stable (and unstable as well), the type checker calls
    its return type stable, and [isStableFunctionCall] answers
    [false]. *)
Lemma configured_stable_yet_unstable :
  isConfiguredStableHook "useStore" Samples.bothWaysConfig = true /\
  strIn "useStore" STABLE_REACT_HOOKS = false /\
  strIn "useStore" STABLE_FUNCTION_CALLS = false /\
  isStableFunctionCall Samples.useStoreCall Samples.sampleContext
    (Some Samples.optimist) (Some Samples.bothWaysConfig) = false.
Proof. repeat split. Qed.

(** ** Effects without a dependency array *)

Lemma missingDepsFinding_fields (stateInfo : JsMap.t string)
  (filePath hookName : string) (line : nat) (setterCalls functionCalls
  : list string) (finding : HookAnalysis) :
  In finding (missingDepsFinding stateInfo filePath hookName line setterCalls
                functionCalls) ->
  ha_line finding = line /\ ha_hookType finding = hookName.
Proof.
  unfold missingDepsFinding. destruct setterCalls; [intros [] |].
  intros [<- | []]. split; reflexivity.
Qed.

Lemma reportForCall_shape (isHookIgnored : string -> nat -> bool)
  (stateInfo : JsMap.t string) (filePath : string)
  (fileContent : option string) (callers methods : JsMap.t (list string))
  (s : site) (finding : HookAnalysis) :
  In finding (reportForCall isHookIgnored stateInfo filePath fileContent
                callers methods s) ->
  exists line hookName callback,
    s_node s = CallExpression line (Identifier hookName) [callback] /\
    isEffectHookName hookName = true /\
    isFunctionLiteral callback = true /\
    ha_line finding = line /\ ha_hookType finding = hookName.
Proof.
  unfold reportForCall.
  destruct (s_node s) as [ | | | | | | | | | line callee args | | | | | | | | |
                          | | | | | | | | | | | ]; try (intros []).
  destruct callee as [hookName | | | | | | | | | | | | | | | | | | | | | | |
                      | | | | | | ]; try (intros []).
  destruct (isEffectHookName hookName) eqn:Ehook; cbn [negb]; [| intros []].
  destruct args as [| callback [| x rest]]; try (intros []).
  destruct (isFunctionLiteral callback) eqn:Elit; cbn [negb]; [| intros []].
  case_if; [intros [] |].
  destruct (fold_left _ _ _) as [setterCalls functionCalls].
  intros H. apply missingDepsFinding_fields in H.
  exists line, hookName, callback. tauto.
Qed.

(** C10.  Every finding of [detectUseEffectWithoutDeps] comes from a
    call of [useEffect] or [useLayoutEffect] whose callee is that
    identifier, with exactly one argument, an arrow function or a
    function expression; the finding carries the line and the hook name
    of that call.  A call whose only argument is an identifier, or that
    has two or more arguments, adds nothing to the findings, whatever
    the local functions and object methods that reach setters. *)
Theorem missing_deps_needs_one_inline_callback :
  forall (isHookIgnored : string -> nat -> bool) (ast : node)
         (stateInfo : JsMap.t string) (filePath : string)
         (fileContent : option string),
    (forall finding,
        In finding (detectUseEffectWithoutDeps isHookIgnored ast stateInfo
                      filePath fileContent) ->
        exists s line hookName callback,
          In s (walk ast) /\
          s_node s = CallExpression line (Identifier hookName) [callback] /\
          isEffectHookName hookName = true /\
          isFunctionLiteral callback = true /\
          ha_line finding = line /\ ha_hookType finding = hookName) /\
    (exists callers methods,
        detectUseEffectWithoutDeps isHookIgnored ast stateInfo filePath
          fileContent =
        flat_map (reportForCall isHookIgnored stateInfo filePath fileContent
                    callers methods) (walk ast)) /\
    (forall callers methods s line callee args,
        s_node s = CallExpression line callee args ->
        (exists f, args = [Identifier f]) \/ 2 <= length args ->
        reportForCall isHookIgnored stateInfo filePath fileContent
          callers methods s = []).
Proof.
  intros isHookIgnored ast stateInfo filePath fileContent.
  unfold detectUseEffectWithoutDeps.
  destruct (fold_left _ _ _) as [callers methods].
  split; [| split].
  - intros finding H. apply in_flat_map in H. destruct H as [s [Hs Hf]].
    apply reportForCall_shape in Hf.
    destruct Hf as [line [hookName [callback Hrest]]].
    exists s, line, hookName, callback. tauto.
  - now exists callers, methods.
  - intros callers' methods' s line callee args Hnode Hargs.
    unfold reportForCall. rewrite Hnode.
    destruct callee; try reflexivity.
    case_if; [reflexivity |].
    destruct Hargs as [[f ->] | Hlen].
    + reflexivity.
    + destruct args as [| a [| b rest]]; cbn in Hlen; try lia. reflexivity.
Qed.

Lemma missing_deps_witness :
  let findings :=
    detectUseEffectWithoutDeps Samples.neverIgnored Samples.effectsProgram
      Samples.countState "App.tsx" None in
  (exists finding, findings = [finding] /\ ha_line finding = 4) /\
  exists s line hookName callback,
    In s (walk Samples.effectsProgram) /\
    s_node s = CallExpression line (Identifier hookName) [callback] /\
    isEffectHookName hookName = true /\
    isFunctionLiteral callback = true /\
    line = 4 /\ hookName = "useEffect".
Proof.
  intros findings.
  assert (Hone : exists finding, findings = [finding] /\ ha_line finding = 4)
    by (eexists; split; [vm_compute; reflexivity | reflexivity]).
  split; [exact Hone |].
  destruct Hone as [finding [Hf Hl]].
  destruct (proj1 (missing_deps_needs_one_inline_callback Samples.neverIgnored
                     Samples.effectsProgram Samples.countState "App.tsx" None)
              finding)
    as [s [line [hookName [callback [Hin [Hn [Hh [Hc [Hline Hhook]]]]]]]]].
  - fold findings. rewrite Hf. now left.
  - exists s, line, hookName, callback.
    repeat split; try assumption.
    + now rewrite <- Hline.
    + rewrite <- Hhook.
      assert (Hin1 : In finding findings) by (rewrite Hf; now left).
      unfold findings in Hf. vm_compute in Hf. injection Hf as <-.
      reflexivity.
Defined.

(** ** Unstable variables *)

Lemma JsMap_set_In {V} (m : JsMap.t V) (k k' : string) (v v' : V) :
  In (k', v') (JsMap.set m k v) -> (k', v') = (k, v) \/ In (k', v') m.
Proof.
  induction m as [| [k0 v0] m IH]; cbn.
  - intros [H | []]. left. now symmetry.
  - destruct (String.eqb k k0) eqn:E; cbn.
    + apply String.eqb_eq in E. subst k0.
      intros [H | H]; [left; now symmetry | right; now right].
    + intros [H | H]; [right; now left |].
      destruct (IH H); [now left | right; now right].
Qed.

Lemma JsMap_delete_In {V} (m : JsMap.t V) (k k' : string) (v : V) :
  NoDup (JsMap.keys m) ->
  In (k', v) (JsMap.delete m k) -> In (k', v) m /\ k' <> k.
Proof.
  induction m as [| [k0 v0] m IH]; cbn; [intros _ [] |].
  intros Hnd. inversion Hnd as [| ? ? Hk0 Hm]; subst.
  destruct (String.eqb k k0) eqn:E.
  - apply String.eqb_eq in E. subst k0. intros H. split; [now right |].
    intros ->. apply Hk0. unfold JsMap.keys.
    change k with (fst (k, v)). now apply in_map.
  - intros [H | H].
    + injection H as <- <-. split; [now left |].
      intros ->. now rewrite String.eqb_refl in E.
    + destruct (IH Hm H). split; [now right | assumption].
Qed.

Lemma JsMap_delete_keys {V} (m : JsMap.t V) (k : string) :
  NoDup (JsMap.keys m) -> NoDup (JsMap.keys (JsMap.delete m k)).
Proof.
  induction m as [| [k0 v0] m IH]; cbn; [constructor |].
  intros Hnd. inversion Hnd as [| ? ? Hk0 Hm]; subst.
  destruct (String.eqb k k0); [assumption |]. cbn. constructor.
  - intros Hin. apply Hk0. unfold JsMap.keys in *.
    apply in_map_iff in Hin. destruct Hin as [[k1 v1] [Hfst Hin]].
    cbn in Hfst. subst k1.
    destruct (JsMap_delete_In m k k0 v1 Hm Hin) as [Hin' _].
    change k0 with (fst (k0, v1)). now apply in_map.
  - now apply IH.
Qed.

Lemma fold_delete_In {V} (keys : list string) (m : JsMap.t V) (k : string)
  (v : V) :
  NoDup (JsMap.keys m) ->
  In (k, v) (fold_left (fun m key => JsMap.delete m key) keys m) ->
  In (k, v) m /\ ~ In k keys.
Proof.
  revert m. induction keys as [| key keys IH]; intros m Hnd; cbn.
  - tauto.
  - intros H.
    destruct (IH (JsMap.delete m key) (JsMap_delete_keys m key Hnd) H)
      as [Hin Hnot].
    destruct (JsMap_delete_In m key k v Hnd Hin) as [Hin' Hne].
    split; [assumption |]. intros [-> | Hk]; [now apply Hne | now apply Hnot].
Qed.

Lemma startsUpperCase_nonempty (c : string) :
  startsUpperCase c = true -> truthyString (Some c) = Some c.
Proof. destruct c; [discriminate | reflexivity]. Qed.

Section ExtractionFacts.
Variable filePath : option string.
Variable typeChecker : option TypeChecker.
Variable config : option StabilityConfig.

Lemma invariant_same (st st' : ExtractState) :
  unstableVars st' = unstableVars st ->
  componentStack st' = componentStack st ->
  extractInvariant st -> extractInvariant st'.
Proof.
  unfold extractInvariant. intros -> ->. tauto.
Qed.

Lemma invariant_current (st : ExtractState) (comp : ComponentBoundaryInfo) :
  extractInvariant st -> getCurrentComponent st = Some comp ->
  startsUpperCase (cb_name comp) = true.
Proof.
  intros [_ [_ Hstack]]. unfold getCurrentComponent.
  destruct (componentStack st) as [| top rest]; [discriminate |].
  intros [= <-]. now inversion Hstack.
Qed.

Lemma invariant_set (st : ExtractState) (comp : ComponentBoundaryInfo)
  (name : string) (kind : UnstableKind) (line : nat) :
  startsUpperCase (cb_name comp) = true ->
  extractInvariant st ->
  extractInvariant
    (withUnstable
       (JsMap.set (unstableVars st) (unstableKey comp name)
          (unstableEntry name kind line comp)) st).
Proof.
  intros Hup [Hnd [Hentries Hstack]]. unfold extractInvariant. cbn.
  split; [now apply JsMap_set_keys |]. split; [| assumption].
  intros k u Hin. apply JsMap_set_In in Hin. destruct Hin as [[= -> ->] | Hin].
  - exists (cb_name comp). split; [reflexivity | assumption].
  - now apply (Hentries k u).
Qed.

Lemma invariant_setUnstable (st : ExtractState)
  (comp : ComponentBoundaryInfo) (name : string) (kind : UnstableKind)
  (line : nat) :
  getCurrentComponent st = Some comp ->
  extractInvariant st ->
  extractInvariant (setUnstable name kind line comp st).
Proof.
  intros Hcur Hinv. unfold setUnstable.
  apply invariant_set; [| assumption].
  now apply (invariant_current st comp).
Qed.

Lemma invariant_destructured (names : list string) (st : ExtractState)
  (comp : ComponentBoundaryInfo) (kind : UnstableKind) (line : nat) :
  startsUpperCase (cb_name comp) = true ->
  extractInvariant st ->
  extractInvariant
    (withUnstable
       (fold_left
          (fun m name =>
             JsMap.set m (unstableKey comp name)
               (unstableEntry name kind line comp))
          names (unstableVars st)) st).
Proof.
  intros Hup. revert st. induction names as [| name names IH]; intros st H.
  - cbn. apply (invariant_same st); [reflexivity | reflexivity | assumption].
  - cbn [fold_left].
    apply (invariant_set st comp name kind line Hup) in H.
    apply IH in H.
    apply (invariant_same
             (withUnstable
                (fold_left
                   (fun m name0 =>
                      JsMap.set m (unstableKey comp name0)
                        (unstableEntry name0 kind line comp))
                   names
                   (unstableVars
                      (withUnstable
                         (JsMap.set (unstableVars st) (unstableKey comp name)
                            (unstableEntry name kind line comp)) st)))
                (withUnstable
                   (JsMap.set (unstableVars st) (unstableKey comp name)
                      (unstableEntry name kind line comp)) st)));
      [reflexivity | reflexivity | exact H].
Qed.

Lemma invariant_destructure (id : node) (init : option node) (line : nat)
  (st : ExtractState) :
  extractInvariant st ->
  extractInvariant (destructureUnstable filePath typeChecker config id init
                      line st).
Proof.
  intros H. unfold destructureUnstable.
  case_if; [assumption |].
  destruct (getCurrentComponent st) as [comp |] eqn:Ecur; [| assumption].
  unfold addUnstableDestructuredVariables.
  destruct init as [init |].
  - case_if.
    + apply invariant_destructured; [| assumption].
      now apply (invariant_current st comp).
    + apply (invariant_same st); [reflexivity | reflexivity | assumption].
  - apply (invariant_same st); [reflexivity | reflexivity | assumption].
Qed.

Lemma invariant_addStateVars (names : list string) (st : ExtractState) :
  extractInvariant st -> extractInvariant (addStateVars names st).
Proof. apply invariant_same; reflexivity. Qed.

Lemma invariant_declareIdentifier (varName : string) (init : option node)
  (line : nat) (st : ExtractState) :
  extractInvariant st ->
  extractInvariant (declareIdentifier filePath typeChecker config varName
                      init line st).
Proof.
  intros H. unfold declareIdentifier.
  case_if; [now apply (invariant_same st) |].
  case_if; [now apply (invariant_same st) |].
  case_if; [now apply (invariant_same st) |].
  destruct (getCurrentComponent st) as [comp |] eqn:Ecur;
    [| now apply (invariant_same st)].
  destruct init as [init |]; [| assumption].
  destruct init; try assumption;
    try (now apply invariant_setUnstable).
  case_if; [assumption | now apply invariant_setUnstable].
Qed.

Lemma opensComponent_upper (s : site) (boundary : ComponentBoundaryInfo) :
  opensComponent s = Some boundary ->
  startsUpperCase (cb_name boundary) = true.
Proof.
  unfold opensComponent, orElse, componentOfDeclaration, componentOfLiteral.
  destruct (s_node s); cbn; try discriminate;
    repeat match goal with
           | |- context [match ?x with _ => _ end] => is_var x; destruct x
           | |- context [if startsUpperCase ?n then _ else _] =>
               destruct (startsUpperCase n) eqn:?
           | |- context [match s_parent ?p with _ => _ end] =>
               destruct (s_parent p)
           end;
    cbn; intros Heq; try discriminate; injection Heq as <-; assumption.
Qed.

Lemma invariant_open (s : site) (st : ExtractState) :
  extractInvariant st ->
  extractInvariant
    match opensComponent s with
    | Some boundary => withStack (boundary :: componentStack st) st
    | None => st
    end.
Proof.
  intros H. destruct (opensComponent s) as [boundary |] eqn:Eo;
    [| assumption].
  destruct H as [Hnd [Hentries Hstack]].
  unfold extractInvariant. cbn.
  split; [assumption |]. split; [assumption |].
  constructor; [| assumption]. now apply (opensComponent_upper s).
Qed.

Lemma invariant_enter (s : site) (st : ExtractState) :
  extractInvariant st ->
  extractInvariant (extractEnter filePath typeChecker config s st).
Proof.
  intros H. unfold extractEnter.
  destruct (s_node s) eqn:En; try (now apply invariant_open).
  (* VariableDeclarator *)
  match goal with
  | |- context [match ?x with _ => _ end] => is_var x; destruct x
  end; try assumption.
  - now apply invariant_declareIdentifier.
  - unfold declareArrayPattern.
    case_if; [now apply invariant_addStateVars |].
    case_if; [now apply invariant_addStateVars |].
    now apply invariant_destructure.
  - unfold declareObjectPattern.
    destruct (initCalleeName init) as [calleeName |].
    + case_if; [now apply invariant_addStateVars |].
      case_if; [now apply invariant_addStateVars |].
      now apply invariant_destructure.
    + now apply invariant_destructure.
Qed.

Lemma invariant_exit (s : site) (st : ExtractState) :
  extractInvariant st ->
  extractInvariant (extractExit s st).
Proof.
  intros [Hnd [Hentries Hstack]]. unfold extractExit.
  destruct (opensComponent s); [| now repeat split].
  unfold extractInvariant. cbn. repeat split; try assumption.
  destruct (componentStack st); [constructor | now inversion Hstack].
Qed.

Lemma invariant_traversal (ast : node) :
  extractInvariant (extractTraversal filePath typeChecker config ast).
Proof.
  unfold extractTraversal.
  assert (H0 : extractInvariant emptyExtract).
  { unfold extractInvariant. cbn. repeat split; try constructor.
    intros k u []. }
  revert H0. generalize emptyExtract.
  induction (traverse ast) as [| e es IH]; intros st H; cbn [fold_left].
  - assumption.
  - apply IH. destruct e; cbn [extractStep].
    + now apply invariant_enter.
    + now apply invariant_exit.
Qed.
End ExtractionFacts.

(** C6.  Every entry that [extractUnstableVariables] returns names a
    variable that the traversal has not put among the state variables,
    the ref variables or the module-level variables, and that is not
    among the variables memoized (by [useMemo] or [useCallback]) in the
    scope of the component the entry belongs to; every entry does
    belong to a component. *)
Theorem unstable_set_excludes_proven_stable :
  forall (ast : node) (filePath : option string)
         (typeChecker : option TypeChecker) (config : option StabilityConfig)
         (key : string) (u : UnstableVariable),
    In (key, u) (extractUnstableVariables ast filePath typeChecker config) ->
    let st := extractTraversal filePath typeChecker config ast in
    ~ In (uv_name u) (stateVars st) /\
    ~ In (uv_name u) (extractedRefVars st) /\
    ~ In (uv_name u) (moduleLevelVars st) /\
    exists componentName,
      uv_componentName u = Some componentName /\
      ~ In (uv_name u) (getOrEmpty (memoizedVars st) componentName).
Proof.
  intros ast filePath typeChecker config key u Hin st.
  destruct (invariant_traversal filePath typeChecker config ast)
    as [Hnd [Hentries _]]. fold st in Hnd, Hentries.
  unfold extractUnstableVariables in Hin. fold st in Hin.
  apply (fold_delete_In _ _ _ _ Hnd) in Hin. destruct Hin as [Hin Hkept].
  assert (Hproven : provenStable st u = false).
  { destruct (provenStable st u) eqn:E; [| reflexivity].
    exfalso. apply Hkept. unfold keysToDelete. apply in_flat_map.
    exists (key, u). split; [assumption |]. cbn. rewrite E. now left. }
  unfold provenStable in Hproven.
  apply orb_false_iff in Hproven. destruct Hproven as [Hproven Hmodule].
  apply orb_false_iff in Hproven. destruct Hproven as [Hproven Href].
  apply orb_false_iff in Hproven. destruct Hproven as [Hmemo Hstate].
  split; [now apply strIn_false |].
  split; [now apply strIn_false |].
  split; [now apply strIn_false |].
  destruct (Hentries key u Hin) as [c [Hc Hup]].
  exists c. split; [assumption |].
  unfold isMemoizedInComponent in Hmemo.
  rewrite Hc, (startsUpperCase_nonempty c Hup) in Hmemo.
  now apply strIn_false.
Qed.

Lemma unstable_set_witness :
  let st := extractTraversal None None None Samples.panelProgram in
  (exists u, In ("Panel:options", u)
               (extractUnstableVariables Samples.panelProgram None None None) /\
             uv_name u = "options") /\
  ~ In "options" (stateVars st) /\
  In "open" (stateVars st) /\
  JsMap.get (extractUnstableVariables Samples.panelProgram None None None)
    "Panel:open" = None.
Proof.
  intros st.
  assert (Hin : exists u,
             In ("Panel:options", u)
                (extractUnstableVariables Samples.panelProgram None None None)
             /\ uv_name u = "options").
  { eexists. split; [vm_compute; left; reflexivity | reflexivity]. }
  split; [exact Hin |].
  destruct Hin as [u [Hin Hname]].
  pose proof (unstable_set_excludes_proven_stable Samples.panelProgram
                None None None "Panel:options" u Hin) as H.
  cbv zeta in H. fold st in H. rewrite Hname in H.
  split; [exact (proj1 H) |].
  split; [vm_compute; tauto | vm_compute; reflexivity].
Defined.

(* ================================================================== *)
(** * Part III.  Further properties of the code *)
(* ================================================================== *)

(** ** Guards *)

Lemma nodesAreEquivalent_sym (a : node) :
  forall b, nodesAreEquivalent a b = nodesAreEquivalent b a.
Proof.
  induction a; intros b; destruct b; cbn [nodesAreEquivalent]; try reflexivity.
  - apply String.eqb_sym.
  - destruct value, value0; reflexivity.
  - apply Z.eqb_sym.
  - apply String.eqb_sym.
  - rewrite (IHa1 b1).
    destruct (nodesAreEquivalent b1 a1); cbn [negb]; [| reflexivity].
    destruct computed, computed0;
    destruct a2, b2; cbn [identName stringValue];
      solve [ reflexivity | apply String.eqb_sym | apply IHa2 ].
Qed.

Lemma isIdentifierNamed_eq (x : string) (n : node) :
  isIdentifierNamed x n = true -> n = Identifier x.
Proof.
  destruct n; cbn; try discriminate.
  intros H. apply String.eqb_eq in H. now subst.
Qed.

Lemma derivedStateMatch_sym (l r : node) (stateVar : string)
  (setterArg : option node) :
  derivedStateMatch l r stateVar setterArg =
  derivedStateMatch r l stateVar setterArg.
Proof.
  unfold derivedStateMatch.
  destruct (isIdentifierNamed stateVar l) eqn:El;
    destruct (isIdentifierNamed stateVar r) eqn:Er; cbn; try reflexivity.
  apply isIdentifierNamed_eq in El, Er. now subst.
Qed.

(** X1.  Swapping the two operands of a binary condition changes
    neither the verdict of [analyzeCondition] on an effect guard nor
    that of [analyzeRenderGuardCondition] on a render-phase guard. *)
Theorem comparison_operands_commute :
  forall (operator : string) (l r : node) (stateVar : string)
         (setterCall ifStatement : node) (setterName : option string),
    analyzeCondition (BinaryExpression operator l r) stateVar setterCall
      ifStatement setterName =
    analyzeCondition (BinaryExpression operator r l) stateVar setterCall
      ifStatement setterName /\
    analyzeRenderGuardCondition (BinaryExpression operator l r) stateVar
      setterCall =
    analyzeRenderGuardCondition (BinaryExpression operator r l) stateVar
      setterCall.
Proof.
  intros operator l r stateVar setterCall ifStatement setterName. split.
  - cbn [analyzeCondition toggleNegationPattern toggleTruthyPattern
         isIdentifierNamed orElse equalityPattern].
    rewrite (orb_comm (isIdentifierNamed stateVar l)).
    rewrite (orb_comm (isMemberOfState stateVar l)). reflexivity.
  - cbn [analyzeRenderGuardCondition inequalityPattern].
    rewrite (derivedStateMatch_sym l r).
    unfold relatedResetMatch.
    rewrite (andb_comm (isIdentifierOrMember l)). reflexivity.
Qed.

(** X2.  [nodesAreEquivalent] is symmetric, and it is false whenever
    one of the nodes is anything but an identifier, a member expression
    or a number, string, boolean or null literal. *)
Theorem nodesAreEquivalent_symmetric :
  forall a b : node,
    nodesAreEquivalent a b = nodesAreEquivalent b a /\
    (comparableKind a = false -> nodesAreEquivalent a b = false).
Proof.
  intros a b. split; [apply nodesAreEquivalent_sym |].
  destruct a; cbn; try discriminate; reflexivity.
Qed.

Lemma toggleNegation_safe c sv call sn v :
  toggleNegationPattern c sv call sn = Some v -> safeVerdict v.
Proof.
  unfold toggleNegationPattern, safeVerdict.
  repeat (first [ discriminate
                | intros [= <-]; cbn; tauto
                | split_match ]).
Qed.

Lemma toggleTruthy_safe c sv call v :
  toggleTruthyPattern c sv call = Some v -> safeVerdict v.
Proof.
  unfold toggleTruthyPattern, safeVerdict.
  repeat (first [ discriminate
                | intros [= <-]; cbn; tauto
                | split_match ]).
Qed.

Lemma equalityPattern_cases c sv call v :
  equalityPattern c sv call = Some v ->
  safeVerdict v \/
  (v = mkVerdict object_spread_risk false (Some (spreadWarning sv)) /\
   usesObjectSpread (hd_error (callArguments call)) sv = true /\
   exists op l r, c = BinaryExpression op l r /\
     isNotEqualOperator op = true /\
     (isMemberOfState sv l = true \/ isMemberOfState sv r = true)).
Proof.
  unfold equalityPattern, safeVerdict.
  destruct c; try discriminate.
  destruct (isNotEqualOperator operator) eqn:Eop; [| discriminate].
  destruct (isIdentifierNamed sv c1 || isIdentifierNamed sv c2).
  - intros [= <-]. left. cbn. tauto.
  - destruct (isMemberOfState sv c1 || isMemberOfState sv c2) eqn:Em;
      [| discriminate].
    destruct (usesObjectSpread _ sv) eqn:Es.
    + intros [= <-]. right. split; [reflexivity |]. split; [reflexivity |].
      exists operator, c1, c2. split; [reflexivity |]. split; [exact Eop |].
      now apply orb_true_iff.
    + intros [= <-]. left. cbn. tauto.
Qed.

Lemma conjunction_verdict (l r : node) (sv : string) (call ifs : node)
  (sn : option string) :
  analyzeCondition (LogicalExpression "&&" l r) sv call ifs sn =
  if verdictIsSafe (analyzeCondition l sv call ifs sn)
  then analyzeCondition l sv call ifs sn
  else if verdictIsSafe (analyzeCondition r sv call ifs sn)
       then analyzeCondition r sv call ifs sn
       else None.
Proof. reflexivity. Qed.

Lemma analyzeCondition_cases (c : node) (sv : string) (call ifs : node)
  (sn : option string) (v : ConditionVerdict) :
  analyzeCondition c sv call ifs sn = Some v ->
  safeVerdict v \/
  (v = mkVerdict object_spread_risk false (Some (spreadWarning sv)) /\
   usesObjectSpread (hd_error (callArguments call)) sv = true /\
   exists op l r, c = BinaryExpression op l r /\
     isNotEqualOperator op = true /\
     (isMemberOfState sv l = true \/ isMemberOfState sv r = true)).
Proof.
  revert v.
  induction c; intros v; cbn [analyzeCondition]; unfold orElse;
    try (destruct (toggleNegationPattern _ sv call sn) eqn:E1;
         [intros [= <-]; left; exact (toggleNegation_safe _ _ _ _ _ E1) |];
         destruct (toggleTruthyPattern _ sv call) eqn:E2;
         [intros [= <-]; left; exact (toggleTruthy_safe _ _ _ _ E2) |];
         destruct (equalityPattern _ sv call) eqn:E3;
         [intros [= <-]; exact (equalityPattern_cases _ _ _ _ E3) |];
         try discriminate).
  (* LogicalExpression *)
  destruct (String.eqb operator "&&"); [| discriminate].
  destruct (analyzeCondition c1 sv call ifs sn) as [v1 |] eqn:El; cbn.
  - destruct (cv_isSafe v1) eqn:Es1.
    + intros [= <-]. left.
      destruct (IHc1 v1 eq_refl) as [H | [-> _]]; [exact H | discriminate].
    + destruct (analyzeCondition c2 sv call ifs sn) as [v2 |] eqn:Er; cbn;
        [| discriminate].
      destruct (cv_isSafe v2) eqn:Es2; [| discriminate].
      intros [= <-]. left.
      destruct (IHc2 v2 eq_refl) as [H | [-> _]]; [exact H | discriminate].
  - destruct (analyzeCondition c2 sv call ifs sn) as [v2 |] eqn:Er; cbn;
      [| discriminate].
    destruct (cv_isSafe v2) eqn:Es2; [| discriminate].
    intros [= <-]. left.
    destruct (IHc2 v2 eq_refl) as [H | [-> _]]; [exact H | discriminate].
Qed.

(** X3.  A verdict of [analyzeCondition] is either safe, of type
    toggle-guard or equality-guard and without a warning, or it is the
    unsafe object-spread-risk verdict with its warning about the state
    variable; the latter arises only when the condition itself is a
    [!=] or [!==] comparison with a member of the state variable on one
    side and [usesObjectSpread] holds of the first argument of the
    setter call. *)
Theorem condition_verdict_classification :
  forall (c : node) (stateVar : string) (setterCall ifStatement : node)
         (setterName : option string) (v : ConditionVerdict),
    analyzeCondition c stateVar setterCall ifStatement setterName = Some v ->
    (cv_isSafe v = true /\ cv_warning v = None /\
     (cv_type v = toggle_guard \/ cv_type v = equality_guard)) \/
    (v = mkVerdict object_spread_risk false (Some (spreadWarning stateVar)) /\
     usesObjectSpread (hd_error (callArguments setterCall)) stateVar = true /\
     exists op l r, c = BinaryExpression op l r /\
       isNotEqualOperator op = true /\
       (isMemberOfState stateVar l = true \/
        isMemberOfState stateVar r = true)).
Proof. intros. eapply analyzeCondition_cases; eassumption. Qed.

Lemma condition_verdict_classification_witness :
  let v := mkVerdict object_spread_risk false (Some (spreadWarning "user")) in
  analyzeCondition GuardCases.riskTest "user" GuardCases.riskCall
    GuardCases.riskIf (Some "setUser") = Some v /\
  usesObjectSpread (hd_error (callArguments GuardCases.riskCall)) "user"
  = true.
Proof.
  intros v.
  assert (H : analyzeCondition GuardCases.riskTest "user" GuardCases.riskCall
                GuardCases.riskIf (Some "setUser") = Some v)
    by (vm_compute; reflexivity).
  split; [exact H |].
  destruct (condition_verdict_classification _ _ _ _ _ _ H)
    as [[Hs _] | [_ [Hspread _]]]; [discriminate | exact Hspread].
Defined.

Lemma truthyString_Some (o : option string) (sv : string) :
  truthyString o = Some sv -> o = Some sv /\ sv <> EmptyString.
Proof.
  destruct o as [[| c s] |]; cbn; try discriminate.
  intros [= <-]. split; [reflexivity | discriminate].
Qed.

Lemma guardAtAncestor_cases (call : nref) (sn sv : string) (a : nref)
  (g : GuardedModification) :
  guardAtAncestor call sn sv a = Some g ->
  (exists c cons alt v,
      rnode a = IfStatement c cons alt /\
      analyzeCondition c sv (rnode call) (rnode a) (Some sn) = Some v /\
      g = mkGuarded sn sv (cv_type v) (cv_isSafe v) (cv_warning v)) \/
  (exists body,
      rnode a = BlockStatement body /\
      checkEarlyReturnPattern a call sv = true /\
      g = mkGuarded sn sv early_return true None).
Proof.
  unfold guardAtAncestor, orElse.
  destruct (rnode a) eqn:Ea; try discriminate.
  - destruct (analyzeCondition _ _ _ _ _) as [v |] eqn:Ev; [| discriminate].
    intros [= <-]. left.
    match type of Ev with
    | analyzeCondition ?c _ _ (IfStatement _ ?cons ?alt) _ = _ =>
        exists c, cons, alt, v
    end.
    repeat split. exact Ev.
  - destruct (checkEarlyReturnPattern a call sv) eqn:Ec; [| discriminate].
    intros [= <-]. right. eexists. repeat split.
Qed.

Lemma conditionalGuard_shape :
  forall (setterCall : nref) (ancestorStack : list nref)
         (setterName : string) (stateVar : option string)
         (allStateVars : list string) (g : GuardedModification),
    analyzeConditionalGuard setterCall ancestorStack setterName stateVar
      allStateVars = Some g ->
    gm_setter g = setterName /\
    stateVar = Some (gm_stateVariable g) /\
    gm_stateVariable g <> EmptyString /\
    ((gm_isSafe g = true /\ gm_warning g = None /\
      (gm_guardType g = toggle_guard \/ gm_guardType g = equality_guard \/
       gm_guardType g = early_return)) \/
     (gm_isSafe g = false /\ gm_guardType g = object_spread_risk /\
      gm_warning g = Some (spreadWarning (gm_stateVariable g)) /\
      usesObjectSpread (hd_error (callArguments (rnode setterCall)))
        (gm_stateVariable g) = true /\
      exists a op l r cons alt,
        In a ancestorStack /\
        rnode a = IfStatement (BinaryExpression op l r) cons alt /\
        isNotEqualOperator op = true)).
Proof.
  intros call stack sn stateVar all g H.
  unfold analyzeConditionalGuard in H.
  destruct (truthyString stateVar) as [sv |] eqn:Esv; [| discriminate].
  apply truthyString_Some in Esv. destruct Esv as [-> Hne].
  apply firstSome_Some in H. destruct H as [a [Hin Ha]].
  apply in_rev in Hin.
  apply guardAtAncestor_cases in Ha.
  destruct Ha as [[c [cons [alt [v [Hnode [Hv ->]]]]]] | [body [Hnode [Hc ->]]]];
    cbn.
  - split; [reflexivity |]. split; [reflexivity |]. split; [exact Hne |].
    destruct (analyzeCondition_cases _ _ _ _ _ _ Hv)
      as [[Hs [Hw Ht]] | [-> [Hspread [op [l [r [-> [Hop _]]]]]]]].
    + left. rewrite Hs, Hw. tauto.
    + right. cbn. repeat split; try assumption.
      exists a, op, l, r, cons, alt. tauto.
  - split; [reflexivity |]. split; [reflexivity |]. split; [exact Hne |].
    left. tauto.
Qed.

(** X4.  A record returned by [analyzeConditionalGuard] carries the
    setter name it was asked about and the state variable passed in,
    which is not empty.  It is either safe (toggle guard, equality guard
    or early return, without a warning), or unsafe of type
    object-spread-risk with the warning, and then an ancestor is an [if]
    statement whose test is a [!=] or [!==] comparison and
    [usesObjectSpread] holds of the first argument of the call. *)
Theorem guard_record_shape :
  forall (setterCall : nref) (ancestorStack : list nref)
         (setterName : string) (stateVar : option string)
         (allStateVars : list string) (g : GuardedModification),
    analyzeConditionalGuard setterCall ancestorStack setterName stateVar
      allStateVars = Some g ->
    gm_setter g = setterName /\
    stateVar = Some (gm_stateVariable g) /\
    gm_stateVariable g <> EmptyString /\
    ((gm_isSafe g = true /\ gm_warning g = None /\
      (gm_guardType g = toggle_guard \/ gm_guardType g = equality_guard \/
       gm_guardType g = early_return)) \/
     (gm_isSafe g = false /\ gm_guardType g = object_spread_risk /\
      gm_warning g = Some (spreadWarning (gm_stateVariable g)) /\
      usesObjectSpread (hd_error (callArguments (rnode setterCall)))
        (gm_stateVariable g) = true /\
      exists a op l r cons alt,
        In a ancestorStack /\
        rnode a = IfStatement (BinaryExpression op l r) cons alt /\
        isNotEqualOperator op = true)).
Proof. exact conditionalGuard_shape. Qed.

Lemma guard_record_shape_witness :
  analyzeConditionalGuard (s_ref GuardCases.riskSite)
    (getAncestorStack GuardCases.riskSite) "setUser" (Some "user") ["user"]
  = Some GuardCases.riskGuard /\
  gm_setter GuardCases.riskGuard = "setUser" /\
  Some "user" = Some (gm_stateVariable GuardCases.riskGuard).
Proof.
  assert (H : analyzeConditionalGuard (s_ref GuardCases.riskSite)
                (getAncestorStack GuardCases.riskSite) "setUser" (Some "user")
                ["user"] = Some GuardCases.riskGuard)
    by (vm_compute; reflexivity).
  split; [exact H |].
  destruct (guard_record_shape _ _ _ _ _ _ H) as [H1 [H2 _]].
  split; [exact H1 | exact H2].
Defined.

Lemma findSetterIndex_Some (block : position) (body : list node)
  (call : nref) :
  forall i k,
  findSetterIndex block i body call = Some k ->
  i <= k /\
  (exists stmt, nth_error body (k - i) = Some stmt /\
                containsNode (mkRef (k :: block) stmt) call = true) /\
  (forall j stmt, j < k - i -> nth_error body j = Some stmt ->
                  containsNode (mkRef (i + j :: block) stmt) call = false).
Proof.
  induction body as [| stmt rest IH]; intros i k; cbn; [discriminate |].
  destruct (containsNode (mkRef (i :: block) stmt) call) eqn:E.
  - intros [= <-]. split; [lia |]. rewrite Nat.sub_diag. split.
    + exists stmt. now split.
    + intros j s Hj. lia.
  - intros H. apply IH in H. destruct H as [Hle [[s [Hn Hc]] Hbefore]].
    split; [lia |]. split.
    + exists s. split; [| exact Hc].
      replace (k - i) with (S (k - S i)) by lia. exact Hn.
    + intros j s0 Hj Hnth. destruct j as [| j]; cbn in Hnth.
      * injection Hnth as <-. now rewrite Nat.add_0_r.
      * replace (i + S j) with (S i + j) by lia.
        apply Hbefore; [lia | exact Hnth].
Qed.

Lemma findSetterIndex_first (block : position) (body : list node)
  (call : nref) :
  forall i k,
  (exists stmt, nth_error body k = Some stmt /\
                containsNode (mkRef (i + k :: block) stmt) call = true) ->
  (forall j stmt, j < k -> nth_error body j = Some stmt ->
                  containsNode (mkRef (i + j :: block) stmt) call = false) ->
  findSetterIndex block i body call = Some (i + k).
Proof.
  induction body as [| stmt rest IH]; intros i k [s [Hn Hc]] Hbefore.
  - destruct k; discriminate.
  - cbn. destruct k as [| k]; cbn in Hn.
    + injection Hn as ->. rewrite Nat.add_0_r in *. now rewrite Hc.
    + rewrite <- (Nat.add_0_r i) at 1.
      rewrite (Hbefore 0 stmt); [| lia | reflexivity].
      replace (i + S k) with (S i + k) by lia.
      apply IH.
      * exists s. split; [exact Hn |].
        now replace (S i + k) with (i + S k) by lia.
      * intros j s0 Hj Hnth.
        replace (S i + j) with (i + S j) by lia.
        apply Hbefore; [lia | exact Hnth].
Qed.

(** X5.  [checkEarlyReturnPattern] holds exactly when the node is a
    block, some statement [k] of it is the first to contain the setter
    call, and a statement [j] before it is an [if] whose consequent is a
    return (or a block holding only a return) and whose test involves
    the state variable. *)
Theorem early_return_characterization :
  forall (blockStatement setterCall : nref) (stateVar : string),
    checkEarlyReturnPattern blockStatement setterCall stateVar = true <->
    exists (body : list node) (k j : nat) (stmt test cons : node)
           (alt : option node),
      rnode blockStatement = BlockStatement body /\
      nth_error body k = Some stmt /\
      containsNode (mkRef (k :: rpath blockStatement) stmt) setterCall = true /\
      (forall i s, i < k -> nth_error body i = Some s ->
         containsNode (mkRef (i :: rpath blockStatement) s) setterCall
         = false) /\
      j < k /\
      nth_error body j = Some (IfStatement test cons alt) /\
      hasReturn cons = true /\
      conditionInvolvesState test stateVar = true.
Proof.
  intros b call sv. unfold checkEarlyReturnPattern. split.
  - destruct (rnode b) eqn:Eb; try discriminate.
    destruct (findSetterIndex (rpath b) 0 body call) as [k |] eqn:Ek;
      [| discriminate].
    apply findSetterIndex_Some in Ek.
    destruct Ek as [_ [[stmt [Hn Hc]] Hbefore]].
    rewrite Nat.sub_0_r in Hn, Hbefore.
    destruct k as [| k]; [discriminate |].
    intros H. apply existsb_exists in H. destruct H as [s [Hin Hs]].
    apply In_nth_error in Hin. destruct Hin as [j Hj].
    assert (Hjk : j < S k).
    { assert (Hl : j < length (firstn (S k) body))
        by (apply nth_error_Some; congruence).
      rewrite length_firstn in Hl. lia. }
    rewrite nth_error_firstn in Hj.
    assert (Hlt : Nat.ltb j (S k) = true) by (apply Nat.ltb_lt; lia).
    rewrite Hlt in Hj.
    unfold isEarlyReturnOn in Hs. destruct s; try discriminate.
    apply andb_true_iff in Hs. destruct Hs as [Hret Hinv].
    exists body, (S k), j, stmt, s1, s2, alternate.
    repeat split; assumption.
  - intros [body [k [j [stmt [test [cons [alt
             [Hb [Hn [Hc [Hbefore [Hjk [Hj [Hret Hinv]]]]]]]]]]]]]].
    rewrite Hb.
    rewrite (findSetterIndex_first (rpath b) body call 0 k).
    + cbn [Nat.add]. destruct k as [| k]; [lia |].
      apply existsb_exists. exists (IfStatement test cons alt). split.
      * apply (nth_error_In _ j). rewrite nth_error_firstn.
        assert (Hlt : Nat.ltb j (S k) = true) by (apply Nat.ltb_lt; lia).
        now rewrite Hlt.
      * cbn. now rewrite Hret, Hinv.
    + exists stmt. now split.
    + exact Hbefore.
Qed.

Lemma firstSome_skip {A B} (f : A -> option B) (l1 l2 : list A) (x : A)
  (y : B) :
  (forall a, In a l1 -> f a = None) -> f x = Some y ->
  firstSome f (l1 ++ x :: l2) = Some y.
Proof.
  intros Hnone Hx. induction l1 as [| a l1 IH]; cbn.
  - now rewrite Hx.
  - rewrite (Hnone a (or_introl eq_refl)). cbn. apply IH.
    intros b Hb. apply Hnone. now right.
Qed.

(** X6.  In an effect, [analyzeConditionalGuard] walks the ancestors
    from the outside in: the outermost ancestor that yields a guard
    decides, whatever the ancestors inside it would yield.  In the render
    phase, [analyzeRenderPhaseGuard] walks from the inside out: the
    nearest ancestor whose condition is recognised decides. *)
Theorem guard_search_direction :
  (forall (setterCall : nref) (inner outside : list nref) (outer : nref)
          (setterName stateVar : string) (allStateVars : list string)
          (g : GuardedModification),
      stateVar <> EmptyString ->
      guardAtAncestor setterCall setterName stateVar outer = Some g ->
      (forall a, In a outside ->
         guardAtAncestor setterCall setterName stateVar a = None) ->
      analyzeConditionalGuard setterCall (inner ++ outer :: outside)
        setterName (Some stateVar) allStateVars = Some g) /\
  (forall (setterCall self nearest : node) (between outside : list node)
          (setterName stateVar : string) (r : RenderPhaseGuardResult),
      renderGuardAt stateVar setterCall nearest = Some r ->
      (forall a, In a between ->
         renderGuardAt stateVar setterCall a = None) ->
      analyzeRenderPhaseGuard setterCall
        (self :: between ++ nearest :: outside) setterName stateVar =
      Some r).
Proof.
  split.
  - intros call inner outside outer sn sv all g Hne Hg Hout.
    unfold analyzeConditionalGuard.
    assert (Ht : truthyString (Some sv) = Some sv)
      by (destruct sv; [contradiction | reflexivity]).
    rewrite Ht, rev_app_distr. cbn [rev]. rewrite <- app_assoc. cbn [app].
    apply firstSome_skip; [| exact Hg].
    intros a Ha. apply Hout. now apply in_rev.
  - intros call self nearest between outside sn sv r Hr Hbetween.
    unfold analyzeRenderPhaseGuard. cbn [tl].
    now rewrite (firstSome_skip _ between outside nearest r Hbetween Hr).
Qed.

(** X7.  [analyzeRenderPhaseGuard] returns nothing exactly when no
    entry of the ancestor stack after the first one is an [if] statement.
    Any result it returns is either safe, of type derived-state or
    toggle-guard, or it is the unsafe result of type unknown without a
    warning. *)
Theorem render_guard_classification :
  forall (setterCall : node) (ancestorStack : list node)
         (setterName stateVar : string),
    (analyzeRenderPhaseGuard setterCall ancestorStack setterName stateVar
       = None <->
     existsb isIfStatement (tl ancestorStack) = false) /\
    (forall r,
        analyzeRenderPhaseGuard setterCall ancestorStack setterName stateVar
          = Some r ->
        (rg_isSafe r = true /\
         (rg_guardType r = derived_state \/
          rg_guardType r = render_toggle_guard)) \/
        r = mkRenderResult false render_unknown None).
Proof.
  intros call stack sn sv. split.
  - unfold analyzeRenderPhaseGuard. split.
    + destruct (firstSome _ _); [discriminate |].
      destruct (existsb isIfStatement (tl stack)); [discriminate | reflexivity].
    + intros H. rewrite firstSome_None; [now rewrite H |].
      intros a Ha. unfold renderGuardAt.
      destruct (ifTest a) eqn:Et; [| reflexivity].
      exfalso. assert (Hex : existsb isIfStatement (tl stack) = true).
      { apply existsb_exists. exists a. split; [exact Ha |].
        destruct a; try discriminate. reflexivity. }
      congruence.
  - intros r H.
    destruct (renderPhaseGuard_cases _ _ _ _ _ H) as [[a [c [_ [_ Hc]]]] | ->];
      [left | now right].
    split; [exact (render_condition_safe _ _ _ _ Hc) |].
    clear H. revert r Hc.
    induction c; intros r; cbn;
      unfold inequalityPattern, renderTogglePattern; cbn;
      try discriminate.
    + destruct (_ && _); [intros [= <-]; cbn; tauto | discriminate].
    + destruct (_ && _); [| discriminate].
      destruct (hd_error _); [| discriminate].
      destruct (negb _); [intros [= <-]; cbn; tauto | discriminate].
    + destruct (isNotEqualOperator operator); cbn; [| discriminate].
      destruct (derivedStateMatch _ _ _ _); [intros [= <-]; cbn; tauto |].
      destruct (relatedResetMatch _ _ _); [intros [= <-]; cbn; tauto |].
      discriminate.
    + destruct (String.eqb operator "&&"); [| discriminate].
      destruct (renderIsSafe (analyzeRenderGuardCondition c1 _ _)) eqn:E1.
      * intros H. now apply IHc1.
      * destruct (renderIsSafe (analyzeRenderGuardCondition c2 _ _)) eqn:E2.
        -- intros H. now apply IHc2.
        -- discriminate.
Qed.

(** ** State interactions *)

Lemma JsMap_In_get {V} (m : JsMap.t V) (k : string) (v : V) :
  NoDup (JsMap.keys m) -> In (k, v) m -> JsMap.get m k = Some v.
Proof.
  induction m as [| [k0 v0] m IH]; cbn; [intros _ [] |].
  intros Hnd [H | H].
  - injection H as -> ->. now rewrite String.eqb_refl.
  - inversion Hnd as [| ? ? Hk0 Hm]; subst.
    destruct (String.eqb k k0) eqn:E.
    + apply String.eqb_eq in E. subst k0. exfalso. apply Hk0.
      apply in_map_iff. now exists (k, v).
    + now apply IH.
Qed.

Lemma JsMap_get_keys {V} (m : JsMap.t V) (k : string) :
  In k (JsMap.keys m) <-> exists v, JsMap.get m k = Some v.
Proof.
  induction m as [| [k0 v0] m IH]; cbn.
  - split; [intros [] | intros [v H]; discriminate].
  - destruct (String.eqb k k0) eqn:E.
    + apply String.eqb_eq in E. subst k0. split; [eauto | now left].
    + rewrite <- IH. split; [| tauto].
      intros [-> | H]; [| exact H]. now rewrite String.eqb_refl in E.
Qed.

Lemma fold_set_keys_NoDup {A V} (key : A -> string) (val : A -> V)
  (l : list A) (m : JsMap.t V) :
  NoDup (JsMap.keys m) ->
  NoDup (JsMap.keys (fold_left (fun m x => JsMap.set m (key x) (val x)) l m)).
Proof.
  revert m. induction l as [| x l IH]; intros m H; cbn; [exact H |].
  apply IH. now apply JsMap_set_keys.
Qed.

Lemma reverseStateMap_NoDup (stateInfo : JsMap.t string) :
  NoDup (JsMap.keys (reverseStateMap stateInfo)).
Proof.
  unfold reverseStateMap.
  apply (fold_set_keys_NoDup (fun kv => snd kv) (fun kv => fst kv)).
  constructor.
Qed.

Lemma reverseStateMap_get_gen (l : list (string * string))
  (m : JsMap.t string) (setter state : string) :
  JsMap.get (fold_left (fun m kv => JsMap.set m (snd kv) (fst kv)) l m) setter
    = Some state ->
  In (state, setter) l \/ JsMap.get m setter = Some state.
Proof.
  revert m. induction l as [| [k v] l IH]; intros m; cbn; [now right |].
  intros H. apply IH in H. destruct H as [H | H]; [left; now right |].
  rewrite JsMap_get_set in H.
  destruct (String.eqb setter v) eqn:E; [| now right].
  apply String.eqb_eq in E. subst v. injection H as ->. left. now left.
Qed.

Lemma reverseStateMap_sound (stateInfo : JsMap.t string)
  (setter state : string) :
  JsMap.get (reverseStateMap stateInfo) setter = Some state ->
  In (state, setter) stateInfo.
Proof.
  intros H. apply reverseStateMap_get_gen in H.
  destruct H as [H | H]; [exact H | discriminate].
Qed.

Lemma reverseStateMap_defined_gen (l : list (string * string))
  (m : JsMap.t string) (setter : string) :
  In setter (map snd l) \/ (exists x, JsMap.get m setter = Some x) ->
  exists x,
    JsMap.get (fold_left (fun m kv => JsMap.set m (snd kv) (fst kv)) l m)
      setter = Some x.
Proof.
  revert m. induction l as [| [k v] l IH]; intros m; cbn.
  - intros [[] | H]; exact H.
  - intros H. apply IH. rewrite JsMap_get_set.
    destruct (String.eqb setter v) eqn:E.
    + right. eauto.
    + destruct H as [[H | H] | H].
      * subst v. now rewrite String.eqb_refl in E.
      * now left.
      * now right.
Qed.

Lemma reverseStateMap_last_gen (l : list (string * string))
  (m : JsMap.t string) (setter state : string) :
  ~ In setter (map snd l) ->
  JsMap.get (fold_left (fun m kv => JsMap.set m (snd kv) (fst kv)) l m) setter
  = JsMap.get m setter.
Proof.
  revert m. induction l as [| [k v] l IH]; intros m Hn; cbn; [reflexivity |].
  cbn in Hn. rewrite IH by tauto. rewrite JsMap_get_set.
  destruct (String.eqb setter v) eqn:E; [| reflexivity].
  apply String.eqb_eq in E. subst v. tauto.
Qed.

(** X8.  The table [setterToState], filled from [stateInfo], maps a
    setter only to a state variable that [stateInfo] declares with it; it
    has an entry for every setter of [stateInfo]; and when no two state
    variables share a setter it maps the setter of every pair of
    [stateInfo] to the state variable of that pair. *)
Theorem setterToState_inverts_stateInfo :
  forall (stateInfo : JsMap.t string) (state setter : string),
    (JsMap.get (reverseStateMap stateInfo) setter = Some state ->
     In (state, setter) stateInfo) /\
    (In setter (JsMap.values stateInfo) ->
     exists x, JsMap.get (reverseStateMap stateInfo) setter = Some x) /\
    (NoDup (JsMap.values stateInfo) -> In (state, setter) stateInfo ->
     JsMap.get (reverseStateMap stateInfo) setter = Some state).
Proof.
  intros stateInfo state setter. split; [apply reverseStateMap_sound |].
  split.
  - intros H. apply reverseStateMap_defined_gen. now left.
  - unfold reverseStateMap, JsMap.values. generalize (@nil (string * string)).
    induction stateInfo as [| [k v] rest IH]; intros m Hnd; cbn;
      [intros [] |].
    cbn in Hnd. inversion Hnd as [| ? ? Hv Hrest]; subst.
    intros [H | H].
    + injection H as -> ->.
      rewrite (reverseStateMap_last_gen rest _ setter state Hv).
      rewrite JsMap_get_set. now rewrite String.eqb_refl.
    + now apply IH.
Qed.

Lemma In_values {V} (m : JsMap.t V) (k : string) (v : V) :
  In (k, v) m -> In v (JsMap.values m).
Proof. intros H. apply in_map_iff. now exists (k, v). Qed.

Lemma In_keys {V} (m : JsMap.t V) (k : string) (v : V) :
  In (k, v) m -> In k (JsMap.keys m).
Proof. intros H. apply in_map_iff. now exists (k, v). Qed.

(** *** An induction principle for the main traversal

    A property of the interaction record that every push of the
    visitors keeps is kept by the whole traversal. *)
Section VisitorInduction.

Variable stateInfo : JsMap.t string.

Variable refVars : list string.

Variable localFunctionSetters : JsMap.t (list string).

Variable asyncNodes cleanupNodes : list nref.

Variable P : StateInteraction -> Prop.

Let known (x : string) : Prop :=
  In x (JsMap.values stateInfo) \/ reachedThrough localFunctionSetters x.

Hypothesis P_read : forall x i,
  In x (JsMap.keys stateInfo) -> P i -> P (siPushRead x i).

Hypothesis P_modification : forall x i,
  known x -> P i -> P (siPushModification x i).

Hypothesis P_deferred : forall x i,
  known x -> P i -> P (siPushDeferred x i).

Hypothesis P_cleanup : forall x i,
  known x -> P i -> P (siPushCleanup x i).

Hypothesis P_functional : forall x i,
  In x (JsMap.values stateInfo) -> P i -> P (siPushFunctionalUpdate x i).

Hypothesis P_guarded : forall s setter g i,
  known setter ->
  analyzeConditionalGuard (s_ref s) (getAncestorStack s) setter
    (JsMap.get (reverseStateMap stateInfo) setter) (JsMap.keys stateInfo)
  = Some g ->
  P i ->
  P (if negb (gm_isSafe g)
     then siPushConditional setter (siPushGuarded g i)
     else siPushGuarded g i).

Hypothesis P_refMutation : forall m i,
  In (refName m) refVars -> P i -> P (siPushRefMutation m i).

Lemma P_guardAnalysis (s : site) (setter : string) (i : StateInteraction) :
  known setter -> P i -> P (recordGuardAnalysis stateInfo s setter i).
Proof.
  intros Hk Hi. unfold recordGuardAnalysis.
  destruct (analyzeConditionalGuard _ _ _ _ _) as [g |] eqn:Eg.
  - now apply (P_guarded s setter g i).
  - now apply P_modification.
Qed.

Lemma P_setterCall (s : site) (calleeName : string) (args : list node)
  (i : StateInteraction) :
  In calleeName (JsMap.values stateInfo) -> P i ->
  P (recordSetterCall stateInfo asyncNodes cleanupNodes s calleeName args i).
Proof.
  intros Hc Hi. unfold recordSetterCall.
  assert (Hk : known calleeName) by now left.
  assert (H1 : P (if isInsideAsyncCallback asyncNodes s
                  then siPushDeferred calleeName i
                  else if isInsideCleanupFunction cleanupNodes s
                       then siPushCleanup calleeName i
                       else recordGuardAnalysis stateInfo s calleeName i)).
  { destruct (isInsideAsyncCallback asyncNodes s); [now apply P_deferred |].
    destruct (isInsideCleanupFunction cleanupNodes s);
      [now apply P_cleanup | now apply P_guardAnalysis]. }
  destruct (isFunctionalUpdate args); [now apply P_functional | exact H1].
Qed.

Lemma P_fold (step : string -> StateInteraction -> StateInteraction)
  (l : list string) (i : StateInteraction) :
  (forall x j, In x l -> P j -> P (step x j)) -> P i ->
  P (fold_left (fun acc x => step x acc) l i).
Proof.
  revert i. induction l as [| x l IH]; intros i Hstep Hi; cbn; [exact Hi |].
  apply IH.
  - intros y j Hy. apply Hstep. now right.
  - apply Hstep; [now left | exact Hi].
Qed.

Lemma P_transitiveCall (s : site) (setters : list string)
  (i : StateInteraction) :
  (forall x, In x setters -> known x) -> P i ->
  P (recordTransitiveCall stateInfo asyncNodes cleanupNodes s setters i).
Proof.
  intros Hk Hi. unfold recordTransitiveCall.
  destruct (isInsideAsyncCallback asyncNodes s).
  - apply (P_fold (fun x => siPushDeferred x)); [| exact Hi].
    intros x j Hx. apply P_deferred. now apply Hk.
  - destruct (isInsideCleanupFunction cleanupNodes s).
    + apply (P_fold (fun x => siPushCleanup x)); [| exact Hi].
      intros x j Hx. apply P_cleanup. now apply Hk.
    + apply (P_fold (fun x => recordGuardAnalysis stateInfo s x));
        [| exact Hi].
      intros x j Hx. apply P_guardAnalysis. now apply Hk.
Qed.

Lemma P_visitCall (s : site) (i : StateInteraction) :
  P i ->
  P (visitCallExpression stateInfo localFunctionSetters asyncNodes
       cleanupNodes s i).
Proof.
  intros Hi. unfold visitCallExpression.
  destruct (s_node s); try exact Hi.
  split_match; try exact Hi.
  match goal with
  | |- context [strIn ?n (JsMap.values stateInfo)] =>
      destruct (strIn n (JsMap.values stateInfo)) eqn:Es;
      [apply P_setterCall; [now apply strIn_In | exact Hi] |];
      destruct (JsMap.get localFunctionSetters n) as [[| t ts] |] eqn:Eg;
      try exact Hi;
      apply P_transitiveCall; [| exact Hi];
      intros x Hx; right; exists n, (t :: ts); split; [exact Eg | exact Hx]
  end.
Qed.

Lemma P_visitMember (s : site) (i : StateInteraction) :
  P i -> P (visitMemberExpression stateInfo s i).
Proof.
  intros Hi. unfold visitMemberExpression.
  destruct (s_node s); try exact Hi.
  split_match; try exact Hi.
  match goal with
  | |- context [strIn ?n (JsMap.keys stateInfo)] =>
      destruct (strIn n (JsMap.keys stateInfo)) eqn:Es; [| exact Hi];
      apply P_read; [now apply strIn_In | exact Hi]
  end.
Qed.

Lemma P_visitIdentifier (s : site) (i : StateInteraction) :
  P i -> P (visitIdentifier stateInfo s i).
Proof.
  intros Hi. unfold visitIdentifier.
  destruct (s_node s); try exact Hi.
  match goal with
  | |- context [strIn ?n (JsMap.keys stateInfo)] =>
      destruct (strIn n (JsMap.keys stateInfo)) eqn:Es; cbn [negb];
      [| exact Hi];
      destruct (isReferencedIdentifier s); cbn [negb]; [| exact Hi];
      destruct (isAssignmentTarget s); [exact Hi |];
      apply P_read; [now apply strIn_In | exact Hi]
  end.
Qed.

Lemma P_visitAssignment (s : site) (i : StateInteraction) :
  P i -> P (visitAssignmentExpression stateInfo refVars s i).
Proof.
  intros Hi. unfold visitAssignmentExpression.
  destruct (s_node s); try exact Hi.
  split_match; try exact Hi.
  split_match; try exact Hi.
  split_match; try exact Hi.
  match goal with
  | |- context [strIn ?n refVars] =>
      destruct (strIn n refVars) eqn:E;
      [| rewrite andb_false_r; exact Hi];
      apply strIn_In in E
  end.
  case_if; [| exact Hi].
  apply P_refMutation; [| exact Hi].
  split_match; exact E.
Qed.

Lemma P_mainVisitor (s : site) (i : StateInteraction) :
  P i ->
  P (mainVisitor stateInfo refVars localFunctionSetters asyncNodes
       cleanupNodes i s).
Proof.
  intros Hi. unfold mainVisitor.
  apply P_visitAssignment, P_visitIdentifier, P_visitMember, P_visitCall.
  exact Hi.
Qed.

Lemma P_traversal (l : list site) (i : StateInteraction) :
  P i ->
  P (fold_left (mainVisitor stateInfo refVars localFunctionSetters
                  asyncNodes cleanupNodes) l i).
Proof.
  intros Hi. apply fold_left_invariant; [exact Hi |].
  intros j s _ Hj. now apply P_mainVisitor.
Qed.

End VisitorInduction.

Lemma guard_of_analysis (stateInfo : JsMap.t string) (s : site)
  (setter : string) (g : GuardedModification) :
  analyzeConditionalGuard (s_ref s) (getAncestorStack s) setter
    (JsMap.get (reverseStateMap stateInfo) setter) (JsMap.keys stateInfo)
  = Some g ->
  gm_setter g = setter /\ In (gm_stateVariable g, gm_setter g) stateInfo.
Proof.
  unfold analyzeConditionalGuard.
  destruct (truthyString _) as [sv |] eqn:Esv; [| discriminate].
  destruct (JsMap.get (reverseStateMap stateInfo) setter) as [x |] eqn:Eg;
    [| discriminate].
  assert (x = sv) as ->.
  { destruct x; cbn in Esv; [discriminate | now injection Esv]. }
  intros H. apply firstSome_Some in H. destruct H as [a [_ Ha]].
  assert (Hg : gm_setter g = setter /\ gm_stateVariable g = sv).
  { unfold guardAtAncestor, orElse in Ha.
    destruct (rnode a); try discriminate.
    - destruct (analyzeCondition _ _ _ _ _); [| discriminate].
      injection Ha as <-. now split.
    - destruct (checkEarlyReturnPattern _ _ _); [| discriminate].
      injection Ha as <-. now split. }
  destruct Hg as [Hs Hv]. split; [exact Hs |].
  rewrite Hs, Hv. now apply reverseStateMap_sound.
Qed.

Lemma in_snoc {A} (l : list A) (x y : A) :
  In y (l ++ [x]) <-> In y l \/ y = x.
Proof. rewrite in_app_iff. cbn. intuition congruence. Qed.

Lemma mainPass_names (hookBody : node) (stateInfo : JsMap.t string)
  (refVars : list string) (localFunctionSetters : JsMap.t (list string)) :
  namesFromInputs stateInfo refVars localFunctionSetters
    (mainPass hookBody stateInfo refVars localFunctionSetters).
Proof.
  unfold mainPass.
  apply (P_traversal stateInfo refVars localFunctionSetters);
    unfold namesFromInputs.
  - intros x i Hx [H1 [H2 [H3 [H4 H5]]]]. cbn. repeat split; try assumption.
    intros y Hy. apply in_snoc in Hy. destruct Hy as [Hy | ->]; auto.
  - intros x i Hx [H1 [H2 [H3 [H4 H5]]]]. cbn. repeat split; try assumption.
    intros y Hy. rewrite in_snoc in Hy.
    destruct Hy as [[Hy | ->] | Hy]; [apply H2; tauto | exact Hx |].
    apply H2. tauto.
  - intros x i Hx [H1 [H2 [H3 [H4 H5]]]]. cbn. repeat split; try assumption.
    intros y Hy. rewrite in_snoc in Hy.
    destruct Hy as [Hy | [Hy | [[Hy | ->] | Hy]]];
      [apply H2; tauto | apply H2; tauto | apply H2; tauto | exact Hx
      | apply H2; tauto].
  - intros x i Hx [H1 [H2 [H3 [H4 H5]]]]. cbn. repeat split; try assumption.
    intros y Hy. rewrite in_snoc in Hy.
    destruct Hy as [Hy | [Hy | [Hy | [Hy | ->]]]];
      [apply H2; tauto | apply H2; tauto | apply H2; tauto | apply H2; tauto
      | exact Hx].
  - intros x i Hx [H1 [H2 [H3 [H4 H5]]]]. cbn. repeat split; try assumption.
    intros y Hy. apply in_snoc in Hy. destruct Hy as [Hy | ->]; auto.
  - intros s setter g i Hk Hg [H1 [H2 [H3 [H4 H5]]]].
    destruct (guard_of_analysis stateInfo s setter g Hg) as [Hs Hin].
    destruct (negb (gm_isSafe g)); cbn; repeat split; try assumption.
    + intros y Hy. rewrite in_snoc in Hy.
      destruct Hy as [Hy | [[Hy | ->] | Hy]];
        [apply H2; tauto | apply H2; tauto | exact Hk | apply H2; tauto].
    + intros y Hy. apply in_snoc in Hy. destruct Hy as [Hy | ->]; auto.
    + intros y Hy. apply in_snoc in Hy. destruct Hy as [Hy | ->]; auto.
  - intros m i Hm [H1 [H2 [H3 [H4 H5]]]]. cbn. repeat split; try assumption.
    intros y Hy. apply in_snoc in Hy. destruct Hy as [Hy | ->]; auto.
  - cbn. repeat split; intros; try contradiction. tauto.
Qed.

(** X9.  Every name in the result of [analyzeStateInteractions] comes
    from its inputs: reads are state variables of [stateInfo];
    modifications of every kind are setters of [stateInfo] or setters
    listed for a local function; functional updates are setters of
    [stateInfo]; a guarded record pairs a state variable with its setter
    as [stateInfo] does; ref mutations name a variable of
    [refVars]. *)
Theorem interaction_names_come_from_inputs :
  forall (hookBody : node) (stateInfo : JsMap.t string)
         (refVars : list string)
         (localFunctionSetters : JsMap.t (list string)),
    let result := analyzeStateInteractions hookBody stateInfo refVars
                    localFunctionSetters in
    (forall x, In x (reads result) -> In x (JsMap.keys stateInfo)) /\
    (forall x, In x (modifications result) \/
               In x (conditionalModifications result) \/
               In x (deferredModifications result) \/
               In x (cleanupModifications result) ->
               In x (JsMap.values stateInfo) \/
               exists f setters,
                 JsMap.get localFunctionSetters f = Some setters /\
                 In x setters) /\
    (forall x, In x (functionalUpdates result) ->
               In x (JsMap.values stateInfo)) /\
    (forall g, In g (guardedModifications result) ->
               In (gm_stateVariable g, gm_setter g) stateInfo) /\
    (forall m, In m (refMutations result) -> In (refName m) refVars).
Proof.
  intros hookBody stateInfo refVars lfs result.
  destruct (mainPass_names hookBody stateInfo refVars lfs)
    as [H1 [H2 [H3 [H4 H5]]]].
  unfold result, analyzeStateInteractions, removeDuplicates. cbn.
  split; [| split; [| split; [| split]]].
  - intros x Hx. exact (H1 x (proj1 (newSet_In _ _) Hx)).
  - intros x Hx. apply H2.
    destruct Hx as [Hx | [Hx | [Hx | Hx]]];
      [left | right; left | right; right; left | right; right; right];
      first [exact (proj1 (newSet_In _ _) Hx) | exact Hx].
  - intros x Hx. exact (H3 x (proj1 (newSet_In _ _) Hx)).
  - exact H4.
  - exact H5.
Qed.

Section Contributions.

Variable hookBody : node.

Variable stateInfo : JsMap.t string.

Variable refVars : list string.

Variable localFunctionSetters : JsMap.t (list string).

Let asyncNodes := resolveNamedAsync (firstPass hookBody).

Let cleanupNodes := fp_cleanupFunctionNodes (firstPass hookBody).

Let visitor := mainVisitor stateInfo refVars localFunctionSetters
                 asyncNodes cleanupNodes.

(** What one path adds to a field is in that field when the traversal
    ends. *)
Lemma contribution_kept {A} (proj : StateInteraction -> list A)
  (Hproj : forall a b, proj (siAppend a b) = proj a ++ proj b)
  (s : site) (x : A) :
  In s (walk hookBody) ->
  In x (proj (visitor noInteraction s)) ->
  In x (proj (mainPass hookBody stateInfo refVars localFunctionSetters)).
Proof.
  intros Hs Hx. unfold mainPass.
  rewrite fold_mainVisitor.
  rewrite (fold_siAppend_field proj Hproj).
  apply in_app_iff. right. apply in_flat_map. exists s. split; assumption.
Qed.

(** Conversely, an element of a field that starts empty was added on
    some path. *)
Lemma contribution_found {A} (proj : StateInteraction -> list A)
  (Hproj : forall a b, proj (siAppend a b) = proj a ++ proj b)
  (Hempty : forall refs, proj (emptyInteraction refs) = [])
  (x : A) :
  In x (proj (mainPass hookBody stateInfo refVars localFunctionSetters)) ->
  exists s, In s (walk hookBody) /\ In x (proj (visitor noInteraction s)).
Proof.
  unfold mainPass. rewrite fold_mainVisitor.
  rewrite (fold_siAppend_field proj Hproj), Hempty. cbn [app].
  intros H. apply in_flat_map in H. exact H.
Qed.

End Contributions.

(** X10.  A direct call of a setter of [stateInfo] anywhere in the
    hook body shows in the result of [analyzeStateInteractions]: the
    setter is among the modifications, the deferred modifications or the
    cleanup modifications, or a guarded record names it; and when the
    first argument of the call is a function, the setter is among the
    functional updates. *)
Theorem no_setter_call_is_dropped :
  forall (hookBody : node) (stateInfo : JsMap.t string)
         (refVars : list string)
         (localFunctionSetters : JsMap.t (list string))
         (s : site) (line : nat) (calleeName : string) (args : list node),
    In s (walk hookBody) ->
    s_node s = CallExpression line (Identifier calleeName) args ->
    In calleeName (JsMap.values stateInfo) ->
    let result := analyzeStateInteractions hookBody stateInfo refVars
                    localFunctionSetters in
    (In calleeName (modifications result) \/
     In calleeName (deferredModifications result) \/
     In calleeName (cleanupModifications result) \/
     exists g, In g (guardedModifications result) /\
               gm_setter g = calleeName) /\
    (isFunctionalUpdate args = true ->
     In calleeName (functionalUpdates result)).
Proof.
  intros hookBody stateInfo refVars lfs s line calleeName args Hs Hn Hc result.
  set (asyncNodes := resolveNamedAsync (firstPass hookBody)).
  set (cleanupNodes := fp_cleanupFunctionNodes (firstPass hookBody)).
  assert (Hv : mainVisitor stateInfo refVars lfs asyncNodes cleanupNodes
                 noInteraction s =
               recordSetterCall stateInfo asyncNodes cleanupNodes s
                 calleeName args noInteraction).
  { apply (mainVisitor_at_setter_call _ _ _ _ _ s line); [exact Hn |].
    now apply strIn_In. }
  unfold result, analyzeStateInteractions, removeDuplicates. cbn.
  split.
  - unfold recordSetterCall in Hv.
    destruct (isInsideAsyncCallback asyncNodes s) eqn:Ea.
    + right. left. apply (proj2 (newSet_In _ _)).
      apply (contribution_kept hookBody stateInfo refVars lfs
               deferredModifications (fun a b => eq_refl) s); [exact Hs |].
      fold asyncNodes cleanupNodes. rewrite Hv.
      destruct (isFunctionalUpdate args); cbn; now left.
    + destruct (isInsideCleanupFunction cleanupNodes s) eqn:Ec.
      * right. right. left.
        apply (contribution_kept hookBody stateInfo refVars lfs
                 cleanupModifications (fun a b => eq_refl) s); [exact Hs |].
        fold asyncNodes cleanupNodes. rewrite Hv.
        destruct (isFunctionalUpdate args); cbn; now left.
      * unfold recordGuardAnalysis in Hv.
        destruct (analyzeConditionalGuard _ _ _ _ _) as [g |] eqn:Eg.
        -- right. right. right. exists g. split.
           ++ apply (contribution_kept hookBody stateInfo refVars lfs
                       guardedModifications (fun a b => eq_refl) s);
                [exact Hs |].
              fold asyncNodes cleanupNodes. rewrite Hv.
              destruct (isFunctionalUpdate args);
                destruct (negb (gm_isSafe g)); cbn; now left.
           ++ exact (proj1 (guard_of_analysis stateInfo s calleeName g Eg)).
        -- left. apply (proj2 (newSet_In _ _)).
           apply (contribution_kept hookBody stateInfo refVars lfs
                    modifications (fun a b => eq_refl) s); [exact Hs |].
           fold asyncNodes cleanupNodes. rewrite Hv.
           destruct (isFunctionalUpdate args); cbn; now left.
  - intros Hf. apply (proj2 (newSet_In _ _)).
    apply (contribution_kept hookBody stateInfo refVars lfs
             functionalUpdates (fun a b => eq_refl) s); [exact Hs |].
    fold asyncNodes cleanupNodes. rewrite Hv.
    unfold recordSetterCall. rewrite Hf.
    destruct (isInsideAsyncCallback asyncNodes s); [cbn; now left |].
    destruct (isInsideCleanupFunction cleanupNodes s); [cbn; now left |].
    unfold recordGuardAnalysis.
    destruct (analyzeConditionalGuard _ _ _ _ _) as [g |];
      [destruct (negb (gm_isSafe g)) |]; cbn; now left.
Qed.

Lemma no_setter_call_is_dropped_witness :
  let result :=
    analyzeStateInteractions Samples.bucketsBody Samples.countState [] [] in
  In Samples.deferredSite (walk Samples.bucketsBody) /\
  (In "setCount" (modifications result) \/
   In "setCount" (deferredModifications result) \/
   In "setCount" (cleanupModifications result) \/
   exists g, In g (guardedModifications result) /\ gm_setter g = "setCount").
Proof.
  intros result.
  assert (Hin : In Samples.deferredSite (walk Samples.bucketsBody))
    by (apply nth_In; vm_compute; lia).
  split; [exact Hin |].
  refine (proj1 (no_setter_call_is_dropped Samples.bucketsBody
                   Samples.countState [] [] Samples.deferredSite 1 "setCount"
                   [NumericLiteral 1] Hin eq_refl _)).
  simpl. now left.
Defined.

Lemma filter_snoc {A} (f : A -> bool) (l : list A) (x : A) :
  filter f (l ++ [x]) = filter f l ++ (if f x then [x] else []).
Proof.
  induction l as [| a l IH]; cbn.
  - now destruct (f x).
  - rewrite IH. now destruct (f a).
Qed.

Lemma mainPass_conditional (hookBody : node) (stateInfo : JsMap.t string)
  (refVars : list string) (localFunctionSetters : JsMap.t (list string)) :
  let i := mainPass hookBody stateInfo refVars localFunctionSetters in
  conditionalModifications i =
  map gm_setter (filter unsafeGuard (guardedModifications i)).
Proof.
  cbv zeta. unfold mainPass.
  apply (P_traversal stateInfo refVars localFunctionSetters _ _
           (fun i => conditionalModifications i =
                     map gm_setter
                       (filter unsafeGuard (guardedModifications i))));
    try (intros; cbn; assumption).
  - intros s setter g i _ Hg Hi.
    destruct (guard_of_analysis stateInfo s setter g Hg) as [Hs _].
    destruct (negb (gm_isSafe g)) eqn:E; cbn;
      rewrite filter_snoc; unfold unsafeGuard at 2; rewrite E;
      rewrite map_app, <- Hi; cbn.
    + now rewrite Hs.
    + now rewrite app_nil_r.
  - reflexivity.
Qed.

Lemma mainPass_guard_shapes (hookBody : node) (stateInfo : JsMap.t string)
  (refVars : list string) (localFunctionSetters : JsMap.t (list string)) :
  forall g,
    In g (guardedModifications
            (mainPass hookBody stateInfo refVars localFunctionSetters)) ->
    (gm_isSafe g = true /\ gm_warning g = None /\
     (gm_guardType g = toggle_guard \/ gm_guardType g = equality_guard \/
      gm_guardType g = early_return)) \/
    (gm_isSafe g = false /\ gm_guardType g = object_spread_risk /\
     gm_warning g = Some (spreadWarning (gm_stateVariable g))).
Proof.
  unfold mainPass.
  apply (P_traversal stateInfo refVars localFunctionSetters _ _
           (fun i => forall g, In g (guardedModifications i) ->
              (gm_isSafe g = true /\ gm_warning g = None /\
               (gm_guardType g = toggle_guard \/
                gm_guardType g = equality_guard \/
                gm_guardType g = early_return)) \/
              (gm_isSafe g = false /\ gm_guardType g = object_spread_risk /\
               gm_warning g = Some (spreadWarning (gm_stateVariable g)))));
    try (intros; cbn in *; auto; fail).
  - intros s setter g i _ Hg Hi g' Hg'.
    assert (Hin : In g' (guardedModifications i) \/ g' = g).
    { destruct (negb (gm_isSafe g)); cbn in Hg'; now apply in_snoc. }
    destruct Hin as [Hin | ->]; [now apply Hi |].
    destruct (conditionalGuard_shape _ _ _ _ _ _ Hg)
      as [_ [_ [_ [H | [H1 [H2 [H3 _]]]]]]]; [now left | right; tauto].
  - cbn. intros g [].
Qed.

(** X11.  The conditional modifications that
    [analyzeStateInteractions] returns are exactly the setters of its
    unsafe guarded records, without duplicates and in the order of their
    first record; every guarded record is either safe without a
    warning, or the unsafe object-spread-risk record with its
    warning. *)
Theorem conditional_modifications_are_unsafe_guards :
  forall (hookBody : node) (stateInfo : JsMap.t string)
         (refVars : list string)
         (localFunctionSetters : JsMap.t (list string)),
    let result := analyzeStateInteractions hookBody stateInfo refVars
                    localFunctionSetters in
    conditionalModifications result =
      newSet (map gm_setter
                (filter (fun g => negb (gm_isSafe g))
                        (guardedModifications result))) /\
    (forall g, In g (guardedModifications result) ->
       (gm_isSafe g = true /\ gm_warning g = None /\
        (gm_guardType g = toggle_guard \/ gm_guardType g = equality_guard \/
         gm_guardType g = early_return)) \/
       (gm_isSafe g = false /\ gm_guardType g = object_spread_risk /\
        gm_warning g = Some (spreadWarning (gm_stateVariable g)))).
Proof.
  intros hookBody stateInfo refVars lfs result.
  unfold result, analyzeStateInteractions, removeDuplicates. cbn. split.
  - now rewrite (mainPass_conditional hookBody stateInfo refVars lfs).
  - apply mainPass_guard_shapes.
Qed.

Lemma fold_addReference_references (receiver : string) (args : list node)
  (f : FirstPass) :
  fp_functionReferences (fold_left (fpAddReference receiver) args f) =
  fp_functionReferences f ++
  flat_map (fun arg =>
              match arg with
              | Identifier x =>
                  [mkFunctionReference x
                     (if strIn receiver LISTENER_CONTEXT_METHODS
                      then event_listener else callback_arg)
                     receiver]
              | _ => []
              end) args.
Proof.
  revert f. induction args as [| arg args IH]; intros f; cbn.
  - now rewrite app_nil_r.
  - rewrite IH. destruct arg; cbn; try reflexivity.
    now rewrite <- app_assoc.
Qed.

Lemma asyncArguments_references (call : position) (args : list node)
  (i : nat) (f : FirstPass) :
  fp_functionReferences (fpAsyncArguments call i args f) =
  fp_functionReferences f.
Proof.
  revert i f. induction args as [| arg args IH]; intros i f; cbn;
    [reflexivity |].
  rewrite IH. destruct (isFunctionLiteral arg); [reflexivity |].
  destruct arg; reflexivity.
Qed.

Lemma firstPassVisitor_references (f : FirstPass) (s : site) :
  fp_functionReferences (firstPassVisitor f s) =
  fp_functionReferences f ++ referencesOfCall s.
Proof.
  unfold firstPassVisitor, referencesOfCall.
  destruct (s_node s) eqn:En; try (now rewrite app_nil_r).
  - (* CallExpression *)
    destruct (receivingFuncName _) as [[| c receiver'] |];
      try (now rewrite app_nil_r).
    set (receiver := String c receiver').
    destruct (strIn receiver ASYNC_CALLBACK_FUNCTIONS);
      rewrite ?asyncArguments_references;
      destruct (strIn receiver EVENT_LISTENER_METHODS);
      rewrite ?fold_addReference_references, ?app_nil_r; reflexivity.
  - (* ReturnStatement *)
    rewrite app_nil_r.
    repeat match goal with
           | |- context [match ?x with _ => _ end] => is_var x; destruct x
           end; try reflexivity.
    case_if; reflexivity.
  - (* VariableDeclarator *)
    rewrite app_nil_r.
    repeat match goal with
           | |- context [match ?x with _ => _ end] => is_var x; destruct x
           end; try reflexivity;
      case_if; reflexivity.
  - (* FunctionDeclaration *)
    rewrite app_nil_r.
    repeat match goal with
           | |- context [match ?x with _ => _ end] => is_var x; destruct x
           end; reflexivity.
Qed.

Lemma firstPass_references (hookBody : node) :
  fp_functionReferences (firstPass hookBody) =
  flat_map referencesOfCall (walk hookBody).
Proof.
  unfold firstPass.
  assert (H : forall l f,
             fp_functionReferences (fold_left firstPassVisitor l f) =
             fp_functionReferences f ++ flat_map referencesOfCall l).
  { induction l as [| s l IH]; intros f; cbn; [now rewrite app_nil_r |].
    rewrite IH, firstPassVisitor_references. now rewrite app_assoc. }
  now rewrite H.
Qed.

Lemma mainPass_references (hookBody : node) (stateInfo : JsMap.t string)
  (refVars : list string) (localFunctionSetters : JsMap.t (list string)) :
  functionReferences
    (mainPass hookBody stateInfo refVars localFunctionSetters) =
  fp_functionReferences (firstPass hookBody).
Proof.
  unfold mainPass.
  apply (P_traversal stateInfo refVars localFunctionSetters _ _
           (fun i => functionReferences i =
                     fp_functionReferences (firstPass hookBody)));
    try (intros; cbn; assumption).
  - intros s setter g i _ _ Hi. destruct (negb (gm_isSafe g)); exact Hi.
  - reflexivity.
Qed.

(** X12.  The function references that [analyzeStateInteractions]
    returns are exactly the identifiers passed as arguments to a call
    whose receiving function is one of [EVENT_LISTENER_METHODS]: each
    reference comes from such a call, each such argument gives a
    reference, and the context of a reference is event-listener for the
    listener methods and callback-arg for the others. *)
Theorem function_references_are_identifier_arguments :
  forall (hookBody : node) (stateInfo : JsMap.t string)
         (refVars : list string)
         (localFunctionSetters : JsMap.t (list string)),
    let result := analyzeStateInteractions hookBody stateInfo refVars
                    localFunctionSetters in
    (forall ref, In ref (functionReferences result) ->
       strIn (receivingFunction ref) EVENT_LISTENER_METHODS = true /\
       context ref =
         (if strIn (receivingFunction ref) LISTENER_CONTEXT_METHODS
          then event_listener else callback_arg) /\
       exists s line callee args,
         In s (walk hookBody) /\
         s_node s = CallExpression line callee args /\
         receivingFuncName callee = Some (receivingFunction ref) /\
         In (Identifier (functionName ref)) args) /\
    (forall s line callee args receiver x,
       In s (walk hookBody) ->
       s_node s = CallExpression line callee args ->
       receivingFuncName callee = Some receiver ->
       strIn receiver EVENT_LISTENER_METHODS = true ->
       In (Identifier x) args ->
       In (mkFunctionReference x
             (if strIn receiver LISTENER_CONTEXT_METHODS
              then event_listener else callback_arg) receiver)
          (functionReferences result)).
Proof.
  intros hookBody stateInfo refVars lfs result.
  assert (Hrefs : functionReferences result =
                  flat_map referencesOfCall (walk hookBody)).
  { unfold result, analyzeStateInteractions, removeDuplicates. cbn.
    now rewrite mainPass_references, firstPass_references. }
  rewrite Hrefs. split.
  - intros ref Href. apply in_flat_map in Href.
    destruct Href as [s [Hs Href]]. unfold referencesOfCall in Href.
    destruct (s_node s) eqn:En; try contradiction.
    destruct (receivingFuncName _) as [[| c receiver'] |] eqn:Er;
      try contradiction.
    set (receiver := String c receiver') in *.
    destruct (strIn receiver EVENT_LISTENER_METHODS) eqn:Ee;
      [| contradiction].
    apply in_flat_map in Href. destruct Href as [arg [Harg Href]].
    destruct arg; try contradiction.
    destruct Href as [<- | []]. cbn.
    split; [exact Ee |]. split; [reflexivity |].
    match type of En with
    | _ = CallExpression ?a ?b ?c => exists s, a, b, c
    end.
    repeat split; assumption.
  - intros s line callee args receiver x Hs Hn Hr He Hx.
    apply in_flat_map. exists s. split; [exact Hs |].
    unfold referencesOfCall. rewrite Hn, Hr.
    destruct receiver as [| c receiver']; [discriminate |].
    rewrite He. apply in_flat_map. exists (Identifier x).
    split; [exact Hx | now left].
Qed.

(** ** The local function-to-setters map, continued *)
Lemma callTable_keys (names : list string) (bodies : JsMap.t node) :
  NoDup (JsMap.keys (callTable names bodies)) /\
  (forall f cs, In (f, cs) (callTable names bodies) ->
     cs <> [] /\ exists body, In (f, body) bodies /\
                              cs = namesCalledIn names body).
Proof.
  unfold callTable.
  apply (fold_left_invariant
           (fun m kv => match namesCalledIn names (snd kv) with
                        | [] => m
                        | called => JsMap.set m (fst kv) called
                        end)
           (fun m => NoDup (JsMap.keys m) /\
                     forall f cs, In (f, cs) m ->
                       cs <> [] /\ exists body, In (f, body) bodies /\
                                                cs = namesCalledIn names body)).
  - split; [constructor | intros f cs []].
  - intros m [k body] Hin [Hnd Hm]. cbn [fst snd].
    destruct (namesCalledIn names body) as [| c cs0] eqn:E; [now split |].
    split; [now apply JsMap_set_keys |].
    intros f cs H. apply JsMap_set_In in H. destruct H as [H | H].
    + injection H as -> ->. split; [discriminate |].
      exists body. split; [exact Hin | now symmetry].
    + now apply Hm.
Qed.

Lemma namesCalledIn_names (names : list string) (body : node) (x : string) :
  In x (namesCalledIn names body) -> In x names.
Proof.
  unfold namesCalledIn. intros H. apply in_flat_map in H.
  destruct H as [s [_ H]].
  destruct (identifierCallee (s_node s)) as [c |]; [| contradiction].
  destruct (strIn c names) eqn:E; [| contradiction].
  destruct H as [<- | []]. now apply strIn_In.
Qed.

Section Soundness.

Variable calls : JsMap.t (list string).

Variable direct : JsMap.t (list string).

Hypothesis calls_NoDup : NoDup (JsMap.keys calls).

(** Every setter of the table is called directly by a function that
    the owner of the entry reaches through local calls. *)
Let sound (m : JsMap.t (list string)) : Prop :=
  forall f setter, In setter (getOrEmpty m f) ->
    exists n g, callChain calls n f g /\ In setter (getOrEmpty direct g).

(** The keys of the table are keys of the two tables it is built from,
    and no entry is empty. *)
Let shaped (m : JsMap.t (list string)) : Prop :=
  forall f setters, In (f, setters) m ->
    setters <> [] /\
    (In f (JsMap.keys direct) \/ In f (JsMap.keys calls)).

Lemma sound_direct : sound direct.
Proof. intros f setter H. exists 0, f. split; [constructor | exact H]. Qed.

Lemma sound_entry (m : JsMap.t (list string)) (changed : bool)
  (entry : string * list string) :
  In entry calls -> sound m -> sound (fst (propagateEntry (m, changed) entry)).
Proof.
  destruct entry as [funcName cs]. intros Hentry Hm. cbn.
  case_if; cbn; [| exact Hm].
  intros f setter. rewrite getOrEmpty_set.
  destruct (String.eqb f funcName) eqn:E; [| apply Hm].
  apply String.eqb_eq in E. subst f. intros H.
  apply grow_In in H. destruct H as [H | [g [Hg Hs]]].
  - apply Hm. exact (proj1 (newSet_In _ _) H).
  - destruct (Hm g setter Hs) as [n [h [Hchain Hd]]].
    exists (S n), h. split; [| exact Hd].
    apply (chain_cons calls n funcName g h); [| exact Hchain].
    unfold getOrEmpty.
    now rewrite (JsMap_In_get calls funcName cs calls_NoDup Hentry).
Qed.

Lemma shaped_entry (m : JsMap.t (list string)) (changed : bool)
  (entry : string * list string) :
  In entry calls -> shaped m ->
  shaped (fst (propagateEntry (m, changed) entry)).
Proof.
  destruct entry as [funcName cs]. intros Hentry Hm. cbn.
  case_if_eqn E; cbn; [| exact Hm].
  intros f setters H. apply JsMap_set_In in H. destruct H as [H | H];
    [| now apply Hm].
  injection H as -> ->. split.
  - intros Hnil. rewrite Hnil in E. cbn in E. discriminate.
  - right. now apply (In_keys calls funcName cs).
Qed.

Lemma round_invariant (Q : JsMap.t (list string) -> Prop)
  (m : JsMap.t (list string)) :
  (forall m changed entry, In entry calls -> Q m ->
     Q (fst (propagateEntry (m, changed) entry))) ->
  Q m -> Q (fst (propagateRound calls m)).
Proof.
  intros Hstep Hm. unfold propagateRound.
  apply (fold_left_invariant propagateEntry (fun st => Q (fst st)));
    [exact Hm |].
  intros [m' c] entry Hin Hq. now apply Hstep.
Qed.

Lemma propagate_invariant (Q : JsMap.t (list string) -> Prop) (n : nat)
  (m : JsMap.t (list string)) :
  (forall m changed entry, In entry calls -> Q m ->
     Q (fst (propagateEntry (m, changed) entry))) ->
  Q m -> Q (propagate n calls m).
Proof.
  intros Hstep. revert m. induction n as [| n IH]; intros m Hm; cbn;
    [exact Hm |].
  destruct (propagateRound calls m) as [next changed] eqn:E.
  assert (Hnext : Q next).
  { change next with (fst (next, changed)). rewrite <- E.
    now apply round_invariant. }
  destruct changed; [now apply IH | exact Hnext].
Qed.

Lemma propagate_sound (n : nat) : sound (propagate n calls direct).
Proof.
  apply propagate_invariant; [| exact sound_direct].
  intros m changed entry. apply sound_entry.
Qed.

Lemma propagate_shaped (n : nat) :
  (forall f setters, In (f, setters) direct -> setters <> []) ->
  shaped (propagate n calls direct).
Proof.
  intros Hd. apply propagate_invariant.
  - intros m changed entry. apply shaped_entry.
  - intros f setters H. split; [now apply (Hd f) |].
    left. now apply (In_keys direct f setters).
Qed.

Lemma propagate_NoDup (n : nat) :
  NoDup (JsMap.keys direct) -> NoDup (JsMap.keys (propagate n calls direct)).
Proof.
  intros Hd. apply propagate_invariant; [| exact Hd].
  intros m changed [funcName cs] _ Hm. cbn. case_if; cbn; [| exact Hm].
  now apply JsMap_set_keys.
Qed.

Lemma propagate_mono (n : nat) (m : JsMap.t (list string))
  (f setter : string) :
  In setter (getOrEmpty m f) ->
  In setter (getOrEmpty (propagate n calls m) f).
Proof.
  revert m. induction n as [| n IH]; intros m H; cbn; [exact H |].
  destruct (propagateRound calls m) as [next changed] eqn:E.
  assert (Hnext : In setter (getOrEmpty next f)).
  { change next with (fst (next, changed)). rewrite <- E.
    now apply propagateRound_mono. }
  destruct changed; [now apply IH | exact Hnext].
Qed.

(** When the loop stops before the cap, its last round changed
    nothing. *)
Lemma propagate_fixed (n : nat) (m : JsMap.t (list string)) :
  iterationsRun n calls m < n ->
  fst (propagateRound calls (propagate n calls m)) = propagate n calls m.
Proof.
  revert m. induction n as [| n IH]; intros m; cbn; [lia |].
  destruct (propagateRound calls m) as [next changed] eqn:E.
  destruct changed.
  - intros H. apply IH. lia.
  - intros _.
    assert (Hfix : fst (propagateRound calls m) = m)
      by (apply propagateRound_unchanged; now rewrite E).
    rewrite E in Hfix. cbn in Hfix. subst next. now rewrite E.
Qed.

Lemma fixed_closed (m : JsMap.t (list string)) (setter : string) :
  fst (propagateRound calls m) = m ->
  forall n f g, callChain calls n f g ->
    In setter (getOrEmpty m g) -> In setter (getOrEmpty m f).
Proof.
  intros Hfix n f g Hchain. induction Hchain as [f | n f g h Hedge _ IH];
    intros H; [exact H |].
  rewrite <- Hfix. apply (propagateRound_edge calls m f g setter Hedge).
  now apply IH.
Qed.

End Soundness.

Lemma functionBodies_NoDup (ast : node) :
  NoDup (JsMap.keys (functionBodiesOf ast)).
Proof.
  unfold functionBodiesOf.
  apply (fold_left_invariant collectFunctionBody
           (fun m => NoDup (JsMap.keys m))); [constructor |].
  intros m s _ Hm. unfold collectFunctionBody.
  repeat first [ exact Hm | apply JsMap_set_keys; exact Hm
               | split_match ].
Qed.

Lemma direct_entries (ast : node) (stateInfo : JsMap.t string)
  (g setter : string) :
  In setter (getOrEmpty (directSetters ast stateInfo) g) ->
  In setter (JsMap.values stateInfo) /\
  exists body, In (g, body) (functionBodiesOf ast) /\
               In setter (namesCalledIn (newSet (JsMap.values stateInfo)) body).
Proof.
  intros H. apply getOrEmpty_In_entry in H. destruct H as [cs [Hentry Hs]].
  unfold directSetters in Hentry.
  destruct (proj2 (callTable_keys _ _) g cs Hentry) as [_ [body [Hb ->]]].
  split.
  - apply namesCalledIn_names in Hs. exact (proj1 (newSet_In _ _) Hs).
  - now exists body.
Qed.

(** X13.  Every setter that [buildLocalFunctionSetterMap] lists for a
    function is a setter of [stateInfo] that some function reached
    from it by a chain of local calls calls directly.  Every entry of
    the result has a non-empty list and a function of the file as key,
    no key occurs twice, and without state the result is empty. *)
Theorem local_setter_map_sound :
  forall (ast : node) (stateInfo : JsMap.t string),
    let calls := localCalls ast in
    let direct := directSetters ast stateInfo in
    let result := buildLocalFunctionSetterMap ast stateInfo in
    (forall f setter, In setter (getOrEmpty result f) ->
       In setter (JsMap.values stateInfo) /\
       exists n g, callChain calls n f g /\
                   In setter (getOrEmpty direct g)) /\
    (forall f setters, In (f, setters) result ->
       setters <> [] /\ In f (JsMap.keys (functionBodiesOf ast))) /\
    NoDup (JsMap.keys result) /\
    (stateInfo = [] -> result = []).
Proof.
  intros ast stateInfo calls direct result.
  assert (Hcalls : NoDup (JsMap.keys calls))
    by (apply callTable_keys).
  assert (Hdirect : NoDup (JsMap.keys direct))
    by (apply callTable_keys).
  assert (Hres : result = propagate maxIterations calls direct)
    by reflexivity.
  assert (Hsound : forall f setter, In setter (getOrEmpty result f) ->
             In setter (JsMap.values stateInfo) /\
             exists n g, callChain calls n f g /\
                         In setter (getOrEmpty direct g)).
  { intros f setter H. rewrite Hres in H.
    destruct (propagate_sound calls direct Hcalls _ _ _ H)
      as [n [g [Hchain Hd]]].
    split; [exact (proj1 (direct_entries ast stateInfo g setter Hd)) |].
    now exists n, g. }
  assert (Hkeys : forall (table : JsMap.t (list string)) names f,
             table = callTable names (functionBodiesOf ast) ->
             In f (JsMap.keys table) ->
             In f (JsMap.keys (functionBodiesOf ast))).
  { intros table names f -> Hf. apply in_map_iff in Hf.
    destruct Hf as [[f' cs] [Hf Hin]]. cbn in Hf. subst f'.
    destruct (proj2 (callTable_keys _ _) f cs Hin) as [_ [body [Hb _]]].
    now apply (In_keys _ f body). }
  assert (Hshape : forall f setters, In (f, setters) result ->
             setters <> [] /\ In f (JsMap.keys (functionBodiesOf ast))).
  { intros f setters H. rewrite Hres in H.
    apply propagate_shaped in H.
    - destruct H as [Hne [Hk | Hk]]; (split; [exact Hne |]).
      + now apply (Hkeys direct (newSet (JsMap.values stateInfo))).
      + now apply (Hkeys calls (JsMap.keys (functionBodiesOf ast))).
    - intros f' cs Hin. exact (proj1 (proj2 (callTable_keys _ _) f' cs Hin)). }
  assert (Hnd : NoDup (JsMap.keys result))
    by (rewrite Hres; now apply propagate_NoDup).
  split; [exact Hsound |]. split; [exact Hshape |]. split; [exact Hnd |].
  intros ->. destruct result as [| [f setters] rest] eqn:E; [reflexivity |].
  exfalso.
  destruct (Hshape f setters (or_introl eq_refl)) as [Hne _].
  destruct setters as [| x setters]; [now apply Hne |].
  assert (Hx : In x (getOrEmpty ((f, x :: setters) :: rest) f)).
  { unfold getOrEmpty. cbn. rewrite String.eqb_refl. now left. }
  destruct (Hsound f x Hx) as [[] _].
Qed.

(** X14.  When the propagation loop of
    [buildLocalFunctionSetterMap] ends before its iteration limit, the
    setters listed for a function are exactly the setters called
    directly by the functions reachable from it through local
    calls. *)
Theorem local_setter_map_exact_when_loop_settles :
  forall (ast : node) (stateInfo : JsMap.t string),
    let calls := localCalls ast in
    let direct := directSetters ast stateInfo in
    let result := buildLocalFunctionSetterMap ast stateInfo in
    iterationsRun maxIterations calls direct < maxIterations ->
    forall f setter,
      In setter (getOrEmpty result f) <->
      exists n g, callChain calls n f g /\ In setter (getOrEmpty direct g).
Proof.
  intros ast stateInfo calls direct result Hsettled f setter.
  assert (Hres : result = propagate maxIterations calls direct)
    by reflexivity.
  split.
  - intros H. rewrite Hres in H.
    apply (propagate_sound calls direct) in H; [exact H |].
    apply callTable_keys.
  - intros [n [g [Hchain Hd]]]. rewrite Hres.
    apply (fixed_closed calls _ setter
             (propagate_fixed calls maxIterations direct Hsettled) n f g
             Hchain).
    now apply propagate_mono.
Qed.

Lemma local_setter_map_exact_witness :
  iterationsRun maxIterations (localCalls Samples.mutualProgram)
    (directSetters Samples.mutualProgram Samples.xState) < maxIterations /\
  In "setX" (getOrEmpty (buildLocalFunctionSetterMap Samples.mutualProgram
                           Samples.xState) "A").
Proof.
  assert (H : iterationsRun maxIterations (localCalls Samples.mutualProgram)
                (directSetters Samples.mutualProgram Samples.xState)
              < maxIterations).
  { apply Nat.ltb_lt. vm_compute. reflexivity. }
  split; [exact H |].
  apply (proj2 (local_setter_map_exact_when_loop_settles
                  Samples.mutualProgram Samples.xState H "A" "setX")).
  exists 1, "B". split.
  - apply (chain_cons _ 0 "A" "B" "B"); [| constructor].
    vm_compute. now left.
  - vm_compute. now left.
Defined.

(** ** Ignore comments *)

Lemma string_app_assoc (a b c : string) :
  ((a ++ b) ++ c = a ++ (b ++ c))%string.
Proof. induction a as [| x a IH]; cbn; [reflexivity | now rewrite IH]. Qed.

Lemma string_app_nil_r (a : string) : (a ++ EmptyString = a)%string.
Proof. induction a as [| x a IH]; cbn; [reflexivity | now rewrite IH]. Qed.

Lemma afterPrefix_app (p s : string) : afterPrefix p (p ++ s) = Some s.
Proof.
  induction p as [| a p IH]; cbn; [now destruct s |].
  now rewrite Ascii.eqb_refl.
Qed.

Lemma afterPrefix_Some (p s r : string) :
  afterPrefix p s = Some r -> s = (p ++ r)%string.
Proof.
  revert s. induction p as [| a p IH]; intros s; cbn.
  - destruct s; intros [= <-]; reflexivity.
  - destruct s as [| b s]; [discriminate |].
    destruct (Ascii.eqb a b) eqn:E; [| discriminate].
    apply Ascii.eqb_eq in E. subst b. intros H. now rewrite (IH s H).
Qed.

Lemma skipWhiteSpace_split (s : string) :
  exists ws, s = (ws ++ skipWhiteSpace s)%string /\ allWhiteSpace ws = true.
Proof.
  induction s as [| c s IH]; cbn.
  - now exists EmptyString.
  - destruct (isWhiteSpace c) eqn:E.
    + destruct IH as [ws [Hs Hws]]. exists (String c ws). cbn.
      rewrite E, Hws. split; [now rewrite <- Hs | reflexivity].
    + now exists EmptyString.
Qed.

Lemma skipWhiteSpace_app (ws t : string) :
  allWhiteSpace ws = true -> startsBlack t = true ->
  skipWhiteSpace (ws ++ t) = t.
Proof.
  intros Hws Ht. induction ws as [| c ws IH]; cbn.
  - destruct t as [| c t]; [reflexivity |]. cbn in Ht |- *.
    now destruct (isWhiteSpace c).
  - cbn in Hws. apply andb_true_iff in Hws. destruct Hws as [Hc Hws].
    rewrite Hc. now apply IH.
Qed.

Lemma matchesSomewhere_spec (matchAt : string -> bool) (s : string) :
  matchesSomewhere matchAt s = true <->
  exists pre post, s = (pre ++ post)%string /\ matchAt post = true.
Proof.
  induction s as [| c s IH]; cbn.
  - rewrite orb_false_r. split.
    + intros H. now exists EmptyString, EmptyString.
    + intros [pre [post [Hs H]]].
      destruct pre; [| discriminate]. cbn in Hs. now subst post.
  - rewrite orb_true_iff, IH. split.
    + intros [H | [pre [post [Hs H]]]].
      * now exists EmptyString, (String c s).
      * exists (String c pre), post. cbn. now rewrite Hs.
    + intros [pre [post [Hs H]]]. destruct pre as [| a pre]; cbn in Hs.
      * left. now subst post.
      * right. injection Hs as _ Hs. now exists pre, post.
Qed.

Lemma lineCommentAt_spec (word s : string) :
  startsBlack word = true -> word <> EmptyString ->
  (lineCommentAt word s = true <->
   exists ws post,
     s = ("//" ++ ws ++ word ++ post)%string /\
     allWhiteSpace ws = true /\ wordEndsHere post = true).
Proof.
  intros Hblack Hne. unfold lineCommentAt. split.
  - destruct (afterPrefix "//" s) as [r |] eqn:E1; [| discriminate].
    destruct (afterPrefix word (skipWhiteSpace r)) as [r' |] eqn:E2;
      [| discriminate].
    intros Hend. apply afterPrefix_Some in E1, E2.
    destruct (skipWhiteSpace_split r) as [ws [Hr Hws]].
    exists ws, r'. split; [| now split].
    rewrite E1, Hr, E2. reflexivity.
  - intros [ws [post [-> [Hws Hend]]]].
    rewrite afterPrefix_app.
    rewrite skipWhiteSpace_app; [| exact Hws |].
    + now rewrite afterPrefix_app.
    + destruct word as [| c w]; [contradiction | exact Hblack].
Qed.

Lemma blockCommentAt_spec (word s : string) :
  startsBlack word = true -> word <> EmptyString ->
  (blockCommentAt word s = true <->
   exists ws ws' post,
     s = ("/*" ++ ws ++ word ++ ws' ++ "*/" ++ post)%string /\
     allWhiteSpace ws = true /\ allWhiteSpace ws' = true).
Proof.
  intros Hblack Hne. unfold blockCommentAt. split.
  - destruct (afterPrefix "/*" s) as [r |] eqn:E1; [| discriminate].
    destruct (afterPrefix word (skipWhiteSpace r)) as [r' |] eqn:E2;
      [| discriminate].
    destruct (afterPrefix "*/" (skipWhiteSpace r')) as [r'' |] eqn:E3;
      [| discriminate].
    intros _. apply afterPrefix_Some in E1, E2, E3.
    destruct (skipWhiteSpace_split r) as [ws [Hr Hws]].
    destruct (skipWhiteSpace_split r') as [ws' [Hr' Hws']].
    exists ws, ws', r''. split; [| now split].
    rewrite E1, Hr, E2, Hr', E3. reflexivity.
  - intros [ws [ws' [post [-> [Hws Hws']]]]].
    rewrite afterPrefix_app.
    rewrite skipWhiteSpace_app; [| exact Hws |].
    + rewrite afterPrefix_app.
      rewrite skipWhiteSpace_app; [| exact Hws' | reflexivity].
      now rewrite afterPrefix_app.
    + destruct word as [| c w]; [contradiction | exact Hblack].
Qed.

Lemma splitOn_head (sep : ascii) (s : string) :
  exists first others post,
    splitOn sep s = first :: others /\ s = (first ++ post)%string.
Proof.
  induction s as [| c s IH]; cbn.
  - now exists EmptyString, [], EmptyString.
  - destruct (Ascii.eqb c sep).
    + now exists EmptyString, (splitOn sep s), (String c s).
    + destruct IH as [first [others [post [-> Hs]]]].
      exists (String c first), others, post. split; [reflexivity |].
      cbn. now rewrite <- Hs.
Qed.

Lemma splitOn_substring (sep : ascii) (s line : string) :
  In line (splitOn sep s) ->
  exists pre post, s = (pre ++ line ++ post)%string.
Proof.
  revert line. induction s as [| c s IH]; intros line; cbn.
  - intros [<- | []]. now exists EmptyString, EmptyString.
  - destruct (Ascii.eqb c sep).
    + intros [<- | H].
      * now exists EmptyString, (String c s).
      * destruct (IH line H) as [pre [post Hs]].
        exists (String c pre), post. cbn. now rewrite <- Hs.
    + destruct (splitOn_head sep s) as [first [others [post [E Hs]]]].
      rewrite E in IH |- *. intros [<- | H].
      * exists EmptyString, post. cbn. now rewrite <- Hs.
      * destruct (IH line (or_intror H)) as [pre [post' Hs']].
        exists (String c pre), post'. cbn. now rewrite <- Hs'.
Qed.

Lemma splitOn_length (sep : ascii) (s : string) :
  1 <= length (splitOn sep s).
Proof.
  destruct (splitOn_head sep s) as [first [others [post [-> _]]]]. cbn. lia.
Qed.

(** The marker of the next-line comment starts with the marker of the
    same-line comment, and a hyphen ends a word. *)
Lemma nextLine_lineComment (s : string) :
  lineCommentAt "rld-ignore-next-line" s = true ->
  lineCommentAt "rld-ignore" s = true.
Proof.
  intros H.
  apply (lineCommentAt_spec "rld-ignore-next-line") in H;
    [| reflexivity | discriminate].
  destruct H as [ws [post [-> [Hws _]]]].
  apply (lineCommentAt_spec "rld-ignore"); [reflexivity | discriminate |].
  exists ws, ("-next-line" ++ post)%string. split; [| now split].
  reflexivity.
Qed.

Lemma matchesSomewhere_impl (f g : string -> bool) (s : string) :
  (forall t, f t = true -> g t = true) ->
  matchesSomewhere f s = true -> matchesSomewhere g s = true.
Proof.
  intros Hfg H. apply matchesSomewhere_spec in H.
  destruct H as [pre [post [Hs H]]].
  apply matchesSomewhere_spec. exists pre, post. split; [exact Hs | auto].
Qed.

Lemma occursIn_trans (w s t : string) :
  occursIn w s -> occursIn s t -> occursIn w t.
Proof.
  intros [p1 [q1 ->]] [p2 [q2 ->]].
  exists (p2 ++ p1)%string, (q1 ++ q2)%string.
  now rewrite !string_app_assoc.
Qed.

Lemma hasIgnoreComment_occurs (word line : string) :
  startsBlack word = true -> word <> EmptyString ->
  hasIgnoreComment word line = true -> occursIn word line.
Proof.
  intros Hb Hne H. unfold hasIgnoreComment in H.
  apply orb_true_iff in H. destruct H as [H | H];
    apply matchesSomewhere_spec in H; destruct H as [pre [post [-> H]]].
  - apply (lineCommentAt_spec word) in H; [| exact Hb | exact Hne].
    destruct H as [ws [post' [-> _]]].
    exists (pre ++ "//" ++ ws)%string, post'.
    now rewrite !string_app_assoc.
  - apply (blockCommentAt_spec word) in H; [| exact Hb | exact Hne].
    destruct H as [ws [ws' [post' [-> _]]]].
    exists (pre ++ "/*" ++ ws)%string, (ws' ++ "*/" ++ post')%string.
    now rewrite !string_app_assoc.
Qed.

Lemma isHookIgnored_cases (fileContent : string) (hookLine : nat) :
  isHookIgnored fileContent hookLine = true ->
  let lines := splitOn newline fileContent in
  1 <= hookLine <= length lines /\
  (hasIgnoreComment "rld-ignore" (nth (hookLine - 1) lines EmptyString)
   = true \/
   (2 <= hookLine /\
    hasIgnoreComment "rld-ignore-next-line"
      (nth (hookLine - 2) lines EmptyString) = true)).
Proof.
  unfold isHookIgnored. cbv zeta.
  set (lines := splitOn newline fileContent).
  destruct (Nat.ltb 0 hookLine) eqn:E0; cbn [andb].
  - destruct (Nat.leb hookLine (length lines)) eqn:E1; cbn [andb].
    + apply Nat.ltb_lt in E0. apply Nat.leb_le in E1.
      destruct (hasIgnoreComment "rld-ignore" _) eqn:E2.
      * intros _. split; [lia | now left].
      * destruct (Nat.ltb 1 hookLine) eqn:E3; cbn [andb]; [| discriminate].
        apply Nat.ltb_lt in E3.
        destruct (hasIgnoreComment "rld-ignore-next-line" _) eqn:E4;
          [| discriminate].
        intros _. split; [lia | right; split; [lia | reflexivity]].
    + rewrite andb_false_r. cbn. discriminate.
  - apply Nat.ltb_ge in E0.
    assert (Nat.ltb 1 hookLine = false) as -> by (apply Nat.ltb_ge; lia).
    discriminate.
Qed.

Lemma hasIgnoreComment_spec (word line : string) :
  startsBlack word = true -> word <> EmptyString ->
  (hasIgnoreComment word line = true <->
   (exists pre ws post,
      line = (pre ++ "//" ++ ws ++ word ++ post)%string /\
      allWhiteSpace ws = true /\ wordEndsHere post = true) \/
   (exists pre ws ws' post,
      line = (pre ++ "/*" ++ ws ++ word ++ ws' ++ "*/" ++ post)%string /\
      allWhiteSpace ws = true /\ allWhiteSpace ws' = true)).
Proof.
  intros Hb Hne. unfold hasIgnoreComment.
  rewrite orb_true_iff, !matchesSomewhere_spec. split.
  - intros [[pre [post [-> H]]] | [pre [post [-> H]]]].
    + left. apply (lineCommentAt_spec word _ Hb Hne) in H.
      destruct H as [ws [post' [-> H]]]. now exists pre, ws, post'.
    + right. apply (blockCommentAt_spec word _ Hb Hne) in H.
      destruct H as [ws [ws' [post' [-> H]]]]. now exists pre, ws, ws', post'.
  - intros [[pre [ws [post [-> H]]]] | [pre [ws [ws' [post [-> H]]]]]].
    + left. eexists pre, _. split; [reflexivity |].
      apply (lineCommentAt_spec word _ Hb Hne). now exists ws, post.
    + right. eexists pre, _. split; [reflexivity |].
      apply (blockCommentAt_spec word _ Hb Hne). now exists ws, ws', post.
Qed.

(** X15.  What [isHookIgnored] accepts as an ignore comment on a
    line, for either marker: [//], optional white space and the marker,
    followed by the end of the line or a character that is not a letter,
    a digit or an underscore; or [/*], optional white space, the marker,
    optional white space and [*/].  The comment may stand anywhere in
    the line. *)
Theorem ignore_comment_grammar :
  forall line : string,
    (hasIgnoreComment "rld-ignore" line = true <->
     (exists pre ws post,
        line = (pre ++ "//" ++ ws ++ "rld-ignore" ++ post)%string /\
        allWhiteSpace ws = true /\ wordEndsHere post = true) \/
     (exists pre ws ws' post,
        line = (pre ++ "/*" ++ ws ++ "rld-ignore" ++ ws' ++ "*/" ++ post)%string
        /\ allWhiteSpace ws = true /\ allWhiteSpace ws' = true)) /\
    (hasIgnoreComment "rld-ignore-next-line" line = true <->
     (exists pre ws post,
        line = (pre ++ "//" ++ ws ++ "rld-ignore-next-line" ++ post)%string /\
        allWhiteSpace ws = true /\ wordEndsHere post = true) \/
     (exists pre ws ws' post,
        line = (pre ++ "/*" ++ ws ++ "rld-ignore-next-line" ++ ws' ++ "*/"
                    ++ post)%string
        /\ allWhiteSpace ws = true /\ allWhiteSpace ws' = true)).
Proof.
  intros line. split; apply hasIgnoreComment_spec;
    solve [reflexivity | discriminate].
Qed.

(** X16.  [isHookIgnored] ignores nothing outside the lines of the
    file (line numbers start at 1).  A line comment
    [// rld-ignore-next-line] on a line makes the hook on that same line
    ignored as well as the hook on the next line, since the marker
    [rld-ignore] ends at the hyphen.  A file in which the text
    [rld-ignore] does not occur has no ignored hook. *)
Theorem ignore_comment_scope :
  forall (fileContent : string) (hookLine : nat),
    let lines := splitOn newline fileContent in
    (isHookIgnored fileContent hookLine = true ->
     1 <= hookLine <= length lines) /\
    (forall k pre ws post,
        nth_error lines k =
          Some (pre ++ "//" ++ ws ++ "rld-ignore-next-line" ++ post)%string ->
        allWhiteSpace ws = true -> wordEndsHere post = true ->
        isHookIgnored fileContent (S k) = true /\
        (S (S k) <= length lines ->
         isHookIgnored fileContent (S (S k)) = true)) /\
    ((forall pre post,
         fileContent <> (pre ++ "rld-ignore" ++ post)%string) ->
     isHookIgnored fileContent hookLine = false).
Proof.
  intros fileContent hookLine lines. split; [| split].
  - intros H. exact (proj1 (isHookIgnored_cases _ _ H)).
  - intros k pre ws post Hk Hws Hend.
    set (line := (pre ++ "//" ++ ws ++ "rld-ignore-next-line" ++ post)%string)
      in *.
    assert (Hline : matchesSomewhere (lineCommentAt "rld-ignore-next-line")
                      line = true).
    { apply matchesSomewhere_spec. eexists pre, _. split; [reflexivity |].
      apply (lineCommentAt_spec "rld-ignore-next-line");
        [reflexivity | discriminate |].
      now exists ws, post. }
    assert (Hlen : k < length lines) by (apply nth_error_Some; congruence).
    assert (Hnth : nth k lines EmptyString = line)
      by (now apply nth_error_nth).
    split.
    + unfold isHookIgnored. fold lines.
      assert (Nat.leb (S k) (length lines) = true) as ->
        by (apply Nat.leb_le; lia).
      assert (Nat.ltb 0 (S k) = true) as -> by reflexivity.
      replace (S k - 1) with k by lia. rewrite Hnth. cbn [andb].
      unfold hasIgnoreComment at 1.
      rewrite (matchesSomewhere_impl _ (lineCommentAt "rld-ignore") line
                 nextLine_lineComment Hline).
      reflexivity.
    + intros Hnext. unfold isHookIgnored. fold lines.
      assert (Nat.leb (S (S k)) (length lines) = true) as ->
        by (apply Nat.leb_le; lia).
      assert (Nat.ltb 0 (S (S k)) = true) as -> by reflexivity.
      assert (Nat.ltb 1 (S (S k)) = true) as -> by reflexivity.
      replace (S (S k) - 2) with k by lia. rewrite Hnth. cbn [andb].
      unfold hasIgnoreComment at 2. rewrite Hline. cbn [orb].
      now destruct (hasIgnoreComment "rld-ignore" _).
  - intros Hnone.
    destruct (isHookIgnored fileContent hookLine) eqn:E; [| reflexivity].
    exfalso. apply isHookIgnored_cases in E. fold lines in E.
    destruct E as [Hrange Hcases].
    assert (Hsub : forall i, i < length lines ->
               occursIn (nth i lines EmptyString) fileContent).
    { intros i Hi. apply (splitOn_substring newline).
      now apply nth_In. }
    assert (Hfound : occursIn "rld-ignore" fileContent).
    { destruct Hcases as [H | [H2 H]].
      - apply (occursIn_trans _ (nth (hookLine - 1) lines EmptyString));
          [| apply Hsub; lia].
        apply hasIgnoreComment_occurs; [reflexivity | discriminate | exact H].
      - apply (occursIn_trans _ (nth (hookLine - 2) lines EmptyString));
          [| apply Hsub; lia].
        apply (occursIn_trans _ "rld-ignore-next-line").
        + now exists EmptyString, "-next-line".
        + apply hasIgnoreComment_occurs;
            [reflexivity | discriminate | exact H]. }
    destruct Hfound as [pre [post Hc]]. exact (Hnone pre post Hc).
Qed.

(** ** Findings for effects without a dependency array *)

Lemma settersCalledOrPassed_names (setterNames : list string) (func : node)
  (x : string) :
  In x (settersCalledOrPassed setterNames func) -> In x setterNames.
Proof.
  unfold settersCalledOrPassed. intros H. apply in_flat_map in H.
  destruct H as [s [_ H]].
  destruct (s_node s); try contradiction.
  apply in_app_iff in H. destruct H as [H | H].
  - match type of H with
    | context [match ?c with Identifier _ => _ | _ => _ end] => destruct c
    end; try contradiction.
    match goal with
    | H : In x (if strIn ?n setterNames then _ else _) |- _ =>
        destruct (strIn n setterNames) eqn:E; [| contradiction];
        destruct H as [<- | []]; now apply strIn_In
    end.
  - apply in_flat_map in H. destruct H as [arg [_ H]].
    destruct arg; try contradiction.
    match goal with
    | H : In x (if strIn ?n setterNames then _ else _) |- _ =>
        destruct (strIn n setterNames) eqn:E; [| contradiction];
        destruct H as [<- | []]; now apply strIn_In
    end.
Qed.

Lemma settersOnly_set (setterNames : list string)
  (m : JsMap.t (list string)) (k : string) (func : node) :
  settersOnly setterNames m ->
  settersOnly setterNames
    (match settersCalledOrPassed setterNames func with
     | [] => m
     | settersCalled => JsMap.set m k settersCalled
     end).
Proof.
  intros Hm.
  destruct (settersCalledOrPassed setterNames func) as [| c cs] eqn:E;
    [exact Hm |].
  intros k' l x. rewrite JsMap_get_set.
  destruct (String.eqb k' k); [| apply Hm].
  intros [= <-] Hx. apply (settersCalledOrPassed_names setterNames func).
  now rewrite E.
Qed.

Lemma collectObjectMember_settersOnly (setterNames : list string)
  (varName : string) (m : JsMap.t (list string)) (prop : node) :
  settersOnly setterNames m ->
  settersOnly setterNames (collectObjectMember setterNames varName m prop).
Proof.
  intros Hm. unfold collectObjectMember.
  destruct prop; try exact Hm.
  - (* ObjectProperty *)
    destruct (methodNameOf _); [| exact Hm].
    case_if; [| exact Hm]. now apply settersOnly_set.
  - (* ObjectMethod *)
    destruct (methodNameOf _); [| exact Hm]. now apply settersOnly_set.
Qed.

Lemma collectSetterCallers_settersOnly (setterNames : list string)
  (st : JsMap.t (list string) * JsMap.t (list string)) (s : site) :
  settersOnly setterNames (fst st) /\ settersOnly setterNames (snd st) ->
  settersOnly setterNames (fst (collectSetterCallers setterNames st s)) /\
  settersOnly setterNames (snd (collectSetterCallers setterNames st s)).
Proof.
  destruct st as [fs ms]. cbn [fst snd]. intros [Hf Hm].
  unfold collectSetterCallers.
  destruct (s_node s) eqn:En; try (now split).
  - (* VariableDeclarator *)
    match goal with
    | |- context [match ?i with Identifier _ => _ | _ => _ end] =>
        destruct i
    end; try (now split).
    match goal with
    | |- context [match ?o with Some _ => _ | None => _ end] =>
        destruct o as [init0 |]
    end; try (now split).
    destruct (isFunctionLiteral init0).
    + match goal with
      | |- context [settersCalledOrPassed setterNames ?f] =>
          pose proof (settersOnly_set setterNames fs name f Hf) as Hset;
          destruct (settersCalledOrPassed setterNames f)
      end; cbn [fst snd]; now split.
    + destruct init0; try (now split). cbn [fst snd]. split; [exact Hf |].
      apply fold_left_preserves; [| exact Hm].
      intros m p. apply collectObjectMember_settersOnly.
  - (* FunctionDeclaration *)
    match goal with
    | |- context [match ?o with Some _ => _ | None => _ end] =>
        destruct o as [funcName |]
    end; try (now split).
    case_if; [now split |]. case_if; [now split |].
    match goal with
    | |- context [settersCalledOrPassed setterNames ?f] =>
        pose proof (settersOnly_set setterNames fs funcName f Hf) as Hset;
        destruct (settersCalledOrPassed setterNames f)
    end; cbn [fst snd]; now split.
Qed.

Lemma getOrEmpty_settersOnly (setterNames : list string)
  (m : JsMap.t (list string)) (k x : string) :
  settersOnly setterNames m -> In x (getOrEmpty m k) -> In x setterNames.
Proof.
  intros Hm. unfold getOrEmpty.
  destruct (JsMap.get m k) as [l |] eqn:E; [| intros []].
  now apply (Hm k l x).
Qed.

Lemma collectCallbackCall_names (setterNames : list string)
  (fs ms : JsMap.t (list string)) (acc : list string * list string)
  (s : site) :
  settersOnly setterNames fs -> settersOnly setterNames ms ->
  (forall x, In x (fst acc) -> In x setterNames) ->
  forall x, In x (fst (collectCallbackCall setterNames fs ms acc s)) ->
            In x setterNames.
Proof.
  intros Hf Hm Hacc. destruct acc as [setterCalls functionCalls].
  cbn [fst] in Hacc. unfold collectCallbackCall.
  destruct (s_node s); try exact Hacc.
  split_match; try exact Hacc.
  - (* identifier callee *)
    match goal with
    | |- context [strIn ?n setterNames] =>
        assert (H1 : forall x,
                  In x (if strIn n setterNames
                        then setterCalls ++ [n] else setterCalls) ->
                  In x setterNames);
        [ intros x; destruct (strIn n setterNames) eqn:E; [| apply Hacc];
          intros H; apply in_app_iff in H;
          destruct H as [H | [<- | []]];
          [now apply Hacc | now apply strIn_In]
        | destruct (JsMap.has fs n); cbn [fst]; [| exact H1];
          intros x H; apply in_app_iff in H; destruct H as [H | H];
          [now apply H1 | now apply (getOrEmpty_settersOnly _ fs n)] ]
    end.
  - (* member callee *)
    split_match; try exact Hacc.
    split_match; try exact Hacc.
    case_if; cbn [fst]; [| exact Hacc].
    intros x H. apply in_app_iff in H. destruct H as [H | H];
      [now apply Hacc |].
    now apply (getOrEmpty_settersOnly _ ms _ x Hm H).
Qed.

Lemma collected_callers_settersOnly (setterNames : list string)
  (l : list site) :
  let st := fold_left (collectSetterCallers setterNames) l ([], []) in
  settersOnly setterNames (fst st) /\ settersOnly setterNames (snd st).
Proof.
  cbv zeta.
  apply (fold_left_preserves (collectSetterCallers setterNames)
           (fun st => settersOnly setterNames (fst st) /\
                      settersOnly setterNames (snd st))).
  - intros st s. apply collectSetterCallers_settersOnly.
  - split; intros k l0 x H; discriminate.
Qed.

Lemma callback_calls_names (setterNames : list string)
  (fs ms : JsMap.t (list string)) (l : list site) :
  settersOnly setterNames fs -> settersOnly setterNames ms ->
  forall x,
    In x (fst (fold_left (collectCallbackCall setterNames fs ms) l ([], [])))
    -> In x setterNames.
Proof.
  intros Hf Hm.
  apply (fold_left_preserves (collectCallbackCall setterNames fs ms)
           (fun acc => forall x, In x (fst acc) -> In x setterNames)).
  - intros acc s Hacc. now apply collectCallbackCall_names.
  - intros x [].
Qed.

(** What [detectUseEffectWithoutDeps] reports, whatever the function
    that reads the ignore comments. *)
Lemma missing_deps_finding (ignored : string -> nat -> bool) (ast : node)
  (stateInfo : JsMap.t string) (filePath : string)
  (fileContent : option string) (finding : HookAnalysis) :
  In finding (detectUseEffectWithoutDeps ignored ast stateInfo filePath
                fileContent) ->
  (ha_type finding = confirmed_infinite_loop /\
   ha_errorCode finding = "RLD-201" /\
   ha_category finding = critical /\
   ha_severity finding = high /\
   (ha_confidence finding = high \/ ha_confidence finding = medium) /\
   ha_description finding =
     getDescriptionForErrorCode (ha_errorCode finding) (ha_hookType finding) /\
   ha_file finding = filePath) /\
  (exists firstSetter rest stateVar,
     ha_actualStateModifications finding = firstSetter :: rest /\
     ha_setterFunction finding = Some firstSetter /\
     ha_stateVariable finding = Some stateVar /\
     (In (stateVar, firstSetter) stateInfo \/ stateVar = firstSetter)) /\
  (forall x, In x (ha_actualStateModifications finding) ->
             In x (JsMap.values stateInfo)) /\
  (forall content, fileContent = Some content -> content <> EmptyString ->
                   ignored content (ha_line finding) = false).
Proof.
  unfold detectUseEffectWithoutDeps.
  set (setterNames := newSet (JsMap.values stateInfo)).
  pose proof (collected_callers_settersOnly setterNames (walk ast)) as Hc.
  cbv zeta in Hc.
  destruct (fold_left (collectSetterCallers setterNames) (walk ast) ([], []))
    as [fs ms]. cbn [fst snd] in Hc. destruct Hc as [Hf Hm].
  intros H. apply in_flat_map in H. destruct H as [s [_ H]].
  unfold reportForCall in H.
  destruct (s_node s); try contradiction.
  match type of H with
  | context [match ?c with Identifier _ => _ | _ => _ end] => destruct c
  end; try contradiction.
  match type of H with
  | context [isEffectHookName ?n] =>
      destruct (isEffectHookName n); cbn [negb] in H; [| contradiction]
  end.
  match type of H with
  | context [match ?a with [] => _ | _ :: _ => _ end] =>
      destruct a as [| callback [| x rest]]; try contradiction
  end.
  destruct (isFunctionLiteral callback); cbn [negb] in H; [| contradiction].
  match type of H with
  | context [if ?b then [] else _] => destruct b eqn:Eignored
  end; [contradiction |].
  pose proof (callback_calls_names setterNames fs ms (walk callback) Hf Hm)
    as Hnames.
  fold setterNames in H.
  destruct (fold_left (collectCallbackCall setterNames fs ms) (walk callback)
              ([], [])) as [setterCalls functionCalls].
  cbn [fst] in Hnames.
  unfold missingDepsFinding in H.
  destruct setterCalls as [| firstSetter others]; [contradiction |].
  destruct H as [<- | []]. cbn.
  split; [| split; [| split]].
  - repeat split. destruct functionCalls; [now left | now right].
  - exists firstSetter, others.
    destruct (truthyString (JsMap.get (reverseStateMap stateInfo) firstSetter))
      as [v |] eqn:Ev.
    + exists v. repeat split. left.
      apply truthyString_Some in Ev. destruct Ev as [Ev _].
      now apply reverseStateMap_sound.
    + exists firstSetter. repeat split. now right.
  - intros x Hx. exact (proj1 (newSet_In _ _) (Hnames x Hx)).
  - intros content -> Hne.
    destruct content as [| c content]; [contradiction |]. exact Eignored.
Qed.

(** X17.  Every finding of [detectUseEffectWithoutDeps] is a
    confirmed infinite loop with error code RLD-201, critical category,
    high severity, high or medium confidence and the description of
    RLD-201, in the analysed file.  Its modifications are a non-empty
    list of setters of [stateInfo]; the first of them is its setter
    function, and its state variable is declared with that setter in
    [stateInfo] (or is the setter's own name).  When the file content
    is given and not empty, the line of the finding is not an ignored
    one. *)
Theorem missing_deps_finding_shape :
  forall (ast : node) (stateInfo : JsMap.t string) (filePath : string)
         (fileContent : option string) (finding : HookAnalysis),
    In finding (detectUseEffectWithoutDeps isHookIgnored ast stateInfo
                  filePath fileContent) ->
    (ha_type finding = confirmed_infinite_loop /\
     ha_errorCode finding = "RLD-201" /\
     ha_category finding = critical /\
     ha_severity finding = high /\
     (ha_confidence finding = high \/ ha_confidence finding = medium) /\
     ha_description finding =
       getDescriptionForErrorCode (ha_errorCode finding)
         (ha_hookType finding) /\
     ha_file finding = filePath) /\
    (exists firstSetter rest stateVar,
       ha_actualStateModifications finding = firstSetter :: rest /\
       ha_setterFunction finding = Some firstSetter /\
       ha_stateVariable finding = Some stateVar /\
       (In (stateVar, firstSetter) stateInfo \/ stateVar = firstSetter)) /\
    (forall x, In x (ha_actualStateModifications finding) ->
               In x (JsMap.values stateInfo)) /\
    (forall content, fileContent = Some content -> content <> EmptyString ->
                     isHookIgnored content (ha_line finding) = false).
Proof.
  intros ast stateInfo filePath fileContent finding H.
  exact (missing_deps_finding isHookIgnored ast stateInfo filePath
           fileContent finding H).
Qed.

Lemma missing_deps_finding_shape_witness :
  let findings :=
    detectUseEffectWithoutDeps isHookIgnored Samples.effectsProgram
      Samples.countState "App.tsx" None in
  exists finding,
    (findings = [finding] /\ ha_line finding = 4) /\
    ha_errorCode finding = "RLD-201" /\
    ha_actualStateModifications finding = ["setCount"].
Proof.
  intros findings.
  assert (Hone : exists finding, findings = [finding] /\ ha_line finding = 4 /\
                   ha_actualStateModifications finding = ["setCount"])
    by (eexists; split; [vm_compute; reflexivity | split; reflexivity]).
  destruct Hone as [finding [Hf [Hl Hm]]].
  exists finding. split; [split; assumption |].
  destruct (missing_deps_finding_shape Samples.effectsProgram
              Samples.countState "App.tsx" None finding)
    as [[_ [Hcode _]] _].
  - fold findings. rewrite Hf. now left.
  - split; [exact Hcode | exact Hm].
Defined.

(** X18.  A file without state variables gets no finding from
    [detectUseEffectWithoutDeps], whatever effects it has. *)
Theorem no_state_no_missing_deps_finding :
  forall (ast : node) (filePath : string) (fileContent : option string),
    detectUseEffectWithoutDeps isHookIgnored ast [] filePath fileContent = [].
Proof.
  intros ast filePath fileContent.
  destruct (detectUseEffectWithoutDeps isHookIgnored ast [] filePath
              fileContent) as [| finding rest] eqn:E; [reflexivity |].
  exfalso.
  assert (Hin : In finding (detectUseEffectWithoutDeps isHookIgnored ast []
                              filePath fileContent))
    by (rewrite E; now left).
  destruct (missing_deps_finding _ _ _ _ _ _ Hin)
    as [_ [[firstSetter [others [sv [Hmods _]]]] [Hnames _]]].
  apply (Hnames firstSetter). rewrite Hmods. now left.
Qed.

(** ** State and ref variables *)

Lemma firstTwoIdentifiers_Some elements a b :
  firstTwoIdentifiers elements = Some (a, b) ->
  exists rest, elements = Identifier a :: Identifier b :: rest.
Proof.
  destruct elements as [|[] [|[] rest]]; cbn; try discriminate.
  intros [= <- <-]. now exists rest.
Qed.

Lemma collectRef_state id init info :
  stateVariables (collectRef id init info) = stateVariables info.
Proof.
  unfold collectRef. repeat split_match; reflexivity.
Qed.

Lemma collectRef_refs id init info line name :
  In name (refVariables (collectRef id init info)) <->
  In name (refVariables info) \/
  declaresRef (VariableDeclarator line id init) name.
Proof.
  unfold collectRef, declaresRef.
  assert (Hskip : forall info',
             (forall l c a, id = Identifier name ->
                init = Some (CallExpression l (Identifier c) a) ->
                c <> "useRef") ->
             In name (refVariables info') <->
             In name (refVariables info') \/
             (exists line0 l args,
                 VariableDeclarator line id init =
                 VariableDeclarator line0 (Identifier name)
                   (Some (CallExpression l (Identifier "useRef") args)))).
  { intros info' Hno. split; [now left |].
    intros [H | (?&?&?& [= _ -> ->])]; [exact H |].
    now destruct (Hno _ _ _ eq_refl eq_refl). }
  destruct id; try (apply Hskip; intros; discriminate).
  destruct init as [[]|]; try (apply Hskip; intros; discriminate).
  match goal with |- context [match ?c with Identifier _ => _ | _ => _ end] =>
    destruct c end; try (apply Hskip; intros; discriminate).
  match goal with |- context [String.eqb ?c "useRef"] =>
    destruct (String.eqb_spec c "useRef") as [-> | Hne] end.
  - cbn [refVariables]. rewrite setAdd_In. split.
    + intros [H | ->]; [now left | right]. now eexists _, _, _.
    + intros [H | (?&?&?& [= _ -> _ _])]; [now left | now right].
  - apply Hskip. intros l c a [= ->] [= _ -> _]. exact Hne.
Qed.

Lemma collectStateHook_refs id init info :
  refVariables (collectStateHook id init info) = refVariables info.
Proof.
  unfold collectStateHook, setStateVariable. repeat split_match; reflexivity.
Qed.

Lemma collectCustomHook_refs id init info :
  refVariables (collectCustomHook id init info) = refVariables info.
Proof.
  unfold collectCustomHook, setStateVariable. repeat split_match; reflexivity.
Qed.

Lemma collectContext_refs id init info :
  refVariables (collectContext id init info) = refVariables info.
Proof.
  unfold collectContext. repeat split_match; try reflexivity.
  apply fold_left_preserves with (Q := fun a => refVariables a = refVariables info);
    [|reflexivity].
  intros a y Ha. now split_match.
Qed.

Lemma JsMap_has_set {V} (m : JsMap.t V) (k k' : string) (v : V) :
  JsMap.has (JsMap.set m k v) k' = String.eqb k' k || JsMap.has m k'.
Proof.
  unfold JsMap.has. rewrite JsMap_get_set.
  now destruct (String.eqb k' k).
Qed.

Lemma JsMap_has_In {V} (m : JsMap.t V) (k : string) :
  JsMap.has m k = true <-> exists v, In (k, v) m.
Proof.
  unfold JsMap.has. induction m as [|[k' v'] m IH]; cbn.
  - split; [discriminate | now intros [? []]].
  - destruct (String.eqb_spec k k') as [-> | Hne].
    + split; [intros _; exists v'; now left | reflexivity].
    + rewrite IH. split.
      * intros [v H]. exists v. now right.
      * intros [v [[= E _] | H]]; [now symmetry in E | now exists v].
Qed.

Lemma contextFold_sound properties names info state setter :
  (forall n, In n names -> In n (contextNames properties)) ->
  In (state, setter)
    (stateVariables
       (fold_left
          (fun acc name =>
             if looksLikeSetter name &&
                strIn (stateNameOfSetter name) (contextNames properties)
             then setStateVariable (stateNameOfSetter name) name acc
             else acc) names info)) ->
  In (state, setter) (stateVariables info) \/
  (In setter (contextNames properties) /\
   In state (contextNames properties) /\
   looksLikeSetter setter = true /\
   state = stateNameOfSetter setter).
Proof.
  revert info. induction names as [|n names IH]; intros info Hsub H.
  - now left.
  - cbn [fold_left] in H. apply IH in H; [|intros; apply Hsub; now right].
    destruct H as [H | H]; [|now right].
    destruct (looksLikeSetter n) eqn:Hset; cbn [andb] in H; [|now left].
    destruct (strIn (stateNameOfSetter n) (contextNames properties)) eqn:Hin;
      [|now left].
    cbn [setStateVariable stateVariables] in H.
    apply JsMap_set_In in H. destruct H as [[= -> ->] | H]; [right | now left].
    repeat split; try assumption.
    + apply Hsub. now left.
    + now apply strIn_In.
Qed.

Lemma contextFold_has properties names info k :
  JsMap.has (stateVariables info) k = true ->
  JsMap.has
    (stateVariables
       (fold_left
          (fun acc name =>
             if looksLikeSetter name &&
                strIn (stateNameOfSetter name) (contextNames properties)
             then setStateVariable (stateNameOfSetter name) name acc
             else acc) names info)) k = true.
Proof.
  intros H.
  apply fold_left_preserves
    with (Q := fun a => JsMap.has (stateVariables a) k = true); [|exact H].
  intros a y Ha. split_match; [|exact Ha].
  cbn [setStateVariable stateVariables]. rewrite JsMap_has_set, Ha.
  apply orb_true_r.
Qed.

Lemma contextFold_NoDup properties names info :
  NoDup (JsMap.keys (stateVariables info)) ->
  NoDup
    (JsMap.keys
       (stateVariables
          (fold_left
             (fun acc name =>
                if looksLikeSetter name &&
                   strIn (stateNameOfSetter name) (contextNames properties)
                then setStateVariable (stateNameOfSetter name) name acc
                else acc) names info))).
Proof.
  intros H.
  apply fold_left_preserves
    with (Q := fun a => NoDup (JsMap.keys (stateVariables a))); [|exact H].
  intros a y Ha. split_match; [|exact Ha].
  cbn [setStateVariable stateVariables]. now apply JsMap_set_keys.
Qed.

Lemma contextFold_complete properties names info setter :
  In setter names ->
  looksLikeSetter setter = true ->
  In (stateNameOfSetter setter) (contextNames properties) ->
  JsMap.has
    (stateVariables
       (fold_left
          (fun acc name =>
             if looksLikeSetter name &&
                strIn (stateNameOfSetter name) (contextNames properties)
             then setStateVariable (stateNameOfSetter name) name acc
             else acc) names info)) (stateNameOfSetter setter) = true.
Proof.
  intros Hin Hset Hstate.
  apply fold_left_reaches
    with (Q := fun a =>
                 JsMap.has (stateVariables a) (stateNameOfSetter setter) = true)
         (x := setter); [exact Hin | |].
  - intros a. rewrite Hset. cbn [andb].
    rewrite (proj2 (strIn_In _ _) Hstate).
    cbn [setStateVariable stateVariables].
    now rewrite JsMap_has_set, String.eqb_refl.
  - intros a y Ha. split_match; [|exact Ha].
    cbn [setStateVariable stateVariables]. rewrite JsMap_has_set, Ha.
    apply orb_true_r.
Qed.

Lemma declarator_state_sound l id init info state setter :
  In (state, setter)
    (stateVariables
       (collectContext id init
          (collectCustomHook id init
             (collectStateHook id init (collectRef id init info))))) ->
  In (state, setter) (stateVariables info) \/
  declaresState (VariableDeclarator l id init) state setter.
Proof.
  intros H.
  assert (Hctx :
    In (state, setter)
       (stateVariables
          (collectCustomHook id init
             (collectStateHook id init (collectRef id init info)))) \/
    declaresState (VariableDeclarator l id init) state setter).
  { revert H. generalize (collectCustomHook id init
             (collectStateHook id init (collectRef id init info))).
    intros info' H. unfold collectContext in H.
    destruct id; try (now left).
    destruct init as [[]|]; try (now left).
    match type of H with context [match ?c with Identifier _ => _ | _ => _ end] =>
      destruct c end; try (now left).
    match type of H with context [String.eqb ?c "useContext"] =>
      destruct (String.eqb_spec c "useContext") as [-> | Hne] end;
      [|now left].
    apply contextFold_sound in H; [|now intros].
    destruct H as [H | (H1 & H2 & H3 & H4)]; [now left | right].
    eexists _, _, _. split; [reflexivity |]. right.
    eexists _, _, _. repeat split; try reflexivity; assumption. }
  destruct Hctx as [Hc | Hc]; [|now right]. clear H.
  assert (Hcustom :
    In (state, setter)
       (stateVariables (collectStateHook id init (collectRef id init info))) \/
    declaresState (VariableDeclarator l id init) state setter).
  { revert Hc. generalize (collectStateHook id init (collectRef id init info)).
    intros info' H. unfold collectCustomHook in H.
    destruct id; try (now left).
    destruct init as [[]|]; try (now left).
    match type of H with context [match ?c with Identifier _ => _ | _ => _ end] =>
      destruct c end; try (now left).
    match type of H with context [startsWithUse ?c && _] =>
      destruct (startsWithUse c) eqn:Huse;
      destruct (String.eqb_spec c "useState") as [-> | Hne] end;
      cbn [andb negb] in H; try (now left).
    match type of H with context [firstTwoIdentifiers ?e] =>
      destruct (firstTwoIdentifiers e) as [[a b]|] eqn:Hel end; [|now left].
    destruct (looksLikeSetter b) eqn:Hset; [|now left].
    cbn [setStateVariable stateVariables] in H.
    apply JsMap_set_In in H. destruct H as [[= -> ->] | H]; [right | now left].
    apply firstTwoIdentifiers_Some in Hel. destruct Hel as [rest ->].
    eexists _, _, _. split; [reflexivity |]. left.
    exists rest. split; [reflexivity |]. right.
    eexists _, _, _. repeat split; try reflexivity; assumption. }
  destruct Hcustom as [Hc' | Hc']; [|now right]. clear Hc.
  revert Hc'. rewrite <- (collectRef_state id init info).
  generalize (collectRef id init info).
  intros info' H. unfold collectStateHook in H.
  destruct id; try (now left).
  destruct init as [init|]; [|now left].
  destruct (isCallExpression init && isStateHookCall init) eqn:Hhook;
    [|now left].
  match type of H with context [firstTwoIdentifiers ?e] =>
    destruct (firstTwoIdentifiers e) as [[a b]|] eqn:Hel end; [|now left].
  cbn [setStateVariable stateVariables] in H.
  apply JsMap_set_In in H. destruct H as [[= -> ->] | H]; [right | now left].
  apply firstTwoIdentifiers_Some in Hel. destruct Hel as [rest ->].
  apply andb_prop in Hhook.
  eexists _, _, _. split; [reflexivity |]. left.
  exists rest. split; [reflexivity |]. now left.
Qed.

Lemma visitor_state_sound info s state setter :
  In (state, setter) (stateVariables (stateInfoVisitor info s)) ->
  In (state, setter) (stateVariables info) \/
  declaresState (s_node s) state setter.
Proof.
  unfold stateInfoVisitor. destruct (s_node s); try (now left).
  apply declarator_state_sound.
Qed.

Lemma collectStateHook_has id init info k :
  JsMap.has (stateVariables info) k = true ->
  JsMap.has (stateVariables (collectStateHook id init info)) k = true.
Proof.
  intros H. unfold collectStateHook, setStateVariable.
  repeat split_match; cbn [stateVariables]; try exact H.
  rewrite JsMap_has_set, H. apply orb_true_r.
Qed.

Lemma collectCustomHook_has id init info k :
  JsMap.has (stateVariables info) k = true ->
  JsMap.has (stateVariables (collectCustomHook id init info)) k = true.
Proof.
  intros H. unfold collectCustomHook, setStateVariable.
  repeat split_match; cbn [stateVariables]; try exact H.
  rewrite JsMap_has_set, H. apply orb_true_r.
Qed.

Lemma collectContext_has id init info k :
  JsMap.has (stateVariables info) k = true ->
  JsMap.has (stateVariables (collectContext id init info)) k = true.
Proof.
  intros H. unfold collectContext.
  repeat split_match; try exact H. now apply contextFold_has.
Qed.

Lemma visitor_has info s k :
  JsMap.has (stateVariables info) k = true ->
  JsMap.has (stateVariables (stateInfoVisitor info s)) k = true.
Proof.
  intros H. unfold stateInfoVisitor. destruct (s_node s); try exact H.
  apply collectContext_has, collectCustomHook_has, collectStateHook_has.
  now rewrite collectRef_state.
Qed.

Lemma declarator_NoDup id init info :
  NoDup (JsMap.keys (stateVariables info)) ->
  NoDup
    (JsMap.keys
       (stateVariables
          (collectContext id init
             (collectCustomHook id init
                (collectStateHook id init (collectRef id init info)))))).
Proof.
  intros H.
  assert (H1 : NoDup (JsMap.keys (stateVariables (collectRef id init info))))
    by now rewrite collectRef_state.
  revert H1. generalize (collectRef id init info). intros i1 H1.
  assert (H2 : NoDup (JsMap.keys (stateVariables (collectStateHook id init i1)))).
  { unfold collectStateHook, setStateVariable.
    repeat split_match; cbn [stateVariables]; try exact H1.
    now apply JsMap_set_keys. }
  revert H2. generalize (collectStateHook id init i1). intros i2 H2.
  assert (H3 : NoDup (JsMap.keys (stateVariables (collectCustomHook id init i2)))).
  { unfold collectCustomHook, setStateVariable.
    repeat split_match; cbn [stateVariables]; try exact H2.
    now apply JsMap_set_keys. }
  revert H3. generalize (collectCustomHook id init i2). intros i3 H3.
  unfold collectContext. repeat split_match; try exact H3.
  now apply contextFold_NoDup.
Qed.

Lemma visitor_NoDup info s :
  NoDup (JsMap.keys (stateVariables info)) ->
  NoDup (JsMap.keys (stateVariables (stateInfoVisitor info s))).
Proof.
  intros H. unfold stateInfoVisitor. destruct (s_node s); try exact H.
  now apply declarator_NoDup.
Qed.

Lemma declarator_state_complete l id init info state setter :
  declaresState (VariableDeclarator l id init) state setter ->
  JsMap.has
    (stateVariables
       (collectContext id init
          (collectCustomHook id init
             (collectStateHook id init (collectRef id init info))))) state
  = true.
Proof.
  intros (line & id' & init' & [= _ -> ->] & H).
  destruct H as [(rest & -> & H) | (properties & l0 & args & -> & -> & H)].
  - apply collectContext_has.
    destruct H as [H | (l0 & callee & args & -> & Huse & Hne & Hset)].
    + apply collectCustomHook_has.
      unfold collectStateHook.
      assert (Hc : isCallExpression init' = true).
      { unfold isStateHookCall, callCallee in H. now destruct init'. }
      rewrite Hc, H. cbn [andb firstTwoIdentifiers setStateVariable
                            stateVariables].
      now rewrite JsMap_has_set, String.eqb_refl.
    + unfold collectCustomHook. rewrite Huse.
      apply String.eqb_neq in Hne. rewrite Hne.
      cbn [andb negb firstTwoIdentifiers]. rewrite Hset.
      cbn [setStateVariable stateVariables].
      now rewrite JsMap_has_set, String.eqb_refl.
  - destruct H as (Hs & Hst & Hset & ->).
    unfold collectContext. rewrite String.eqb_refl.
    now apply contextFold_complete.
Qed.

Lemma visitor_state_complete info s state setter :
  declaresState (s_node s) state setter ->
  JsMap.has (stateVariables (stateInfoVisitor info s)) state = true.
Proof.
  unfold stateInfoVisitor. intros H.
  destruct (s_node s);
    try (now destruct H as (?&?&?&[=]&_)).
  eapply declarator_state_complete. exact H.
Qed.

Lemma visitor_refs info s name :
  In name (refVariables (stateInfoVisitor info s)) <->
  In name (refVariables info) \/ declaresRef (s_node s) name.
Proof.
  unfold stateInfoVisitor.
  destruct (s_node s);
    try (split; [now left | intros [H | (?&?&?&[=])]; exact H]).
  rewrite collectContext_refs, collectCustomHook_refs, collectStateHook_refs.
  apply collectRef_refs.
Qed.

Lemma visitor_refs_NoDup info s :
  NoDup (refVariables info) -> NoDup (refVariables (stateInfoVisitor info s)).
Proof.
  intros H. unfold stateInfoVisitor. destruct (s_node s); try exact H.
  rewrite collectContext_refs, collectCustomHook_refs, collectStateHook_refs.
  unfold collectRef. repeat split_match; try exact H.
  cbn [refVariables]. now apply setAdd_NoDup.
Qed.

Lemma extract_refs_gen sites info name :
  In name (refVariables (fold_left stateInfoVisitor sites info)) <->
  In name (refVariables info) \/
  exists s, In s sites /\ declaresRef (s_node s) name.
Proof.
  revert info. induction sites as [|s sites IH]; intros info; cbn [fold_left].
  - split; [now left | now intros [H | (? & [] & _)]].
  - rewrite IH, visitor_refs. split.
    + intros [[H | H] | (s' & Hin & H)].
      * now left.
      * right. exists s. split; [now left | exact H].
      * right. exists s'. split; [now right | exact H].
    + intros [H | (s' & [<- | Hin] & H)].
      * now left; left.
      * now left; right.
      * right. now exists s'.
Qed.

Lemma extract_has_gen sites info state :
  JsMap.has (stateVariables (fold_left stateInfoVisitor sites info)) state
  = true <->
  JsMap.has (stateVariables info) state = true \/
  exists s setter, In s sites /\ declaresState (s_node s) state setter.
Proof.
  split.
  - intros H. apply JsMap_has_In in H. destruct H as [v H].
    revert info H. induction sites as [|s sites IH]; intros info H;
      cbn [fold_left] in H.
    + left. apply JsMap_has_In. now exists v.
    + apply IH in H. destruct H as [H | (s' & setter & Hin & H)].
      * apply JsMap_has_In in H. destruct H as [v' H].
        apply visitor_state_sound in H. destruct H as [H | H].
        -- left. apply JsMap_has_In. now exists v'.
        -- right. exists s, v'. split; [now left | exact H].
      * right. exists s', setter. split; [now right | exact H].
  - intros [H | (s & setter & Hin & H)].
    + apply fold_left_preserves
        with (Q := fun a => JsMap.has (stateVariables a) state = true);
        [|exact H].
      intros a y Ha. now apply visitor_has.
    + apply fold_left_reaches
        with (Q := fun a => JsMap.has (stateVariables a) state = true)
             (x := s); [exact Hin | |].
      * intros a. now apply visitor_state_complete with (setter := setter).
      * intros a y Ha. now apply visitor_has.
Qed.

(** X19.  [extractStateInfo] records a pair of state variable and
    setter only from a declarator of one of three shapes: an array
    pattern of two identifiers initialised by a state hook call, or by a
    call of a [use...] hook other than [useState] when the second name
    looks like a setter, or an object pattern initialised by
    [useContext(...)] that binds a setter-like name together with the
    state name derived from it.  A name is a key of the state table
    exactly when some declarator declares it so.  A name is a ref
    variable exactly when it is declared as [x = useRef(...)] with the
    bare identifier [useRef] as callee.  Neither collection has
    duplicates. *)
Theorem state_info_comes_from_declarators (ast : node) :
  let info := extractStateInfo ast in
  (forall state setter,
      In (state, setter) (stateVariables info) ->
      exists s, In s (walk ast) /\ declaresState (s_node s) state setter) /\
  (forall state,
      JsMap.has (stateVariables info) state = true <->
      exists s setter,
        In s (walk ast) /\ declaresState (s_node s) state setter) /\
  (forall name,
      In name (refVariables info) <->
      exists s, In s (walk ast) /\ declaresRef (s_node s) name) /\
  NoDup (JsMap.keys (stateVariables info)) /\
  NoDup (refVariables info).
Proof.
  cbv zeta. unfold extractStateInfo.
  split; [|split; [split|split; [split|split]]].
  - intros state setter.
    apply (fold_left_invariant stateInfoVisitor
             (fun i => forall st se, In (st, se) (stateVariables i) ->
                exists s, In s (walk ast) /\ declaresState (s_node s) st se));
      [now intros |].
    intros a x Hx IH st se Hin.
    apply visitor_state_sound in Hin. destruct Hin as [Hin | Hin].
    + now apply IH.
    + now exists x.
  - intros H. apply extract_has_gen in H. now destruct H as [H | H].
  - intros H. apply extract_has_gen. now right.
  - intros H. apply extract_refs_gen in H. now destruct H as [[] | H].
  - intros H. apply extract_refs_gen. now right.
  - apply fold_left_preserves
      with (Q := fun a => NoDup (JsMap.keys (stateVariables a)));
      [|constructor].
    intros a y Ha. now apply visitor_NoDup.
  - apply fold_left_preserves with (Q := fun a => NoDup (refVariables a));
      [|constructor].
    intros a y Ha. now apply visitor_refs_NoDup.
Qed.

(** ** Confidence *)

(** X20.  [getConfidenceExplanation] returns the empty text exactly
    when [_adjustConfidence] would leave a high confidence high.  When
    it returns a text, [_adjustConfidence] turns high into medium and
    leaves the other levels alone.  [_adjustConfidence] changes nothing
    but high into medium, and applying it twice is the same as applying
    it once. *)
Theorem confidence_explanation_matches_adjustment
  (confidence base : ConfidenceLevel) (context : AdjustContext) :
  (getConfidenceExplanation confidence context = EmptyString <->
   _adjustConfidence high context = high) /\
  (getConfidenceExplanation confidence context <> EmptyString ->
   _adjustConfidence base context =
   match base with high => medium | other => other end) /\
  (_adjustConfidence base context = base \/
   (base = high /\ _adjustConfidence base context = medium)) /\
  _adjustConfidence (_adjustConfidence base context) context =
  _adjustConfidence base context.
Proof.
  unfold getConfidenceExplanation, _adjustConfidence.
  destruct (truthyBool (usedTypeInference context) &&
            negb (truthyBool (isStrictMode context)));
    destruct (deeperThanTwo (crossFileChainDepth context));
    destruct (truthyBool (isConditional context));
    destruct base; cbn;
    repeat split; try discriminate; try reflexivity; try tauto;
    try (intros; congruence); try (right; split; reflexivity);
    try (left; reflexivity).
Qed.

(** ** Cycles among the dependencies of a hook *)

Lemma setDelete_setAdd (s : list string) (x : string) :
  ~ In x s -> setDelete (setAdd s x) x = s.
Proof.
  intros Hn. unfold setAdd. rewrite (proj2 (strIn_false x s) Hn).
  unfold setDelete. rewrite filter_app. cbn. rewrite String.eqb_refl. cbn.
  rewrite app_nil_r. induction s as [|y s IH]; [reflexivity |].
  cbn. destruct (String.eqb_spec y x) as [-> | Hne].
  - exfalso. apply Hn. now left.
  - cbn. f_equal. apply IH. intros H. apply Hn. now right.
Qed.

Lemma indexOf_first (x : string) (pre rest : list string) :
  ~ In x pre -> indexOf x (pre ++ x :: rest) = Some (length pre).
Proof.
  induction pre as [|y pre IH]; intros Hn; cbn.
  - now rewrite String.eqb_refl.
  - destruct (String.eqb_spec y x) as [-> | Hne].
    + exfalso. apply Hn. now left.
    + rewrite IH; [reflexivity |]. intros H. apply Hn. now right.
Qed.

Lemma skipn_length_app {A} (pre l : list A) : skipn (length pre) (pre ++ l) = l.
Proof. induction pre; [reflexivity | assumption]. Qed.

Lemma in_split_first (x : string) (l : list string) :
  In x l -> exists pre rest, l = pre ++ x :: rest /\ ~ In x pre.
Proof.
  induction l as [|y l IH]; [intros [] |].
  intros H. destruct (String.eqb_spec y x) as [-> | Hne].
  - exists [], l. split; [reflexivity | intros []].
  - destruct H as [-> | H]; [congruence |].
    destruct (IH H) as (pre & rest & -> & Hn).
    exists (y :: pre), rest. split; [reflexivity |].
    intros [E | Hin]; [congruence | now apply Hn].
Qed.

Lemma linked_snoc variables (p : list string) (x y : string) :
  linked variables (p ++ [x]) -> dependsOn variables x y ->
  linked variables ((p ++ [x]) ++ [y]).
Proof.
  induction p as [|z p IH]; cbn [app linked].
  - intros _ H. now repeat split.
  - intros [H1 H2] Hd. split.
    + destruct p; exact H1.
    + now apply IH.
Qed.

Lemma linked_app_r variables (p q : list string) :
  linked variables (p ++ q) -> linked variables q.
Proof.
  induction p as [|z p IH]; [trivial |]. cbn [app linked]. intros [_ H].
  now apply IH.
Qed.

Lemma last_nonempty {A} (l : list A) (x d d' : A) :
  last (x :: l) d = last (x :: l) d'.
Proof.
  revert x. induction l as [|y l IH]; intros x; [reflexivity |].
  change (last (x :: y :: l) d) with (last (y :: l) d).
  change (last (x :: y :: l) d') with (last (y :: l) d').
  apply IH.
Qed.

Lemma JsMap_get_key {V} (m : JsMap.t V) (k : string) (v : V) :
  JsMap.get m k = Some v -> In k (JsMap.keys m).
Proof.
  intros H. apply JsMap_get_In in H. apply (in_map fst) in H. exact H.
Qed.

Section CycleSearch.

Variable variables : JsMap.t (list string).

Lemma searching_deeper (p visited : list string) (cur dep : string) :
  searching variables p visited cur -> ~ In cur visited ->
  dependsOn variables cur dep ->
  searching variables (p ++ [cur]) (setAdd visited cur) dep.
Proof.
  intros (Hp & Hv & Hnd & Hincl & Hl) Hn Hd. unfold searching.
  split; [|split; [|split; [|split]]].
  - apply NoDup_app; [exact Hp | repeat constructor; intros [] |].
    intros x Hx [<- | []]. apply Hn. now apply Hv.
  - intros x. rewrite setAdd_In, in_app_iff, Hv. cbn. intuition congruence.
  - now apply setAdd_NoDup.
  - intros x Hx. apply setAdd_In in Hx. destruct Hx as [Hx | ->].
    + now apply Hincl.
    + destruct Hd as (deps & Hget & _). now apply JsMap_get_key in Hget.
  - now apply linked_snoc.
Qed.

Lemma searching_bound (p visited : list string) (cur : string) :
  searching variables p visited cur -> length visited <= length variables.
Proof.
  intros (_ & _ & Hnd & Hincl & _).
  apply NoDup_incl_length in Hincl; [|exact Hnd].
  unfold JsMap.keys in Hincl. now rewrite length_map in Hincl.
Qed.

Lemma search_result (fuel : nat) :
  forall (cur : string) (p visited : list string),
    searching variables p visited cur ->
    length variables < fuel + length visited ->
    exists cycle visited',
      findRealCircularDependency fuel cur variables visited (p ++ [cur])
      = Some (cycle, visited') /\
      (cycle = [] -> visited' = visited) /\
      (cycle <> [] -> foundFrom variables p cur cycle).
Proof.
  induction fuel as [|fuel IH]; intros cur p visited Hs Hfuel.
  - pose proof (searching_bound _ _ _ Hs). lia.
  - cbn [findRealCircularDependency].
    destruct (strIn cur visited) eqn:Hvis.
    + apply strIn_In in Hvis.
      destruct Hs as (Hp & Hv & Hnd & Hincl & Hl).
      apply Hv in Hvis. destruct (in_split_first _ _ Hvis)
        as (pre & rest & -> & Hn).
      rewrite <- app_assoc. cbn [app].
      rewrite indexOf_first by exact Hn.
      rewrite skipn_length_app.
      eexists _, _. split; [reflexivity |]. split; [discriminate |].
      intros _. exists [], pre, cur, rest.
      split; [now rewrite <- app_assoc |].
      split; [exact Hl |]. split; [exact Hp |].
      cbn [app]. now rewrite <- app_assoc.
    + apply strIn_false in Hvis.
      destruct (JsMap.get variables cur) as [deps|] eqn:Hget;
        [|eexists _, _; split; [reflexivity |];
          split; [reflexivity | now intros []]].
      destruct (Nat.eqb (length deps) 0);
        [eexists _, _; split; [reflexivity |];
         split; [reflexivity | now intros []] |].
      match goal with
      | |- context [?F deps (setAdd visited cur)] => set (each := F)
      end.
      assert (Hloop : forall ds',
                 incl ds' deps ->
                 exists cycle visited',
                   each ds' (setAdd visited cur) = Some (cycle, visited') /\
                   (cycle = [] -> visited' = visited) /\
                   (cycle <> [] -> foundFrom variables p cur cycle)).
      { induction ds' as [|dep rest IHr]; intros Hin.
        - cbn. rewrite setDelete_setAdd by exact Hvis.
          eexists _, _. split; [reflexivity |].
          split; [reflexivity | now intros []].
        - cbn.
          assert (Hrest : incl rest deps)
            by (intros x Hx; apply Hin; now right).
          destruct (isPrimitiveOrImported dep) eqn:Hprim;
            [now apply IHr |].
          assert (Hd : dependsOn variables cur dep).
          { exists deps. repeat split; try assumption. apply Hin. now left. }
          pose proof (searching_deeper _ _ _ dep Hs Hvis Hd) as Hs'.
          destruct (IH dep (p ++ [cur]) (setAdd visited cur) Hs')
            as (cycle & v' & Hcall & Hempty & Hfound).
          { unfold setAdd. rewrite (proj2 (strIn_false _ _) Hvis).
            rewrite length_app. cbn. lia. }
          rewrite Hcall. destruct cycle as [|c0 cycle].
          + cbn. rewrite (Hempty eq_refl). now apply IHr.
          + cbn. eexists _, _. split; [reflexivity |].
            split; [discriminate |]. intros _.
            destruct Hfound as (ext & pre & c & mid & E & Hl & Hnd & Hc);
              [discriminate |].
            exists (dep :: ext), pre, c, mid.
            rewrite <- app_assoc in E, Hl. cbn [app] in E, Hl.
            now repeat split. }
      apply Hloop. apply incl_refl.
Qed.

Lemma search_complete (fuel : nat) :
  forall (cur : string) (p visited ext : list string),
    searching variables p visited cur ->
    length variables < fuel + length visited ->
    linked variables (cur :: ext) ->
    In (last (cur :: ext) cur) (p ++ removelast (cur :: ext)) ->
    exists cycle visited',
      findRealCircularDependency fuel cur variables visited (p ++ [cur])
      = Some (cycle, visited') /\ cycle <> [].
Proof.
  induction fuel as [|fuel IH]; intros cur p visited ext Hs Hfuel Hl Hlast.
  - pose proof (searching_bound _ _ _ Hs). lia.
  - cbn [findRealCircularDependency].
    destruct (strIn cur visited) eqn:Hvis.
    + apply strIn_In in Hvis.
      destruct Hs as (Hp & Hv & Hnd & Hincl & Hl').
      apply Hv in Hvis. destruct (in_split_first _ _ Hvis)
        as (pre & rest & -> & Hn).
      rewrite <- app_assoc. cbn [app].
      rewrite indexOf_first by exact Hn.
      rewrite skipn_length_app.
      eexists _, _. split; [reflexivity | discriminate].
    + apply strIn_false in Hvis.
      destruct ext as [|y ext].
      { exfalso. cbn in Hlast. rewrite app_nil_r in Hlast.
        apply Hvis. destruct Hs as (_ & Hv & _). now apply Hv. }
      assert (Hy : dependsOn variables cur y) by exact (proj1 Hl).
      destruct Hy as (deps & Hget & Hiny & Hprimy).
      rewrite Hget.
      replace (Nat.eqb (length deps) 0) with false
        by (now destruct deps; [destruct Hiny |]).
      match goal with
      | |- context [?F deps (setAdd visited cur)] => set (each := F)
      end.
      assert (Hloop : forall ds',
                 incl ds' deps -> In y ds' ->
                 exists cycle visited',
                   each ds' (setAdd visited cur) = Some (cycle, visited') /\
                   cycle <> []).
      { induction ds' as [|dep rest IHr]; intros Hin Hyin; [now destruct Hyin |].
        cbn.
        assert (Hrest : incl rest deps)
          by (intros x Hx; apply Hin; now right).
        destruct (isPrimitiveOrImported dep) eqn:Hprim.
        { destruct Hyin as [-> | Hyin]; [congruence | now apply IHr]. }
        assert (Hd : dependsOn variables cur dep).
        { exists deps. repeat split; try assumption. apply Hin. now left. }
        pose proof (searching_deeper _ _ _ dep Hs Hvis Hd) as Hs'.
        assert (Hfuel' : length variables <
                         fuel + length (setAdd visited cur)).
        { unfold setAdd. rewrite (proj2 (strIn_false _ _) Hvis).
          rewrite length_app. cbn. lia. }
        destruct (search_result fuel dep (p ++ [cur]) (setAdd visited cur)
                    Hs' Hfuel') as (cycle & v' & Hcall & Hempty & _).
        rewrite Hcall. destruct cycle as [|c0 cycle].
        - cbn. rewrite (Hempty eq_refl).
          destruct Hyin as [-> | Hyin]; [|now apply IHr].
          exfalso.
          destruct (IH y (p ++ [cur]) (setAdd visited cur) ext Hs' Hfuel')
            as (cycle' & v'' & Hcall' & Hne).
          + exact (proj2 Hl).
          + change (last (cur :: y :: ext) cur) with (last (y :: ext) cur)
              in Hlast.
            change (removelast (cur :: y :: ext))
              with (cur :: removelast (y :: ext)) in Hlast.
            rewrite <- app_assoc. cbn [app].
            now rewrite (last_nonempty ext y y cur).
          + rewrite Hcall in Hcall'. injection Hcall' as <- _.
            now apply Hne.
        - cbn. eexists _, _. split; [reflexivity | discriminate]. }
      apply Hloop; [apply incl_refl | exact Hiny].
Qed.

End CycleSearch.

Lemma search_from_dependency (variables : JsMap.t (list string))
  (dep : string) :
  exists cycle visited',
    findRealCircularDependency (searchDepth variables) dep variables [] [dep]
    = Some (cycle, visited') /\
    (cycle <> [] -> cycleFrom variables dep cycle /\ 2 < length cycle) /\
    (revisits variables dep -> cycle <> []).
Proof.
  assert (Hs : searching variables [] [] dep).
  { unfold searching. repeat split; try constructor; try tauto.
    intros x []. }
  assert (Hfuel : length variables < searchDepth variables + length (@nil string))
    by (unfold searchDepth; cbn; lia).
  destruct (search_result variables _ dep [] [] Hs Hfuel)
    as (cycle & v' & Hcall & _ & Hfound).
  cbn [app] in Hcall. exists cycle, v'. split; [exact Hcall |]. split.
  - intros Hne. destruct (Hfound Hne) as (ext & pre & c & mid & E & Hl & Hnd & ->).
    split.
    + now exists ext, pre, c, mid.
    + cbn [length]. rewrite length_app. cbn. lia.
  - intros (ext & Hl & Hlast).
    destruct (search_complete variables _ dep [] [] ext Hs Hfuel Hl Hlast)
      as (cycle' & v'' & Hcall' & Hne).
    cbn [app] in Hcall'. rewrite Hcall in Hcall'. now injection Hcall' as <- _.
Qed.

Lemma detect_from (variables : JsMap.t (list string)) (deps : list string) :
  forall acc,
  exists found,
    fold_left
      (fun cycles dep =>
         match cycles with
         | None => None
         | Some cycles =>
             match findRealCircularDependency (searchDepth variables) dep
                     variables [] [dep] with
             | None => None
             | Some (cycle, _) =>
                 if Nat.ltb 2 (length cycle) then Some (cycles ++ [cycle])
                 else Some cycles
             end
         end) deps (Some acc) = Some (acc ++ found) /\
    (forall cycle, In cycle found ->
       exists dep, In dep deps /\ cycleFrom variables dep cycle) /\
    (forall dep, In dep deps -> revisits variables dep ->
       exists cycle, In cycle found /\ cycleFrom variables dep cycle) /\
    length found <= length deps.
Proof.
  induction deps as [|dep deps IH]; intros acc; cbn [fold_left].
  - exists []. rewrite app_nil_r. repeat split; try (now intros ? []).
    constructor.
  - destruct (search_from_dependency variables dep)
      as (cycle & v' & Hcall & Hfound & Hcomplete).
    rewrite Hcall. destruct (Nat.ltb 2 (length cycle)) eqn:Hlen.
    + destruct (IH (acc ++ [cycle])) as (found & Hfold & Hsound & Hcompl & Hn).
      exists (cycle :: found). rewrite Hfold, <- app_assoc.
      assert (Hc : cycleFrom variables dep cycle).
      { apply Hfound. intros ->. discriminate. }
      split; [reflexivity |]. split; [|split].
      * intros c [<- | Hin].
        -- exists dep. split; [now left | exact Hc].
        -- destruct (Hsound c Hin) as (d & Hd & Hcf). exists d.
           split; [now right | exact Hcf].
      * intros d [<- | Hd] Hrev.
        -- exists cycle. split; [now left | exact Hc].
        -- destruct (Hcompl d Hd Hrev) as (c & Hin & Hcf). exists c.
           split; [now right | exact Hcf].
      * cbn. lia.
    + destruct (IH acc) as (found & Hfold & Hsound & Hcompl & Hn).
      exists found. split; [exact Hfold |]. split; [|split].
      * intros c Hin. destruct (Hsound c Hin) as (d & Hd & Hcf). exists d.
        split; [now right | exact Hcf].
      * intros d [<- | Hd] Hrev.
        -- exfalso. pose proof (Hcomplete Hrev) as Hne.
           destruct (Hfound Hne) as [_ Hlong].
           apply Nat.ltb_ge in Hlen. lia.
        -- now apply Hcompl.
      * cbn. lia.
Qed.

(** X21.  The search for cycles among the dependencies of a hook
    always ends within the depth given to it.  Every cycle it reports is
    the loop of a chain of dependencies that starts at a dependency of
    the hook and comes back to one of its own elements; it is written
    with the closing variable twice at its end, so it has at least
    three entries.  A dependency from which such a chain exists
    contributes a cycle, and there is at most one cycle per
    dependency. *)
Theorem hook_cycles_are_dependency_cycles (hook : HookInfo)
  (variables : JsMap.t (list string)) :
  exists cycles,
    detectCyclesInHook hook variables = Some cycles /\
    (forall cycle, In cycle cycles ->
       exists dep, In dep (hook_dependencies hook) /\
                   cycleFrom variables dep cycle) /\
    (forall dep, In dep (hook_dependencies hook) ->
       revisits variables dep ->
       exists cycle, In cycle cycles /\ cycleFrom variables dep cycle) /\
    length cycles <= length (hook_dependencies hook).
Proof.
  unfold detectCyclesInHook.
  destruct (detect_from variables (hook_dependencies hook) [])
    as (found & Hfold & H). exists found. split; [exact Hfold | exact H].
Qed.

(** X22.  A dependency of the hook that lists itself among its own
    dependencies, and is not skipped as a primitive or an import, makes
    [detectCyclesInHook] report a cycle, of at least three entries. *)
Theorem self_dependency_is_reported (hook : HookInfo)
  (variables : JsMap.t (list string)) (a : string) (deps : list string) :
  In a (hook_dependencies hook) ->
  JsMap.get variables a = Some deps ->
  In a deps ->
  isPrimitiveOrImported a = false ->
  exists cycles cycle,
    detectCyclesInHook hook variables = Some cycles /\
    In cycle cycles /\ cycleFrom variables a cycle /\ 3 <= length cycle.
Proof.
  intros Hin Hget Hself Hprim. unfold detectCyclesInHook.
  destruct (detect_from variables (hook_dependencies hook) [])
    as (found & Hfold & _ & Hcompl & _).
  destruct (Hcompl a Hin) as (cycle & Hc & Hcf).
  { exists [a]. split.
    - cbn. repeat split. now exists deps.
    - now left. }
  exists found, cycle. repeat split; try assumption.
  destruct Hcf as (ext & pre & c & mid & _ & _ & _ & ->).
  cbn [length]. rewrite length_app. cbn. lia.
Qed.

Lemma self_dependency_witness :
  exists cycles cycle,
    detectCyclesInHook CycleCases.hook CycleCases.variables = Some cycles /\
    In cycle cycles /\ cycleFrom CycleCases.variables "d" cycle /\
    3 <= length cycle.
Proof.
  apply (self_dependency_is_reported CycleCases.hook CycleCases.variables
           "d" ["d"]).
  - cbn. tauto.
  - reflexivity.
  - now left.
  - reflexivity.
Defined.
